(** * A nanopore squiggle simulator and its event-based decoder

    Shallow embedding of the two notebooks of the training course:

    - the data generator ([DWELL], [NOISE], [CURRENT_LEVELS],
      [serial_resistor_model], the class [Pore] with [_kmer_index],
      [kmer_table] and [generate_signal]);
    - the solution notebook ([transition_detector], [extract_event_means],
      [euclidian_distance] and the cells that compute [final_sequence] and
      the accuracy).

    A Python float is the rational that it denotes ([Q]); numpy's [nan] is a
    value of its own.  Where the code computes with floats and the result
    depends on the rounding (the mean of an event, the distance to a level,
    the conductance of the resistor model, the accuracy), the operation is
    the exact one followed by [b64], the rounding of binary64 to the nearest
    number with ties to even, subnormal numbers included.  Overflow to an
    infinity is not modelled: the statements that it could affect bound the
    magnitudes.  Python exceptions are the [Raise] case of [result].  The
    random generators are an explicit stream of variates that the simulator
    threads through its calls. *)

From Stdlib Require Import ZArith QArith Qabs Qround Qpower Lqa Lia.
From stdpp Require Import base option list sorting strings gmap.

(** ** Python values and control *)

Inductive exn := KeyError | IndexError | TypeError | ValueError | ZeroDivisionError.

Inductive result (A : Type) :=
  | Ok (a : A)
  | Raise (e : exn).
Global Arguments Ok {A} a.
Global Arguments Raise {A} e.

Global Instance result_ret : MRet result := @Ok.
Global Instance result_bind : MBind result :=
  λ A B f m, match m with Ok a => f a | Raise e => Raise e end.

(** A Python number: the code mixes [int] and [float], and [range] accepts
    only the former. *)
Inductive pynum :=
  | PyInt (z : Z)
  | PyFloat (q : Q).

Definition num_val (n : pynum) : Q :=
  match n with PyInt z => inject_Z z | PyFloat q => q end.

(** numpy's float with its [nan]. *)
Inductive npfloat :=
  | Fin (q : Q)
  | NaN.

Definition Qltb (x y : Q) : bool := negb (Qle_bool y x).

(** [range(n)] for an [int] [n]: empty when [n <= 0]. *)
Definition range (n : Z) : list nat := seq 0 (Z.to_nat n).

(** [range(n)] for any Python number: a [float] is a [TypeError]. *)
Definition py_range (n : pynum) : result (list nat) :=
  match n with
  | PyInt z => Ok (range z)
  | PyFloat _ => Raise TypeError
  end.

(** [for x in xs: s = body x s], stopping at the first exception. *)
Fixpoint py_for {I S : Type} (xs : list I) (body : I → S → result S) (s : S)
  : result S :=
  match xs with
  | [] => Ok s
  | x :: xs' => s' ← body x s; py_for xs' body s'
  end.

(** [l[i]]: a negative index counts from the end, anything out of range is
    an [IndexError]. *)
Definition py_index {A : Type} (l : list A) (i : Z) : result A :=
  let n := Z.of_nat (length l) in
  let j := (if i <? 0 then i + n else i)%Z in
  if (j <? 0)%Z then Raise IndexError
  else match l !! Z.to_nat j with
       | Some x => Ok x
       | None => Raise IndexError
       end.

(** [l[lo:hi]]: each bound counts from the end when negative and is then
    clipped to [0, len(l)]. *)
Definition py_clip (n i : Z) : Z :=
  (if i <? 0 then Z.max 0 (i + n) else Z.min i n)%Z.

Definition py_slice {A : Type} (l : list A) (lo hi : Z) : list A :=
  let n := Z.of_nat (length l) in
  let a := py_clip n lo in
  let b := py_clip n hi in
  take (Z.to_nat (b - a)) (drop (Z.to_nat a) l).

(** [max(l)] and [min(l)]: the first extremal element, [ValueError] on an
    empty argument. *)
Definition py_max (l : list Q) : result Q :=
  match l with
  | [] => Raise ValueError
  | x :: l' => Ok (foldl (λ m y, if Qltb m y then y else m) x l')
  end.

Definition py_min (l : list Q) : result Q :=
  match l with
  | [] => Raise ValueError
  | x :: l' => Ok (foldl (λ m y, if Qltb y m then y else m) x l')
  end.

(** ** Binary64 arithmetic *)

(** [int(np.round(x))]: to the nearest integer, a tie to the even one. *)
Definition np_round (x : Q) : Z :=
  let f := Qfloor x in
  let r := (x - inject_Z f)%Q in
  if Qltb r (1 # 2) then f
  else if Qltb (1 # 2) r then (f + 1)%Z
  else if Z.even f then f else (f + 1)%Z.

Definition pow2 (e : Z) : Q := 2 ^ e.

(** The exponent [e] with [2^e <= q < 2^(e+1)], for a positive [q]. *)
Definition floor_log2 (q : Q) : Z :=
  let e := (Z.log2 (Qnum q) - Z.log2 (Z.pos (Qden q)))%Z in
  if Qle_bool (pow2 e) q then e else (e - 1)%Z.

(** The exponent of the unit in the last place: 53 significant bits, and
    nothing below [2^-1074]. *)
Definition b64_scale (q : Q) : Z := Z.max (floor_log2 (Qabs q) - 52) (-1074).

(** The binary64 number nearest to [q], the one with the even last bit on a
    tie. *)
Definition b64 (q : Q) : Q :=
  if Qeq_bool q 0 then 0
  else let u := pow2 (b64_scale q) in inject_Z (np_round (q / u)) * u.

(** The largest binary64 number. *)
Definition b64_max : Q := inject_Z (2 ^ 53 - 1) * pow2 971.

(** The 53 digits of the square root of [r], for [2^104 <= r < 2^106]:
    the integer nearest to the root, the even one on a tie. *)
Definition sqrt_digits (r : Q) : Z :=
  let n := Z.sqrt (Qfloor r) in
  let mid := (inject_Z (n * n + n) + (1 # 4))%Q in
  if Qltb r mid then n
  else if Qltb mid r then (n + 1)%Z
  else if Z.even n then n else (n + 1)%Z.

(** The binary64 number nearest to the square root of [q]. *)
Definition b64_sqrt (q : Q) : Q :=
  if Qle_bool q 0 then 0
  else
    let s := (floor_log2 q `div` 2 - 52)%Z in
    (inject_Z (sqrt_digits (q / pow2 (2 * s))) * pow2 s)%Q.

(** numpy's sum of a float array (the inner loop of [np.add.reduce]):
    pairwise summation, every addition rounded.  Fewer than 8 numbers are
    added from left to right; up to 128 go into eight accumulators, the
    accumulators are added in pairs, then the numbers beyond the last
    multiple of 8 are added one by one; a longer array is split at a
    multiple of 8 near its middle. *)
Definition fsum_from (res : Q) (a : list Q) : Q :=
  foldl (λ res x, b64 (res + x)) res a.

Fixpoint unrolled (r a : list Q) (passes : nat) : list Q * list Q :=
  match passes with
  | 0 => (r, a)
  | S passes => unrolled (zip_with (λ x y, b64 (x + y)) r (take 8 a)) (drop 8 a) passes
  end.

Definition pairwise_block (a : list Q) : Q :=
  let '(r, rest) := unrolled (take 8 a) (drop 8 a) (length a / 8 - 1) in
  match r with
  | [r0; r1; r2; r3; r4; r5; r6; r7] =>
      let res := b64 (b64 (b64 (r0 + r1) + b64 (r2 + r3))
                      + b64 (b64 (r4 + r5) + b64 (r6 + r7))) in
      fsum_from res rest
  | _ => 0%Q
  end.

Fixpoint pairwise_sum (fuel : nat) (a : list Q) : Q :=
  let n := length a in
  if n <? 8 then fsum_from 0 a
  else if n <=? 128 then pairwise_block a
  else match fuel with
       | 0 => 0%Q
       | S fuel =>
           let n2 := n / 2 - (n / 2) mod 8 in
           b64 (pairwise_sum fuel (take n2 a) + pairwise_sum fuel (drop n2 a))
       end.

Definition np_sum (a : list Q) : Q := pairwise_sum (length a) a.

(** [np.mean(l)]: the rounded sum over the count, rounded; [nan] for no
    sample. *)
Definition np_mean (l : list Q) : npfloat :=
  match l with
  | [] => NaN
  | _ => Fin (b64 (np_sum l / inject_Z (Z.of_nat (length l))))
  end.

(** ** The solution notebook: segmentation and event means *)

Definition transition_detector (signal : list Q) (window_size : Z) (threshold : Q)
  : result (list Z * list Q) :=
  ranges ← py_for (range (Z.of_nat (length signal) - window_size + 1))
    (λ i ranges,
       let section := py_slice signal (Z.of_nat i) (Z.of_nat i + window_size) in
       hi ← py_max section;
       lo ← py_min section;
       let sig_range := (hi - lo)%Q in
       Ok (ranges ++ [sig_range])) [];
  let events := [0%Z] in
  let threshold := (3 # 100)%Q in
  events ← py_for (range (Z.of_nat (length ranges)))
    (λ i events,
       prev ← py_index ranges (Z.of_nat i - 1);
       if Qltb prev threshold then
         cur ← py_index ranges (Z.of_nat i);
         if Qltb threshold cur
         then Ok (events ++ [(Z.of_nat i + window_size `div` 2)%Z])
         else Ok events
       else Ok events) events;
  Ok (events ++ [Z.of_nat (length signal)], ranges).

Definition extract_event_means (signal : list Q) (events : list Z)
  : result (list npfloat) :=
  py_for (range (Z.of_nat (length events) - 1))
    (λ i means,
       start_idx ← (if Nat.eqb i 0 then Ok 0%Z
                    else e ← py_index events (Z.of_nat i); Ok (e + 1)%Z);
       end_idx ← py_index events (Z.of_nat i + 1);
       Ok (means ++ [np_mean (py_slice signal start_idx end_idx)])) [].

(** ** The data generator *)

Inductive base := bA | bC | bG | bT.

Global Instance base_eq_dec : EqDecision base.
Proof. solve_decision. Defined.

Definition ALPHABET : list base := [bA; bC; bG; bT].

Definition NUCLEOTIDE_ORDER (b : base) : Z :=
  match b with bA => 0 | bC => 1 | bG => 2 | bT => 3 end%Z.

(** One variate of numpy's generator for each distribution the policies
    draw from: a standard normal deviate, a standard Gamma(2) deviate (never
    negative) and a Poisson count. *)
Record variate := {
  normal_z : Q;
  gamma_g : N * positive;
  poisson_n : N
}.

Definition gamma_val (v : variate) : Q := Z.of_N (gamma_g v).1 # (gamma_g v).2.

(** The state of [np.random]: the variates still to come. *)
Definition rng := nat → variate.

Definition next (g : rng) : variate * rng := (g 0, λ n, g (S n)).

Fixpoint draws (n : nat) (g : rng) : list variate * rng :=
  match n with
  | 0 => ([], g)
  | S n' => let '(v, g1) := next g in
            let '(vs, g2) := draws n' g1 in (v :: vs, g2)
  end.

Definition dwell_policy : Type := pynum → rng → result (pynum * rng).

Definition dwell_fixed (mean_dwell : pynum) (g : rng) : result (pynum * rng) :=
  Ok (mean_dwell, g).

Definition dwell_normal (mean_dwell : pynum) (g : rng) : result (pynum * rng) :=
  let '(v, g) := next g in
  Ok (PyInt (Z.max 0 (np_round (num_val mean_dwell + normal_z v))), g).

Definition dwell_gamma (mean_dwell : pynum) (g : rng) : result (pynum * rng) :=
  let scale := (num_val mean_dwell / 2)%Q in
  if Qltb scale 0 then Raise ValueError
  else let '(v, g) := next g in
       Ok (PyInt (np_round (scale * gamma_val v)), g).

(** [np.random.poisson] refuses a negative [lam].  It also refuses a [lam]
    above about [9.2e18], far from any dwell, which is left out here. *)
Definition dwell_poisson (mean_dwell : pynum) (g : rng) : result (pynum * rng) :=
  let lam := num_val mean_dwell in
  if Qltb lam 0 then Raise ValueError
  else let '(v, g) := next g in
       Ok (PyInt (if Qeq_bool lam 0 then 0 else Z.of_N (poisson_n v)), g).

Definition DWELL : gmap string dwell_policy :=
  {[ "fixed" := dwell_fixed;
     "normal" := dwell_normal;
     "gamma" := dwell_gamma;
     "poisson" := dwell_poisson ]}.

Definition noise_policy : Type := list Q → Q → rng → result (list Q * rng).

Definition noise_clean (signal : list Q) (amp : Q) (g : rng) : result (list Q * rng) :=
  Ok (replicate (length signal) 0%Q, g).

Definition noise_normal (signal : list Q) (amp : Q) (g : rng) : result (list Q * rng) :=
  if Qltb amp 0 then Raise ValueError
  else let '(vs, g) := draws (length signal) g in
       Ok ((λ v, 0 + amp * normal_z v)%Q <$> vs, g).

Definition NOISE : gmap string noise_policy :=
  {[ "clean" := noise_clean;
     "normal" := noise_normal ]}.

(** [len(ALPHABET) ** kmer_len]: an [int] for an exponent [>= 0], a [float]
    below, which is 0.0 from [4 ** -538] on. *)
Definition alphabet_pow (kmer_len : Z) : pynum :=
  if (kmer_len <? 0)%Z then PyFloat (b64 (Qpower 4 kmer_len))
  else PyInt (4 ^ kmer_len).

(** The conductance is a float: the quotient by 3, each addition and the
    final quotient are rounded. *)
Definition serial_resistor_model (kmer kmer_len : Z) : result Q :=
  '(conductance, kmer) ← py_for (range kmer_len)
    (λ _ '(conductance, kmer),
       Ok (b64 (conductance + b64 (inject_Z (Z.land kmer 3) / inject_Z (4 - 1))),
           Z.shiftr kmer 2)) (0%Q, kmer);
  if (kmer_len =? 0)%Z then Raise ZeroDivisionError
  else Ok (b64 (conductance / b64 (inject_Z kmer_len))).

(** The second argument is the stream of Python's [random.random()]. *)
Definition level_policy : Type := Z → (nat → Q) → result (list Q).

(** [list(np.arange(0, 1, 1 / len(ALPHABET) ** kmer_len))].  For
    [kmer_len >= 0] the step [4^-kmer_len] and the levels [i * step] are
    binary64 numbers as they stand (for every table that fits in memory).
    For a negative [kmer_len] the power is a float: dividing by 0.0 raises,
    and a step that overflows to infinity gives an empty array. *)
Definition even_space (kmer_len : Z) (rnd : nat → Q) : result (list Q) :=
  match alphabet_pow kmer_len with
  | PyInt size =>
      let step := (1 / num_val (PyInt size))%Q in
      let n := Z.to_nat (Qceiling ((1 - 0) / step)) in
      Ok ((λ i : nat, 0 + inject_Z (Z.of_nat i) * step)%Q <$> seq 0 n)
  | PyFloat size =>
      if Qeq_bool size 0 then Raise ZeroDivisionError
      else
        let step := b64 (1 / size) in
        if Qltb b64_max step then Ok []
        else
          let n := Z.to_nat (Qceiling (b64 ((1 - 0) / step))) in
          Ok ((λ i : nat, b64 (0 + b64 (inject_Z (Z.of_nat i) * step))) <$> seq 0 n)
  end.

Definition random_levels (kmer_len : Z) (rnd : nat → Q) : result (list Q) :=
  ks ← py_range (alphabet_pow kmer_len);
  Ok (rnd <$> (ks : list nat)).

Definition resistor_model (kmer_len : Z) (rnd : nat → Q) : result (list Q) :=
  ks ← py_range (alphabet_pow kmer_len);
  py_for (ks : list nat) (λ (k : nat) (levels : list Q),
    level ← serial_resistor_model (Z.of_nat k) kmer_len;
    Ok (levels ++ [level])) [].

Definition CURRENT_LEVELS : gmap string level_policy :=
  {[ "even_space" := even_space;
     "random" := random_levels;
     "resistor_model" := resistor_model ]}.

(** [d[key]] on a dictionary. *)
Definition py_getitem {V : Type} (d : gmap string V) (key : string) : result V :=
  match d !! key with
  | Some v => Ok v
  | None => Raise KeyError
  end.

Record Pore := {
  kmer_len : Z;
  mean_dwell_time : pynum;
  noise_amplitude : Q;
  signal_noise_process : noise_policy;
  dwell_distribution_process : dwell_policy;
  current_levels : list Q
}.

Definition Pore_init (kmer_len : Z) (mean_dwell_time signal_to_noise : pynum)
    (signal_noise_process dwell_distribution_process current_level_model : string)
    (rnd : nat → Q) : result Pore :=
  noise_amplitude ← (if Qeq_bool (num_val signal_to_noise) 0
                     then Raise ZeroDivisionError
                     else Ok (1 / num_val signal_to_noise)%Q);
  noise ← py_getitem NOISE signal_noise_process;
  dwell ← py_getitem DWELL dwell_distribution_process;
  model ← py_getitem CURRENT_LEVELS current_level_model;
  levels ← model kmer_len rnd;
  Ok {| kmer_len := kmer_len;
        mean_dwell_time := mean_dwell_time;
        noise_amplitude := noise_amplitude;
        signal_noise_process := noise;
        dwell_distribution_process := dwell;
        current_levels := levels |}.

Definition _kmer_index (kmer : list base) : result Z :=
  match kmer with
  | [] => Raise IndexError
  | b :: rest =>
      Ok (foldl (λ lexical_order k, (Z.shiftl lexical_order 2 + NUCLEOTIDE_ORDER k)%Z)
                (NUCLEOTIDE_ORDER b) rest)
  end.

(** [itertools.product('ACGT', repeat=k)], in its lexicographic order. *)
Fixpoint product (k : nat) : list (list base) :=
  match k with
  | 0 => [[]]
  | S k' => b ← ALPHABET; (b ::.) <$> product k'
  end.

(** [dict(zip(labels, self.current_levels))]: the labels are pairwise
    distinct, so the dictionary is the list of pairs in insertion order. *)
Definition kmer_table (self : Pore) : result (list (list base * Q)) :=
  if (kmer_len self <? 0)%Z then Raise ValueError
  else Ok (zip (product (Z.to_nat (kmer_len self))) (current_levels self)).

(** [generate_signal(dna_sequence, return_alignment=True)]. *)
Definition generate_signal (self : Pore) (dna_sequence : list base) (g : rng)
  : result (list Q * list Z * rng) :=
  '(signal, alignment, g) ←
    py_for (range (Z.of_nat (length dna_sequence) - kmer_len self + 1))
      (λ i '(signal, alignment, g),
         let kmer := py_slice dna_sequence (Z.of_nat i) (Z.of_nat i + kmer_len self) in
         kmer_index ← _kmer_index kmer;
         '(dwell_time, g) ← dwell_distribution_process self (mean_dwell_time self) g;
         steps ← py_range dwell_time;
         signal ← py_for steps
           (λ _ signal,
              level ← py_index (current_levels self) kmer_index;
              Ok (signal ++ [level])) signal;
         Ok (signal,
             alignment ++ [Z.max 0 (Z.of_nat (length signal) - 1)], g))
      ([], [0%Z], g);
  '(noise, g) ← signal_noise_process self signal (noise_amplitude self) g;
  Ok (zip_with Qplus signal noise, alignment, g).

(** ** The solution notebook: decoding and scoring *)

(** [np.abs((x - y)**2)**0.5] on floats: the difference, its square and
    the square root are each rounded. *)
Definition float_distance (x y : Q) : Q :=
  let diff := b64 (x - y) in
  b64_sqrt (Qabs (b64 (diff * diff))).

Definition euclidian_distance (x : npfloat) (y : Q) : npfloat :=
  match x with
  | Fin x => Fin (float_distance x y)
  | NaN => NaN
  end.

(** [np.argmin] of one column: the first index of the least value, the
    first [nan] when there is one, [ValueError] for an empty column. *)
Fixpoint argmin_from (best : nat) (least : Q) (i : nat) (col : list npfloat) : nat :=
  match col with
  | [] => best
  | NaN :: _ => i
  | Fin d :: col' =>
      if Qltb d least then argmin_from i d (S i) col'
      else argmin_from best least (S i) col'
  end.

Definition np_argmin (col : list npfloat) : result nat :=
  match col with
  | [] => Raise ValueError
  | NaN :: _ => Ok 0
  | Fin d :: col' => Ok (argmin_from 0 d 1 col')
  end.

(** The cells from [kmer_keys] to [final_sequence], on the table read back
    from [kmer_table.json].  [np.argmin(emission_distances, axis=0)] is one
    call over all columns and refuses a matrix without rows. *)
Definition final_sequence (kmer_table : list (list base * Q)) (means : list npfloat)
  : result (list base) :=
  let kmer_keys := kmer_table.*1 in
  let kmer_levels := kmer_table.*2 in
  mins ← (if Nat.eqb (length kmer_keys) 0 then Raise ValueError
          else py_for means (λ mean mins,
                 let column := euclidian_distance mean <$> kmer_levels in
                 m ← np_argmin column;
                 Ok (mins ++ [m])) []);
  kmers ← py_for mins (λ m kmers,
            kmer ← py_index kmer_keys (Z.of_nat m);
            Ok (kmers ++ [kmer])) [];
  py_for kmers (λ kmer final_sequence,
    b ← py_index kmer 0;
    Ok (final_sequence ++ [b])) [].

(** Modelled from the spec: the edit distance of the external alignment
    library, Levenshtein-style with unit costs. *)
Fixpoint editDistance (query target : list base) : nat :=
  match query with
  | [] => length target
  | x :: query' =>
      (fix inner (target : list base) : nat :=
         match target with
         | [] => length query
         | y :: target' =>
             Nat.min (Nat.min (S (editDistance query' target)) (S (inner target')))
                     ((if decide (x = y) then 0 else 1) + editDistance query' target')
         end) target
  end.


(** The whole notebook on one signal. *)
Definition basecall (kmer_table : list (list base * Q)) (signal : list Q)
    (window_size : Z) (threshold : Q) : result (list base) :=
  '(events, ranges) ← transition_detector signal window_size threshold;
  means ← extract_event_means signal events;
  final_sequence kmer_table means.

(** ** Auxiliary definitions for the statements *)

(** The range of the window that starts at [i]: the body of the first loop. *)
Definition window_range (signal : list Q) (window_size : Z) (i : nat) : result Q :=
  let section := py_slice signal (Z.of_nat i) (Z.of_nat i + window_size) in
  hi ← py_max section;
  lo ← py_min section;
  Ok (hi - lo)%Q.

(** Whether the second loop appends a boundary at iteration [i]. *)
Definition boundary_at (ranges : list Q) (i : nat) : bool :=
  match py_index ranges (Z.of_nat i - 1), py_index ranges (Z.of_nat i) with
  | Ok prev, Ok cur => Qltb prev (3 # 100) && Qltb (3 # 100) cur
  | _, _ => false
  end.

Definition boundaries (ranges : list Q) (window_size : Z) : list Z :=
  range (Z.of_nat (length ranges)) ≫=
    λ i, if boundary_at ranges i then [(Z.of_nat i + window_size `div` 2)%Z] else [].

(** The mean that [extract_event_means] appends for event [i]. *)
Definition event_mean (signal : list Q) (events : list Z) (i : nat) : result npfloat :=
  start_idx ← (if Nat.eqb i 0 then Ok 0%Z
               else e ← py_index events (Z.of_nat i); Ok (e + 1)%Z);
  end_idx ← py_index events (Z.of_nat i + 1);
  Ok (np_mean (py_slice signal start_idx end_idx)).

(** The level that [generate_signal] emits while the pore is at position
    [i]: the table entry of the k-mer that starts there. *)
Definition squiggle_level (self : Pore) (dna_sequence : list base) (i : nat) : result Q :=
  let kmer := py_slice dna_sequence (Z.of_nat i) (Z.of_nat i + kmer_len self) in
  kmer_index ← _kmer_index kmer;
  py_index (current_levels self) kmer_index.

(** The body of the loop of [generate_signal]. *)
Definition generate_step (self : Pore) (dna_sequence : list base) (i : nat)
    (state : list Q * list Z * rng) : result (list Q * list Z * rng) :=
  let '(signal, alignment, g) := state in
  let kmer := py_slice dna_sequence (Z.of_nat i) (Z.of_nat i + kmer_len self) in
  kmer_index ← _kmer_index kmer;
  '(dwell_time, g) ← dwell_distribution_process self (mean_dwell_time self) g;
  steps ← py_range dwell_time;
  signal ← py_for steps
    (λ _ signal,
       level ← py_index (current_levels self) kmer_index;
       Ok (signal ++ [level])) signal;
  Ok (signal, alignment ++ [Z.max 0 (Z.of_nat (length signal) - 1)], g).




(** Whether no two entries of a level table are equal. *)
Fixpoint levels_distinct (levels : list Q) : bool :=
  match levels with
  | [] => true
  | x :: rest => forallb (λ y, negb (Qeq_bool x y)) rest && levels_distinct rest
  end.


(** A state of the generator for the examples: every variate is zero. *)
Definition quiet : rng :=
  λ _, {| normal_z := 0; gamma_g := (0%N, 1%positive); poisson_n := 0%N |}.

(** The window indices at which the second loop of [transition_detector]
    appends a boundary. *)
Definition emission_indices (ranges : list Q) : list nat :=
  filter (λ i, boundary_at ranges i = true) (seq 0 (length ranges)).

(** The sum of the 2-bit codes of a k-mer. *)
Definition digit_sum (kmer : list base) : Z :=
  foldr (λ b s, NUCLEOTIDE_ORDER b + s)%Z 0%Z kmer.

(** ** The simulator *)

(** [np.searchsorted(a, v)] with the default side: numpy's binary search for
    the leftmost insertion point, [lo] and [hi] being its two indices. *)
Fixpoint searchsorted_loop (fuel : nat) (a : list Z) (v : Z) (lo hi : nat) : nat :=
  match fuel with
  | 0 => lo
  | S fuel =>
      if lo <? hi then
        let mid := lo + (hi - lo) / 2 in
        match a !! mid with
        | Some mid_val =>
            if (mid_val <? v)%Z then searchsorted_loop fuel a v (mid + 1) hi
            else searchsorted_loop fuel a v lo mid
        | None => lo
        end
      else lo
  end.

Definition np_searchsorted (a : list Z) (v : Z) : nat :=
  searchsorted_loop (length a) a v 0 (length a).

(** One pass of the loop of [simulator], for the [sequence] that
    [sequence_generator] hands over. [chunksize] is [None] or an [int]; the
    result [None] is the [continue] (nothing is yielded for this sequence),
    [Some] is the yielded triple. *)
Definition simulator_body (pore : Pore) (chunksize : option Z) (sequence : list base)
    (g : rng) : result (option (list base * list Q * list Z) * rng) :=
  '(signal, alignment, g) ← generate_signal pore sequence g;
  match chunksize with
  | Some c =>
      if negb (c =? 0)%Z then
        last_entry ← py_index alignment (-1);
        if (last_entry <? c)%Z then Ok (None, g)
        else
          let pos := Z.of_nat (np_searchsorted alignment c) in
          Ok (Some (py_slice sequence 0 pos, py_slice signal 0 c, py_slice alignment 0 pos), g)
      else Ok (Some (sequence, signal, alignment), g)
  | None => Ok (Some (sequence, signal, alignment), g)
  end.

(** ** The SNP notebook: simulated pile-ups *)

Definition NUCLEOTIDES : list base := [bA; bC; bG; bT].

Definition mutation_labels : gmap string Z :=
  {[ "no_SNP" := 0%Z;
     "heterozygous_SNP" := 1%Z;
     "homozygous_SNP" := 2%Z ]}.

Definition transdict (b : base) : Z :=
  match b with bA => 0 | bC => 1 | bG => 2 | bT => 3 end%Z.

(** One draw of Python's [random] module: the float that [random.random()]
    returns and the raw integer from which [random.choice] and
    [random.randint] take their index. *)
Record py_variate := {
  random_u : Q;
  randbelow_r : nat
}.

(** The state of [random]: the draws still to come. *)
Definition py_rng := nat → py_variate.

(** Code that draws from [random] and may raise. *)
Definition rand (A : Type) : Type := py_rng → result (A * py_rng).

Global Instance rand_ret : MRet rand := λ A x g, Ok (x, g).
Global Instance rand_bind : MBind rand :=
  λ A B f m g, match m g with Ok (x, g') => f x g' | Raise e => Raise e end.

Definition lift {A : Type} (r : result A) : rand A :=
  λ g, match r with Ok x => Ok (x, g) | Raise e => Raise e end.

Definition random_random : rand Q :=
  λ g, Ok (random_u (g 0), λ n, g (S n)).

Definition randbelow (n : nat) : rand nat :=
  λ g, Ok (randbelow_r (g 0) mod n, λ n, g (S n)).

(** [random.choice(seq)]: an [IndexError] for an empty sequence. *)
Definition random_choice {A : Type} (seq : list A) : rand A :=
  if Nat.eqb (length seq) 0 then lift (Raise IndexError)
  else i ← randbelow (length seq); lift (py_index seq (Z.of_nat i)).

(** [random.randint(a, b)]: both ends included. *)
Definition random_randint (a b : Z) : rand Z :=
  if (b <? a)%Z then lift (Raise ValueError)
  else r ← randbelow (Z.to_nat (b - a + 1)); mret (a + Z.of_nat r)%Z.

(** [for x in xs: s = body x s] and [[f x for x in xs]] for code that draws. *)
Fixpoint rand_for {I S : Type} (xs : list I) (body : I → S → rand S) (s : S) : rand S :=
  match xs with
  | [] => mret s
  | x :: xs' => s' ← body x s; rand_for xs' body s'
  end.

Fixpoint rand_comprehension {I B : Type} (f : I → rand B) (xs : list I) : rand (list B) :=
  match xs with
  | [] => mret []
  | x :: xs' => y ← f x; ys ← rand_comprehension f xs'; mret (y :: ys)
  end.

(** [l[i] = x]: a negative index counts from the end, anything out of range
    is an [IndexError]. *)
Definition py_setitem {A : Type} (l : list A) (i : Z) (x : A) : result (list A) :=
  let n := Z.of_nat (length l) in
  let j := (if i <? 0 then i + n else i)%Z in
  if ((j <? 0) || (n <=? j))%Z then Raise IndexError
  else Ok (<[Z.to_nat j := x]> l).

(** One element of the comprehension that builds [new_read]. *)
Definition new_read_base (reference : list base) (p_sequencing_error : Q) (i : nat)
  : rand base :=
  u ← random_random;
  if Qltb p_sequencing_error u then lift (py_index reference (Z.of_nat i))
  else random_choice NUCLEOTIDES.

(** The body of the loop over [range(coverage)], up to the new read. *)
Definition simulate_read (reference : list base) (reference_length snp_index : Z)
    (snp_base : base) (mutation_type : Z) (p_sequencing_error p_alignment_error : Q)
  : rand (list base) :=
  let mut_index := snp_index in
  new_read ← rand_comprehension (new_read_base reference p_sequencing_error)
               (range reference_length);
  u ← random_random;
  mut_index ← (if Qltb u p_alignment_error
               then d ← random_randint (-1) 2; mret (snp_index + d)%Z
               else mret mut_index);
  new_read ← (if (mutation_type =? 1)%Z
              then u ← random_random;
                   if Qltb (1 # 2) u
                   then lift (py_setitem new_read mut_index snp_base)
                   else mret new_read
              else mret new_read);
  new_read ← (if (mutation_type =? 2)%Z
              then lift (py_setitem new_read mut_index snp_base)
              else mret new_read);
  u ← random_random;
  if Qltb u p_sequencing_error
  then b ← random_choice NUCLEOTIDES; lift (py_setitem new_read mut_index b)
  else mret new_read.

(** The body of the loop over [range(num_alignments)]. *)
Definition simulate_alignment (reference_length coverage : Z) (mutations : list string)
    (p_sequencing_error p_alignment_error : Q)
    (state : list (list (list base)) * list Z)
  : rand (list (list (list base)) * list Z) :=
  let '(alignments, mutation_types) := state in
  let snp_index := (reference_length `div` 2)%Z in
  reference ← rand_comprehension (λ _ : nat, random_choice NUCLEOTIDES)
                (range reference_length);
  reference_base_at_snp ← lift (py_index reference snp_index);
  snp_base ← random_choice (filter (λ i, i ≠ reference_base_at_snp) NUCLEOTIDES);
  labels ← lift (mapM (py_getitem mutation_labels) mutations);
  mutation_type ← random_choice labels;
  let mutation_types := mutation_types ++ [mutation_type] in
  alignment ← rand_for (range coverage)
    (λ _ alignment,
       new_read ← simulate_read reference reference_length snp_index snp_base
                    mutation_type p_sequencing_error p_alignment_error;
       mret (alignment ++ [new_read]))
    [reference];
  mret (alignments ++ [alignment], mutation_types).

(** [np.vectorize(transdict.get)] refuses an array without elements. *)
Definition simulate_alignments (reference_length num_alignments coverage : Z)
    (mutations : list string) (p_sequencing_error p_alignment_error : Q)
  : rand (list (list (list Z)) * list Z) :=
  '(alignments, mutation_types) ←
    rand_for (range num_alignments)
      (λ _, simulate_alignment reference_length coverage mutations
              p_sequencing_error p_alignment_error)
      ([], []);
  if Nat.eqb (length (concat (concat alignments))) 0 then lift (Raise ValueError)
  else mret ((λ alignment : list (list base),
                (λ read : list base, transdict <$> read) <$> alignment) <$> alignments,
             mutation_types).

(** The array that [plot_delta] hands to [plot_pileup]: the first row as it
    is, then each read with 4 wherever it equals the first row. *)
Definition plot_delta (data : list (list Z)) : result (list (list Z)) :=
  reference ← py_index data 0;
  let reads_deltas :=
    (λ read, zip_with (λ r x, if (x =? r)%Z then 4%Z else x) reference read)
      <$> py_slice data 1 (Z.of_nat (length data)) in
  Ok ([reference] ++ reads_deltas).

(** Total correctness for code that draws: started in a state of the
    generator that satisfies [I], [m] returns a value that satisfies [Q] and
    leaves a state that satisfies [I]. *)
Definition returns {A : Type} (I : py_rng → Prop) (m : rand A) (Q : A → Prop) : Prop :=
  ∀ g, I g → ∃ x g', m g = Ok (x, g') ∧ I g' ∧ Q x.

(** Every float still to come lies strictly between 0 and 1. *)
Definition positive_draws (g : py_rng) : Prop :=
  ∀ n, (0 < random_u (g n))%Q ∧ (random_u (g n) < 1)%Q.

(** A label that [random.choice] can pick among those of [mutations]. *)
Definition label_of (mutations : list string) (t : Z) : Prop :=
  ∃ m, m ∈ mutations ∧ mutation_labels !! m = Some t.

(** What one pass of the outer loop of [simulate_alignments] appends: the
    reference, then [coverage] reads that are related to it by [R]. *)
Definition pileup (R : list base → base → Z → list base → Prop)
    (reference_length coverage : Z) (mutations : list string)
    (alignment : list (list base)) (t : Z) : Prop :=
  ∃ reference reads r s,
    alignment = reference :: reads ∧
    length reference = Z.to_nat reference_length ∧
    reference !! Z.to_nat (reference_length `div` 2) = Some r ∧ s ≠ r ∧
    label_of mutations t ∧
    length reads = Z.to_nat coverage ∧
    Forall (R reference s t) reads.

(** ** The sequence generator and the simulator's loop *)

(** [simulate_dna_sequence(seq_length)] with the default alphabet. *)
Definition simulate_dna_sequence (seq_length : pynum) : rand (list base) :=
  ns ← lift (py_range seq_length);
  rand_comprehension (λ _ : nat, random_choice ALPHABET) (ns : list nat).

(** One [next] of [sequence_generator]: the length is drawn from
    [np.random], the bases from [random]. *)
Definition sequence_generator_next (mean_seq_length : pynum)
    (seq_length_distribution_process : string) (g : rng) (r : py_rng)
  : result (list base * rng * py_rng) :=
  policy ← py_getitem DWELL seq_length_distribution_process;
  '(seq_length, g) ← (policy : dwell_policy) mean_seq_length g;
  '(sequence, r) ← simulate_dna_sequence seq_length r;
  Ok (sequence, g, r).

(** [next(simulator(seq_length, pore, seq_length_distribution, chunksize))]
    cut off after [fuel] passes of the loop: [None] when none of them has
    yielded. *)
Fixpoint simulator_next (fuel : nat) (seq_length : pynum) (pore : Pore)
    (seq_length_distribution : string) (chunksize : option Z) (g : rng) (r : py_rng)
  : result (option (list base * list Q * list Z) * rng * py_rng) :=
  match fuel with
  | 0 => Ok (None, g, r)
  | S fuel =>
      '(sequence, g, r) ← sequence_generator_next seq_length seq_length_distribution g r;
      '(yielded, g) ← simulator_body pore chunksize sequence g;
      match yielded with
      | Some item => Ok (Some item, g, r)
      | None => simulator_next fuel seq_length pore seq_length_distribution chunksize g r
      end
  end.

(** ** Small inputs *)

Example detector_two_levels :
  transition_detector [0; 0; 0; 1; 1; 1]%Q 3 (3 # 100)
  = Ok ([0; 2; 6]%Z, [0 - 0; 1 - 0; 1 - 0; 1 - 1]%Q).
Proof. reflexivity. Qed.

Example product_2_prefix : take 5 (product 2) = [[bA; bA]; [bA; bC]; [bA; bG]; [bA; bT]; [bC; bA]].
Proof. reflexivity. Qed.

Example kmer_index_CA : _kmer_index [bC; bA] = Ok 4%Z.
Proof. reflexivity. Qed.

Example editDistance_AC_ACG : editDistance [bA; bC] [bA; bC; bG] = 1.
Proof. reflexivity. Qed.

(** ** Python primitives *)

Section loops.
Context {I S : Type}.
Implicit Types (xs : list I) (body : I → S → result S).

Lemma py_for_app xs ys body s :
  py_for (xs ++ ys) body s = (s' ← py_for xs body s; py_for ys body s').
Proof.
  revert s. induction xs as [|x xs IH]; intros s; simpl; [done|].
  destruct (body x s) as [s1|e]; simpl; [apply IH|done].
Qed.

(** A loop whose body keeps an invariant indexed by the iteration count
    runs to its end and establishes the invariant there. *)
Lemma py_for_invariant (P : nat → S → Prop) xs body s :
  P 0 s →
  (∀ n x s, xs !! n = Some x → P n s → ∃ s', body x s = Ok s' ∧ P (Datatypes.S n) s') →
  ∃ s', py_for xs body s = Ok s' ∧ P (length xs) s'.
Proof.
  revert P s. induction xs as [|x xs IH]; intros P s H0 Hstep; simpl.
  - eauto.
  - destruct (Hstep 0 x s eq_refl H0) as (s1 & -> & H1). simpl.
    apply (IH (λ n, P (Datatypes.S n))); [done|].
    intros n y s2 Hy. apply (Hstep (Datatypes.S n)). done.
Qed.
End loops.

(** A loop that appends one computed item per iteration. *)
Lemma py_for_collect {I B : Type} (f : I → result B) (xs : list I) (ys : list B) (acc : list B) :
  Forall2 (λ x y, f x = Ok y) xs ys →
  py_for xs (λ x acc, y ← f x; Ok (acc ++ [y])) acc = Ok (acc ++ ys).
Proof.
  intros H. revert acc. induction H as [|x y xs ys Hxy _ IH]; intros acc; simpl.
  - by rewrite app_nil_r.
  - rewrite Hxy. simpl. rewrite IH. by rewrite <- app_assoc.
Qed.

Lemma py_for_collect_inv {I B : Type} (f : I → result B) (xs : list I) (zs acc : list B) :
  py_for xs (λ x acc, y ← f x; Ok (acc ++ [y])) acc = Ok zs →
  ∃ ys, zs = acc ++ ys ∧ Forall2 (λ x y, f x = Ok y) xs ys.
Proof.
  revert acc. induction xs as [|x xs IH]; intros acc; simpl.
  - intros [= <-]. exists []. by rewrite app_nil_r.
  - destruct (f x) as [y|e] eqn:Hfx; simpl; [|done].
    intros (ys & -> & Hys)%IH. exists (y :: ys). rewrite <- app_assoc.
    split; [done|]. by constructor.
Qed.

(** A loop that appends some items (possibly none) per iteration and cannot
    fail. *)
Lemma py_for_extend {I B : Type} (body : I → list B → result (list B))
    (h : I → list B) (xs : list I) (acc : list B) :
  (∀ x acc, x ∈ xs → body x acc = Ok (acc ++ h x)) →
  py_for xs body acc = Ok (acc ++ (xs ≫= h)).
Proof.
  revert acc. induction xs as [|x xs IH]; intros acc Hb; simpl.
  - by rewrite app_nil_r.
  - rewrite Hb by left. simpl. rewrite IH.
    + by rewrite <- app_assoc.
    + intros y acc' Hy. apply Hb. by right.
Qed.

Lemma Forall2_total {I B : Type} (R : I → B → Prop) (xs : list I) :
  (∀ x, x ∈ xs → ∃ y, R x y) → ∃ ys, Forall2 R xs ys.
Proof.
  induction xs as [|x xs IH]; intros H.
  - exists []. constructor.
  - destruct (H x) as [y Hy]; [left|].
    destruct IH as [ys Hys]; [intros z Hz; apply H; by right|].
    exists (y :: ys). by constructor.
Qed.

Lemma py_index_nat {A : Type} (l : list A) (i : nat) (x : A) :
  l !! i = Some x → py_index l (Z.of_nat i) = Ok x.
Proof.
  intros H. unfold py_index.
  destruct (Z.ltb_spec (Z.of_nat i) 0) as [?|_]; [lia|].
  destruct (Z.ltb_spec (Z.of_nat i) 0) as [?|_]; [lia|].
  by rewrite Nat2Z.id, H.
Qed.


Lemma py_index_last {A : Type} (l : list A) (x : A) :
  last l = Some x → py_index l (-1) = Ok x.
Proof.
  intros H. unfold py_index. simpl.
  assert (0 < length l) by (destruct l; simpl in *; [done|lia]).
  destruct (Z.ltb_spec (-1 + Z.of_nat (length l)) 0) as [?|_]; [lia|].
  rewrite last_lookup in H.
  replace (Z.to_nat (-1 + Z.of_nat (length l))) with (Nat.pred (length l)) by lia.
  by rewrite H.
Qed.

Lemma py_slice_nat {A : Type} (l : list A) (lo hi : nat) :
  py_slice l (Z.of_nat lo) (Z.of_nat hi) = take (hi - lo) (drop lo l).
Proof.
  unfold py_slice, py_clip.
  destruct (Z.ltb_spec (Z.of_nat lo) 0) as [?|_]; [lia|].
  destruct (Z.ltb_spec (Z.of_nat hi) 0) as [?|_]; [lia|].
  destruct (decide (lo ≤ length l)) as [Hlo|Hlo].
  - replace (Z.to_nat (Z.of_nat lo `min` Z.of_nat (length l))) with lo by lia.
    destruct (decide (hi ≤ length l)) as [Hhi|Hhi].
    + f_equal. lia.
    + rewrite !take_ge; [done|rewrite length_drop; lia..].
  - rewrite !drop_ge by lia. by rewrite !take_nil.
Qed.

Lemma Qltb_lt (x y : Q) : Qltb x y = true ↔ (x < y)%Q.
Proof.
  unfold Qltb. rewrite negb_true_iff, <- not_true_iff_false, Qle_bool_iff.
  split; [apply Qnot_le_lt|apply Qlt_not_le].
Qed.

Lemma Qltb_ge (x y : Q) : Qltb x y = false ↔ (y <= x)%Q.
Proof. unfold Qltb. by rewrite negb_false_iff, Qle_bool_iff. Qed.

Lemma py_for_ext {I S : Type} (xs : list I) (body1 body2 : I → S → result S) (s : S) :
  (∀ x s, body1 x s = body2 x s) → py_for xs body1 s = py_for xs body2 s.
Proof.
  intros H. revert s. induction xs as [|x xs IH]; intros s; simpl; [done|].
  rewrite H. destruct (body2 x s); simpl; [apply IH|done].
Qed.

Lemma py_index_total {A : Type} (l : list A) (i : Z) :
  (- Z.of_nat (length l) ≤ i < Z.of_nat (length l))%Z → ∃ x, py_index l i = Ok x.
Proof.
  intros Hi. unfold py_index.
  destruct (Z.ltb_spec i 0).
  - destruct (Z.ltb_spec (i + Z.of_nat (length l)) 0); [lia|].
    destruct (lookup_lt_is_Some_2 l (Z.to_nat (i + Z.of_nat (length l)))) as [x ->]; [lia|eauto].
  - destruct (Z.ltb_spec i 0); [lia|].
    destruct (lookup_lt_is_Some_2 l (Z.to_nat i)) as [x ->]; [lia|eauto].
Qed.

(** ** Rounding to the nearest integer *)

Lemma np_round_cases (x : Q) :
  let f := Qfloor x in
  (inject_Z f <= x)%Q ∧ (x < inject_Z f + 1)%Q ∧
  ((x - inject_Z f < 1 # 2)%Q ∧ np_round x = f ∨
   (1 # 2 < x - inject_Z f)%Q ∧ np_round x = (f + 1)%Z ∨
   (x - inject_Z f == 1 # 2)%Q ∧ np_round x = (if Z.even f then f else f + 1)%Z).
Proof.
  intros f. pose proof (Qfloor_le x) as H1. pose proof (Qlt_floor x) as H2.
  fold f in H1, H2. rewrite inject_Z_plus in H2. change (inject_Z 1) with 1%Q in H2.
  split; [done|]. split; [done|]. unfold np_round. fold f.
  destruct (Qltb (x - inject_Z f) (1 # 2)) eqn:Ha.
  { left. by apply Qltb_lt in Ha. }
  destruct (Qltb (1 # 2) (x - inject_Z f)) eqn:Hb.
  { right; left. by apply Qltb_lt in Hb. }
  right; right. apply Qltb_ge in Ha, Hb. split; [|done]. by apply Qle_antisym.
Qed.

Lemma np_round_error (x : Q) :
  (inject_Z (np_round x) - (1 # 2) <= x)%Q ∧ (x <= inject_Z (np_round x) + (1 # 2))%Q.
Proof.
  destruct (np_round_cases x) as (H1 & H2 & [[H ->]|[[H ->]|[H ->]]]).
  - split; lra.
  - rewrite inject_Z_plus. change (inject_Z 1) with 1%Q. split; lra.
  - destruct (Z.even _); [split; lra|]. rewrite inject_Z_plus.
    change (inject_Z 1) with 1%Q. split; lra.
Qed.

Lemma Qfloor_inject_Z (z : Z) : Qfloor (inject_Z z) = z.
Proof. unfold Qfloor, inject_Z. simpl. by rewrite Z.div_1_r. Qed.

Lemma Qfloor_unique (x : Q) (z : Z) :
  (inject_Z z <= x)%Q → (x < inject_Z z + 1)%Q → Qfloor x = z.
Proof.
  intros H1 H2. pose proof (Qfloor_le x) as H3. pose proof (Qlt_floor x) as H4.
  rewrite inject_Z_plus in H4. change (inject_Z 1) with 1%Q in H4.
  assert (inject_Z z < inject_Z (Qfloor x) + 1)%Q as Ha by lra.
  assert (inject_Z (Qfloor x) < inject_Z z + 1)%Q as Hb by lra.
  change 1%Q with (inject_Z 1) in Ha, Hb.
  rewrite <- inject_Z_plus in Ha, Hb. rewrite <- Zlt_Qlt in Ha, Hb. lia.
Qed.

Lemma np_round_Z (x : Q) (z : Z) : (x == inject_Z z)%Q → np_round x = z.
Proof.
  intros Hx. destruct (np_round_cases x) as (H1 & H2 & Hc).
  assert (Qfloor x = z) as Hf by (apply Qfloor_unique; lra).
  rewrite Hf in Hc. destruct Hc as [[H ->]|[[H ->]|[H ->]]]; [done|lra|lra].
Qed.

Lemma np_round_inject (z : Z) : np_round (inject_Z z) = z.
Proof. by apply np_round_Z. Qed.

Lemma np_round_floor (x : Q) : (Qfloor x ≤ np_round x ≤ Qfloor x + 1)%Z.
Proof.
  destruct (np_round_cases x) as (_ & _ & [[_ E]|[[_ E]|[_ E]]]); rewrite E;
    [lia|lia|destruct (Z.even (Qfloor x)); lia].
Qed.

Lemma np_round_mono (x y : Q) : (x <= y)%Q → (np_round x ≤ np_round y)%Z.
Proof.
  intros Hxy.
  assert (Qfloor x ≤ Qfloor y)%Z as Hf by by apply Qfloor_resp_le.
  destruct (Z.eq_dec (Qfloor x) (Qfloor y)) as [Heq|Hne].
  - destruct (np_round_cases x) as (Hx1 & Hx2 & Hx).
    destruct (np_round_cases y) as (Hy1 & Hy2 & Hy).
    rewrite <- Heq in Hy1, Hy2, Hy.
    destruct Hx as [[H Ex]|[[H Ex]|[H Ex]]], Hy as [[H' Ey]|[[H' Ey]|[H' Ey]]];
      rewrite Ex, Ey; try lia; try (exfalso; lra); destruct (Z.even (Qfloor x)); lia.
  - pose proof (np_round_floor x). pose proof (np_round_floor y). lia.
Qed.

Lemma np_round_proper (x y : Q) : (x == y)%Q → np_round x = np_round y.
Proof.
  intros Hxy. apply Z.le_antisymm; apply np_round_mono; lra.
Qed.

Lemma np_round_opp (x : Q) : np_round (- x) = (- np_round x)%Z.
Proof.
  destruct (np_round_cases x) as (Hx1 & Hx2 & Hx).
  destruct (np_round_cases (- x)) as (Hy1 & Hy2 & Hy).
  set (f := Qfloor x) in *. set (g := Qfloor (- x)) in *.
  assert (g = (- f)%Z ∨ g = (- f - 1)%Z) as Hg.
  { assert (inject_Z g < inject_Z (- f + 1))%Q as Ha.
    { rewrite inject_Z_plus, inject_Z_opp. change (inject_Z 1) with 1%Q. lra. }
    assert (inject_Z (- f - 1) < inject_Z (g + 1))%Q as Hb.
    { unfold Z.sub. rewrite !inject_Z_plus, !inject_Z_opp.
      change (inject_Z 1) with 1%Q. lra. }
    rewrite <- Zlt_Qlt in Ha, Hb. lia. }
  destruct Hg as [Hg|Hg].
  - (* x is an integer *)
    assert (x == inject_Z f)%Q as Hxf.
    { rewrite Hg, inject_Z_opp in Hy1. lra. }
    rewrite (np_round_Z x f Hxf). apply np_round_Z. rewrite inject_Z_opp. lra.
  - assert (inject_Z g == - inject_Z f - 1)%Q as Hgq.
    { rewrite Hg. unfold Z.sub. rewrite inject_Z_plus, !inject_Z_opp.
      change (inject_Z 1) with 1%Q. lra. }
    destruct Hx as [[H Hx]|[[H Hx]|[H Hx]]], Hy as [[H' Hy]|[[H' Hy]|[H' Hy]]];
      try (exfalso; lra); rewrite Hx, Hy; try lia.
    rewrite Hg. replace (- f - 1)%Z with (- (f + 1))%Z by lia.
    rewrite Z.even_opp. replace (f + 1)%Z with (Z.succ f) by lia. rewrite Z.even_succ.
    rewrite <- Z.negb_even. destruct (Z.even f); simpl; lia.
Qed.

(** ** Powers of two *)

Lemma pow2_pos (e : Z) : (0 < pow2 e)%Q.
Proof. by apply Qpower_0_lt. Qed.

Lemma pow2_plus (a b : Z) : (pow2 (a + b) == pow2 a * pow2 b)%Q.
Proof. by apply Qpower_plus. Qed.

Lemma pow2_minus (a b : Z) : (pow2 (a - b) == pow2 a / pow2 b)%Q.
Proof. by apply Qpower_minus. Qed.

Lemma pow2_le (a b : Z) : (a ≤ b)%Z → (pow2 a <= pow2 b)%Q.
Proof. intros H. by apply Qpower_le_compat_l. Qed.

Lemma pow2_lt (a b : Z) : (a < b)%Z → (pow2 a < pow2 b)%Q.
Proof. intros H. by apply Qpower_lt_compat_l. Qed.

Lemma pow2_lt_inv (a b : Z) : (pow2 a < pow2 b)%Q → (a < b)%Z.
Proof. intros H. by apply (Qpower_lt_compat_l_inv 2). Qed.

Lemma pow2_Z (a : Z) : (0 ≤ a)%Z → (pow2 a == inject_Z (2 ^ a))%Q.
Proof. intros H. unfold pow2. by rewrite Zpower_Qpower. Qed.

Lemma pow2_succ (a : Z) : (pow2 (a + 1) == 2 * pow2 a)%Q.
Proof. rewrite pow2_plus. change (pow2 1) with 2%Q. ring. Qed.

Lemma pow2_0 : pow2 0 = 1%Q.
Proof. done. Qed.

Lemma pow2_nonzero (e : Z) : ¬ (pow2 e == 0)%Q.
Proof. pose proof (pow2_pos e). lra. Qed.

(** A quotient by a power of two is a product by the inverse power. *)
Lemma div_pow2 (x : Q) (e : Z) : (x / pow2 e == x * pow2 (- e))%Q.
Proof.
  unfold pow2. rewrite Qpower_opp. unfold Qdiv. reflexivity.
Qed.

(** ** The binade of a positive rational *)

Lemma Zlog2_bounds (n : Z) : (0 < n)%Z → (2 ^ Z.log2 n ≤ n < 2 ^ (Z.log2 n + 1))%Z.
Proof.
  intros Hn. pose proof (Z.log2_spec n Hn) as H. replace (Z.succ (Z.log2 n)) with (Z.log2 n + 1)%Z in H by lia. done.
Qed.

Lemma floor_log2_spec (q : Q) :
  (0 < q)%Q → (pow2 (floor_log2 q) <= q)%Q ∧ (q < pow2 (floor_log2 q + 1))%Q.
Proof.
  intros Hq. destruct q as [n d]. unfold floor_log2. simpl Qnum. simpl Qden.
  assert (0 < n)%Z as Hn. { unfold Qlt in Hq. simpl in Hq. lia. }
  pose proof (Zlog2_bounds n Hn) as [Hn1 Hn2].
  pose proof (Zlog2_bounds (Z.pos d) ltac:(lia)) as [Hd1 Hd2].
  pose proof (Z.log2_nonneg n) as Ha. pose proof (Z.log2_nonneg (Z.pos d)) as Hb.
  set (a := Z.log2 n) in *. set (b := Z.log2 (Z.pos d)) in *.
  assert (n # d == inject_Z n / inject_Z (Z.pos d))%Q as Hnd by apply Qmake_Qdiv.
  assert (0 < inject_Z (Z.pos d))%Q as Hdpos by (rewrite <- (Zlt_Qlt 0); lia).
  assert (pow2 a <= inject_Z n)%Q as Q1 by (rewrite pow2_Z by lia; by rewrite <- Zle_Qle).
  assert (inject_Z n < pow2 (a + 1))%Q as Q2 by (rewrite pow2_Z by lia; by rewrite <- Zlt_Qlt).
  assert (pow2 b <= inject_Z (Z.pos d))%Q as Q3 by (rewrite pow2_Z by lia; by rewrite <- Zle_Qle).
  assert (inject_Z (Z.pos d) < pow2 (b + 1))%Q as Q4 by (rewrite pow2_Z by lia; by rewrite <- Zlt_Qlt).
  destruct (Qle_bool (pow2 (a - b)) (n # d)) eqn:Hle.
  - apply Qle_bool_iff in Hle. split; [done|].
    rewrite Hnd. apply Qlt_shift_div_r; [done|].
    assert (pow2 (a + 1) == pow2 (a - b + 1) * pow2 b)%Q as Hp.
    { rewrite <- pow2_plus. by replace (a - b + 1 + b)%Z with (a + 1)%Z by lia. }
    pose proof (pow2_pos (a - b + 1)). pose proof (pow2_pos b).
    apply Qlt_le_trans with (pow2 (a - b + 1) * pow2 b)%Q; [lra|].
    apply Qmult_le_l; done.
  - assert (n # d < pow2 (a - b))%Q as Hlt'.
    { apply Qnot_le_lt. intros H. apply Qle_bool_iff in H. congruence. }
    replace (a - b - 1 + 1)%Z with (a - b)%Z by lia. split; [|done].
    rewrite Hnd. apply Qle_shift_div_l; [done|].
    assert (pow2 a == pow2 (a - b - 1) * pow2 (b + 1))%Q as Hp.
    { rewrite <- pow2_plus. by replace (a - b - 1 + (b + 1))%Z with a by lia. }
    pose proof (pow2_pos (a - b - 1)). pose proof (pow2_pos (b + 1)).
    apply Qle_trans with (pow2 (a - b - 1) * pow2 (b + 1))%Q; [|lra].
    apply Qmult_le_l; [done|]. lra.
Qed.

Lemma floor_log2_unique (q : Q) (e : Z) :
  (pow2 e <= q)%Q → (q < pow2 (e + 1))%Q → floor_log2 q = e.
Proof.
  intros H1 H2. assert (0 < q)%Q as Hq by (pose proof (pow2_pos e); lra).
  destruct (floor_log2_spec q Hq) as [H3 H4].
  assert (floor_log2 q < e + 1)%Z by (apply pow2_lt_inv; lra).
  assert (e < floor_log2 q + 1)%Z by (apply pow2_lt_inv; lra).
  lia.
Qed.

Lemma floor_log2_proper (q q' : Q) : (0 < q)%Q → (q == q')%Q → floor_log2 q = floor_log2 q'.
Proof.
  intros Hq Heq. destruct (floor_log2_spec q Hq) as [H1 H2].
  symmetry. apply floor_log2_unique; lra.
Qed.

Lemma floor_log2_mono (q q' : Q) : (0 < q)%Q → (q <= q')%Q → (floor_log2 q ≤ floor_log2 q')%Z.
Proof.
  intros Hq Hle. destruct (floor_log2_spec q Hq) as [H1 H2].
  destruct (floor_log2_spec q' ltac:(lra)) as [H3 H4].
  assert (floor_log2 q < floor_log2 q' + 1)%Z by (apply pow2_lt_inv; lra). lia.
Qed.

Lemma floor_log2_lt (q : Q) (e : Z) : (0 < q)%Q → (q < pow2 e)%Q → (floor_log2 q < e)%Z.
Proof.
  intros Hq H. destruct (floor_log2_spec q Hq) as [H1 _]. apply pow2_lt_inv. lra.
Qed.

Lemma floor_log2_ge (q : Q) (e : Z) : (pow2 e <= q)%Q → (e ≤ floor_log2 q)%Z.
Proof.
  intros H. assert (0 < q)%Q as Hq by (pose proof (pow2_pos e); lra).
  destruct (floor_log2_spec q Hq) as [_ H2].
  assert (e < floor_log2 q + 1)%Z by (apply pow2_lt_inv; lra). lia.
Qed.

(** ** Rounding to binary64 *)

Lemma Qeq_bool_false (x y : Q) : Qeq_bool x y = false ↔ ¬ (x == y)%Q.
Proof.
  split.
  - intros H Heq. apply Qeq_bool_iff in Heq. congruence.
  - intros H. destruct (Qeq_bool x y) eqn:E; [|done]. by apply Qeq_bool_iff in E.
Qed.

Lemma b64_zero (q : Q) : (q == 0)%Q → b64 q = 0%Q.
Proof. intros H. unfold b64. apply Qeq_bool_iff in H. by rewrite H. Qed.

Lemma b64_nonzero (q : Q) :
  ¬ (q == 0)%Q →
  b64 q = (inject_Z (np_round (q / pow2 (b64_scale q))) * pow2 (b64_scale q))%Q.
Proof. intros H. unfold b64. apply Qeq_bool_false in H. by rewrite H. Qed.

Lemma Qabs_pos_nonzero (q : Q) : ¬ (q == 0)%Q → (0 < Qabs q)%Q.
Proof.
  intros H. destruct (Qlt_le_dec q 0) as [Hq|Hq].
  - rewrite Qabs_neg by lra. lra.
  - rewrite Qabs_pos by done. destruct (Qle_lt_or_eq _ _ Hq) as [?|Heq]; [done|].
    exfalso. apply H. by symmetry.
Qed.

Lemma b64_scale_proper (q q' : Q) :
  ¬ (q == 0)%Q → (q == q')%Q → b64_scale q = b64_scale q'.
Proof.
  intros H Heq. unfold b64_scale. f_equal. f_equal.
  apply floor_log2_proper; [by apply Qabs_pos_nonzero|by rewrite Heq].
Qed.

Lemma b64_proper (q q' : Q) : (q == q')%Q → b64 q = b64 q'.
Proof.
  intros Heq. destruct (Qeq_dec q 0) as [H0|H0].
  - rewrite !b64_zero; [done|lra|done].
  - rewrite (b64_nonzero q H0), (b64_nonzero q') by lra.
    rewrite (b64_scale_proper q q' H0 Heq). f_equal. f_equal.
    apply np_round_proper. by rewrite Heq.
Qed.

Global Instance b64_Proper : Proper (Qeq ==> Qeq) b64.
Proof. intros x y H. by rewrite (b64_proper x y H). Qed.

Lemma b64_scale_opp (q : Q) : b64_scale (- q) = b64_scale q.
Proof.
  unfold b64_scale. do 2 f_equal.
  destruct (Qeq_dec q 0) as [H0|H0].
  - (* both absolute values are zero: the same term up to [==], and
       [floor_log2] only looks at the value *)
    unfold floor_log2. destruct q as [n d]. unfold Qeq in H0. simpl in H0.
    assert (n = 0%Z) as -> by lia. reflexivity.
  - apply floor_log2_proper; [apply Qabs_pos_nonzero; lra|by rewrite Qabs_opp].
Qed.

Lemma b64_opp (q : Q) : (b64 (- q) == - b64 q)%Q.
Proof.
  destruct (Qeq_dec q 0) as [H0|H0].
  - rewrite !b64_zero; [lra|done|lra].
  - rewrite (b64_nonzero q H0), (b64_nonzero (- q)) by lra.
    rewrite b64_scale_opp.
    assert (- q / pow2 (b64_scale q) == - (q / pow2 (b64_scale q)))%Q as Hq.
    { field. apply pow2_nonzero. }
    rewrite (np_round_proper _ _ Hq), np_round_opp, inject_Z_opp. ring.
Qed.

(** A number with at most 53 significant bits above the least exponent is
    left as it is. *)
Lemma b64_exact (z t : Z) :
  (Z.abs z < 2 ^ 53)%Z → (-1074 ≤ t)%Z →
  (b64 (inject_Z z * pow2 t) == inject_Z z * pow2 t)%Q.
Proof.
  intros Hz Ht. set (q := (inject_Z z * pow2 t)%Q).
  pose proof (pow2_pos t) as Hpt.
  destruct (Z.eq_dec z 0%Z) as [->|Hz0].
  { rewrite b64_zero; subst q; ring. }
  assert (¬ (q == 0)%Q) as H0.
  { subst q. intros H. apply Qmult_integral in H as [H|H]; [|lra].
    apply Hz0. unfold Qeq in H. simpl in H. lia. }
  rewrite (b64_nonzero q H0).
  assert (Qabs q == inject_Z (Z.abs z) * pow2 t)%Q as Habs.
  { subst q. rewrite Qabs_Qmult, (Qabs_pos (pow2 t)) by lra.
    apply Qmult_comp; [|done]. unfold Qabs, inject_Z. simpl. reflexivity. }
  assert (b64_scale q ≤ t)%Z as Hs.
  { unfold b64_scale. apply Z.max_lub; [|done].
    assert (floor_log2 (Qabs q) < 53 + t)%Z; [|lia].
    apply floor_log2_lt; [by apply Qabs_pos_nonzero|].
    rewrite Habs, pow2_plus. apply Qmult_lt_r; [done|].
    rewrite pow2_Z by lia. by rewrite <- Zlt_Qlt. }
  set (s := b64_scale q) in *.
  assert (q / pow2 s == inject_Z (z * 2 ^ (t - s)))%Q as Hq.
  { subst q. rewrite inject_Z_mult, <- pow2_Z by lia. rewrite pow2_minus.
    field. apply pow2_nonzero. }
  rewrite (np_round_Z _ _ Hq), inject_Z_mult, <- pow2_Z by lia.
  rewrite pow2_minus. subst q. field. apply pow2_nonzero.
Qed.

Lemma b64_exact_Z (z : Z) : (Z.abs z ≤ 2 ^ 53)%Z → (b64 (inject_Z z) == inject_Z z)%Q.
Proof.
  intros Hz. destruct (Z.eq_dec (Z.abs z) (2 ^ 53)%Z) as [Heq|Hne].
  - assert (z = 2 ^ 53 ∨ z = - 2 ^ 53)%Z as [-> | ->] by lia; by vm_compute.
  - assert (inject_Z z == inject_Z z * pow2 0)%Q as Hq by (rewrite pow2_0; ring).
    rewrite (b64_proper _ _ Hq), b64_exact by lia. by symmetry.
Qed.


Lemma b64_nonneg (q : Q) : (0 <= q)%Q → (0 <= b64 q)%Q.
Proof.
  intros Hq. destruct (Qeq_dec q 0) as [H0|H0].
  - rewrite b64_zero by done. lra.
  - rewrite (b64_nonzero q H0). pose proof (pow2_pos (b64_scale q)).
    apply Qmult_le_0_compat; [|lra].
    rewrite <- (Zle_Qle 0). rewrite <- (np_round_inject 0).
    apply np_round_mono. change (inject_Z 0) with 0%Q.
    apply Qle_shift_div_l; [done|]. lra.
Qed.

Lemma b64_mono_pos (x y : Q) : (0 < x)%Q → (x <= y)%Q → (b64 x <= b64 y)%Q.
Proof.
  intros Hx Hxy.
  assert (¬ (x == 0)%Q) as Hx0 by lra. assert (¬ (y == 0)%Q) as Hy0 by lra.
  rewrite (b64_nonzero x Hx0), (b64_nonzero y Hy0).
  assert (Qabs x == x)%Q as Hax by (apply Qabs_pos; lra).
  assert (Qabs y == y)%Q as Hay by (apply Qabs_pos; lra).
  assert (floor_log2 (Qabs x) = floor_log2 x) as Hex by (apply floor_log2_proper; lra).
  assert (floor_log2 (Qabs y) = floor_log2 y) as Hey by (apply floor_log2_proper; lra).
  pose proof (floor_log2_mono x y Hx Hxy) as Hmono.
  destruct (floor_log2_spec x Hx) as [Hx1 Hx2].
  destruct (floor_log2_spec y ltac:(lra)) as [Hy1 Hy2].
  unfold b64_scale. rewrite Hex, Hey.
  set (ex := floor_log2 x) in *. set (ey := floor_log2 y) in *.
  set (sx := Z.max (ex - 52) (-1074)). set (sy := Z.max (ey - 52) (-1074)).
  pose proof (pow2_pos sx) as Hpx. pose proof (pow2_pos sy) as Hpy.
  destruct (Z.eq_dec sx sy) as [Heq|Hne].
  - rewrite <- Heq. apply Qmult_le_r; [done|]. rewrite <- Zle_Qle.
    apply np_round_mono. apply Qmult_le_r; [by apply Qinv_lt_0_compat|done].
  - assert (sx < sy)%Z as Hlt by lia.
    assert (sy = ey - 52)%Z as Hsy by lia.
    assert (ex + 1 ≤ ey)%Z as Hee by lia.
    apply Qle_trans with (pow2 ey).
    + (* below the first number of [y]'s binade *)
      assert (x / pow2 sx <= inject_Z (2 ^ (ey - sx)))%Q as Hb.
      { rewrite <- pow2_Z by lia. rewrite pow2_minus.
        apply Qmult_le_r; [by apply Qinv_lt_0_compat|].
        apply Qle_trans with (pow2 (ex + 1)); [lra|by apply pow2_le]. }
      apply np_round_mono in Hb. rewrite np_round_inject in Hb.
      rewrite Zle_Qle in Hb. rewrite <- pow2_Z in Hb by lia.
      apply (Qmult_le_r _ _ (pow2 sx)) in Hb; [|done].
      rewrite pow2_minus in Hb.
      assert (pow2 ey / pow2 sx * pow2 sx == pow2 ey)%Q as Hc by (field; apply pow2_nonzero).
      lra.
    + assert (inject_Z (2 ^ 52) <= y / pow2 sy)%Q as Hb.
      { apply Qle_shift_div_l; [done|]. rewrite <- pow2_Z by lia.
        rewrite <- pow2_plus. by replace (52 + sy)%Z with ey by lia. }
      apply np_round_mono in Hb. rewrite np_round_inject in Hb.
      rewrite Zle_Qle in Hb. rewrite <- pow2_Z in Hb by lia.
      apply (Qmult_le_r _ _ (pow2 sy)) in Hb; [|done].
      rewrite <- pow2_plus in Hb. by replace (52 + sy)%Z with ey in Hb by lia.
Qed.

Lemma b64_mono (x y : Q) : (x <= y)%Q → (b64 x <= b64 y)%Q.
Proof.
  intros Hxy. destruct (Qlt_le_dec 0 x) as [Hx|Hx].
  - by apply b64_mono_pos.
  - destruct (Qlt_le_dec y 0) as [Hy|Hy].
    + (* both negative *)
      assert (b64 (- y) <= b64 (- x))%Q as H by (apply b64_mono_pos; lra).
      rewrite !b64_opp in H. lra.
    + pose proof (b64_nonneg y Hy). pose proof (b64_nonneg (- x) ltac:(lra)) as H1.
      rewrite b64_opp in H1. lra.
Qed.

(** The rounding error is at most half a unit in the last place. *)
Lemma b64_error (x : Q) (E : Z) :
  (-1022 ≤ E)%Z → (Qabs x <= pow2 E)%Q → (Qabs (b64 x - x) <= pow2 (E - 53))%Q.
Proof.
  intros HE Hx. destruct (Qeq_dec x 0) as [H0|H0].
  { rewrite b64_zero by done. pose proof (pow2_pos (E - 53)) as Hp.
    rewrite Qabs_pos by lra. lra. }
  rewrite (b64_nonzero x H0).
  assert (b64_scale x ≤ E - 52)%Z as Hs.
  { unfold b64_scale. apply Z.max_lub; [|lia].
    pose proof (Qabs_pos_nonzero x H0) as Hpos.
    destruct (floor_log2_spec _ Hpos) as [H1 _].
    assert (floor_log2 (Qabs x) < E + 1)%Z; [|lia].
    apply pow2_lt_inv. apply Qle_lt_trans with (Qabs x); [done|].
    apply Qle_lt_trans with (pow2 E); [done|]. apply pow2_lt. lia. }
  set (s := b64_scale x) in *. pose proof (pow2_pos s) as Hps.
  destruct (np_round_error (x / pow2 s)) as [H1 H2].
  set (m := inject_Z (np_round (x / pow2 s))) in *.
  assert (pow2 s <= 2 * pow2 (E - 53))%Q as Hu.
  { rewrite <- pow2_succ. apply pow2_le. lia. }
  assert (x == x / pow2 s * pow2 s)%Q as Hxs by (field; apply pow2_nonzero).
  assert ((m - (1 # 2)) * pow2 s <= x / pow2 s * pow2 s)%Q as Ha
    by (apply Qmult_le_r; done).
  assert (x / pow2 s * pow2 s <= (m + (1 # 2)) * pow2 s)%Q as Hb
    by (apply Qmult_le_r; done).
  rewrite <- Hxs in Ha, Hb.
  apply Qabs_Qle_condition. split; lra.
Qed.

(** ** The rounded square root *)

Lemma b64_sqrt_unfold (q : Q) :
  (0 < q)%Q →
  b64_sqrt q = (inject_Z (sqrt_digits (q / pow2 (2 * (floor_log2 q `div` 2 - 52))))
                * pow2 (floor_log2 q `div` 2 - 52))%Q.
Proof.
  intros Hq. unfold b64_sqrt.
  destruct (Qle_bool q 0) eqn:E; [apply Qle_bool_iff in E; lra|]. reflexivity.
Qed.

Lemma b64_sqrt_nonpos (q : Q) : (q <= 0)%Q → b64_sqrt q = 0%Q.
Proof. intros Hq. unfold b64_sqrt. apply Qle_bool_iff in Hq. by rewrite Hq. Qed.

Lemma sqrt_digits_proper (r r' : Q) : (r == r')%Q → sqrt_digits r = sqrt_digits r'.
Proof.
  intros H. unfold sqrt_digits.
  assert (Qfloor r = Qfloor r') as <- by (by apply Qfloor_comp).
  set (n := Z.sqrt (Qfloor r)). set (mid := (inject_Z (n * n + n) + (1 # 4))%Q).
  assert (Qltb r mid = Qltb r' mid) as <-.
  { destruct (Qltb r mid) eqn:E1, (Qltb r' mid) eqn:E2; try done;
      [apply Qltb_lt in E1; apply Qltb_ge in E2|apply Qltb_ge in E1; apply Qltb_lt in E2]; lra. }
  assert (Qltb mid r = Qltb mid r') as <-; [|done].
  destruct (Qltb mid r) eqn:E1, (Qltb mid r') eqn:E2; try done;
    [apply Qltb_lt in E1; apply Qltb_ge in E2|apply Qltb_ge in E1; apply Qltb_lt in E2]; lra.
Qed.

Lemma b64_sqrt_proper (q q' : Q) : (q == q')%Q → b64_sqrt q = b64_sqrt q'.
Proof.
  intros H. destruct (Qlt_le_dec 0 q) as [Hq|Hq].
  - rewrite (b64_sqrt_unfold q Hq), (b64_sqrt_unfold q') by lra.
    rewrite (floor_log2_proper q q' Hq H). f_equal. f_equal.
    apply sqrt_digits_proper. by rewrite H.
  - rewrite !b64_sqrt_nonpos; [done|lra|done].
Qed.

Lemma sqrt_digits_bounds (r : Q) :
  (0 <= r)%Q → (Z.sqrt (Qfloor r) ≤ sqrt_digits r ≤ Z.sqrt (Qfloor r) + 1)%Z.
Proof.
  intros Hr. unfold sqrt_digits.
  destruct (Qltb _ _); [lia|]. destruct (Qltb _ _); [lia|]. destruct (Z.even _); lia.
Qed.

Lemma sqrt_digits_mono (r r' : Q) :
  (0 <= r)%Q → (r <= r')%Q → (sqrt_digits r ≤ sqrt_digits r')%Z.
Proof.
  intros Hr Hle.
  assert (Z.sqrt (Qfloor r) ≤ Z.sqrt (Qfloor r'))%Z as Hn.
  { apply Z.sqrt_le_mono. by apply Qfloor_resp_le. }
  pose proof (sqrt_digits_bounds r Hr) as Hb. pose proof (sqrt_digits_bounds r' ltac:(lra)) as Hb'.
  destruct (Z.eq_dec (Z.sqrt (Qfloor r)) (Z.sqrt (Qfloor r'))) as [Heq|Hne]; [|lia].
  unfold sqrt_digits. rewrite <- Heq.
  set (n := Z.sqrt (Qfloor r)). set (mid := (inject_Z (n * n + n) + (1 # 4))%Q).
  destruct (Qltb r mid) eqn:E1.
  { destruct (Qltb r' mid); [lia|]. destruct (Qltb mid r'); [lia|]. destruct (Z.even n); lia. }
  apply Qltb_ge in E1.
  assert (Qltb r' mid = false) as -> by (apply Qltb_ge; lra).
  destruct (Qltb mid r) eqn:E2.
  { apply Qltb_lt in E2. assert (Qltb mid r' = true) as -> by (apply Qltb_lt; lra). lia. }
  apply Qltb_ge in E2.
  destruct (Qltb mid r'); [destruct (Z.even n); lia|lia].
Qed.

(** The quotient [q / 4^s] carries 53 digits of the root. *)
Lemma sqrt_arg_bounds (q : Q) :
  (0 < q)%Q →
  let r := (q / pow2 (2 * (floor_log2 q `div` 2 - 52)))%Q in
  (inject_Z (2 ^ 104) <= r)%Q ∧ (r < inject_Z (2 ^ 106))%Q.
Proof.
  intros Hq r. destruct (floor_log2_spec q Hq) as [H1 H2].
  set (e := floor_log2 q) in *. set (s := (e `div` 2 - 52)%Z) in *.
  pose proof (Z.div_mod e 2 ltac:(lia)) as Hdm.
  pose proof (Z.mod_pos_bound e 2 ltac:(lia)) as Hmod.
  pose proof (pow2_pos (2 * s)) as Hp.
  rewrite <- !pow2_Z by lia. subst r. split.
  - apply Qle_shift_div_l; [done|]. rewrite <- pow2_plus.
    apply Qle_trans with (pow2 e); [|done]. apply pow2_le. lia.
  - apply Qlt_shift_div_r; [done|]. rewrite <- pow2_plus.
    apply Qlt_le_trans with (pow2 (e + 1)); [done|]. apply pow2_le. lia.
Qed.

Lemma sqrt_digits_range (r : Q) :
  (inject_Z (2 ^ 104) <= r)%Q → (r < inject_Z (2 ^ 106))%Q →
  (2 ^ 52 ≤ sqrt_digits r ≤ 2 ^ 53)%Z.
Proof.
  intros H1 H2.
  assert (0 <= r)%Q as Hr. { apply Qle_trans with (inject_Z (2 ^ 104)); [by vm_compute|done]. }
  pose proof (sqrt_digits_bounds r Hr) as Hb.
  assert (2 ^ 104 ≤ Qfloor r)%Z as Hf1.
  { rewrite <- (Qfloor_inject_Z (2 ^ 104)). by apply Qfloor_resp_le. }
  assert (Qfloor r < 2 ^ 106)%Z as Hf2.
  { rewrite Zlt_Qlt. apply Qle_lt_trans with r; [apply Qfloor_le|done]. }
  assert (2 ^ 52 ≤ Z.sqrt (Qfloor r))%Z.
  { change (2 ^ 52)%Z with (Z.sqrt (2 ^ 104)). by apply Z.sqrt_le_mono. }
  assert (Z.sqrt (Qfloor r) < 2 ^ 53)%Z.
  { apply Z.sqrt_lt_square; [lia|lia|]. change (2 ^ 53 * 2 ^ 53)%Z with (2 ^ 106)%Z. done. }
  lia.
Qed.

Lemma b64_sqrt_pos (q : Q) : (0 < q)%Q → (0 < b64_sqrt q)%Q.
Proof.
  intros Hq. rewrite (b64_sqrt_unfold q Hq).
  destruct (sqrt_arg_bounds q Hq) as [H1 H2].
  pose proof (sqrt_digits_range _ H1 H2) as [Hd _].
  apply Qmult_lt_0_compat; [|apply pow2_pos].
  rewrite <- (Zlt_Qlt 0). lia.
Qed.

Lemma b64_sqrt_nonneg (q : Q) : (0 <= b64_sqrt q)%Q.
Proof.
  destruct (Qlt_le_dec 0 q) as [Hq|Hq].
  - apply Qlt_le_weak. by apply b64_sqrt_pos.
  - rewrite b64_sqrt_nonpos by done. lra.
Qed.

Lemma b64_sqrt_mono (x y : Q) : (x <= y)%Q → (b64_sqrt x <= b64_sqrt y)%Q.
Proof.
  intros Hxy. destruct (Qlt_le_dec 0 x) as [Hx|Hx].
  2: { rewrite (b64_sqrt_nonpos x Hx). apply b64_sqrt_nonneg. }
  assert (0 < y)%Q as Hy by lra.
  rewrite (b64_sqrt_unfold x Hx), (b64_sqrt_unfold y Hy).
  destruct (sqrt_arg_bounds x Hx) as [Hx1 Hx2]. destruct (sqrt_arg_bounds y Hy) as [Hy1 Hy2].
  pose proof (sqrt_digits_range _ Hx1 Hx2) as [Hdx1 Hdx2].
  pose proof (sqrt_digits_range _ Hy1 Hy2) as [Hdy1 Hdy2].
  pose proof (floor_log2_mono x y Hx Hxy) as He.
  set (sx := (floor_log2 x `div` 2 - 52)%Z) in *.
  set (sy := (floor_log2 y `div` 2 - 52)%Z) in *.
  assert (sx ≤ sy)%Z as Hs.
  { subst sx sy. pose proof (Z.div_le_mono _ _ 2 ltac:(lia) He). lia. }
  pose proof (pow2_pos sx) as Hpx. pose proof (pow2_pos sy) as Hpy.
  destruct (Z.eq_dec sx sy) as [Heq|Hne].
  - rewrite <- Heq in *. apply Qmult_le_r; [done|]. rewrite <- Zle_Qle.
    apply sqrt_digits_mono.
    + apply Qle_trans with (inject_Z (2 ^ 104)); [by vm_compute|done].
    + apply Qmult_le_r; [apply Qinv_lt_0_compat, pow2_pos|done].
  - apply Qle_trans with (pow2 (sx + 53)).
    + rewrite pow2_plus, (Qmult_comm (pow2 sx)). apply Qmult_le_r; [done|].
      rewrite (pow2_Z 53) by lia. by rewrite <- Zle_Qle.
    + apply Qle_trans with (pow2 (52 + sy)); [apply pow2_le; lia|].
      rewrite pow2_plus. apply Qmult_le_r; [done|].
      rewrite (pow2_Z 52) by lia. by rewrite <- Zle_Qle.
Qed.

(** ** The extremes of a window *)

Lemma foldl_max_spec (l : list Q) (x : Q) :
  let M := foldl (λ m y, if Qltb m y then y else m) x l in
  M ∈ x :: l ∧ ∀ y, y ∈ x :: l → (y <= M)%Q.
Proof.
  revert x. induction l as [|z l IH]; intros x; simpl.
  - split; [left|]. intros y ->%list_elem_of_singleton. apply Qle_refl.
  - destruct (Qltb x z) eqn:Hxz.
    + destruct (IH z) as [Hin Hle]. split; [by right|].
      intros y [->|Hy]%elem_of_cons; [|by apply Hle].
      apply Qltb_lt in Hxz. eapply Qle_trans; [apply Qlt_le_weak, Hxz|]. apply Hle. left.
    + destruct (IH x) as [Hin Hle]. split.
      { apply elem_of_cons in Hin as [->|Hin]; [left|right; by right]. }
      intros y [->|[->|Hy]%elem_of_cons]%elem_of_cons.
      * apply Hle. left.
      * apply Qltb_ge in Hxz. eapply Qle_trans; [apply Hxz|]. apply Hle. left.
      * apply Hle. by right.
Qed.

Lemma foldl_min_spec (l : list Q) (x : Q) :
  let m := foldl (λ m y, if Qltb y m then y else m) x l in
  m ∈ x :: l ∧ ∀ y, y ∈ x :: l → (m <= y)%Q.
Proof.
  revert x. induction l as [|z l IH]; intros x; simpl.
  - split; [left|]. intros y ->%list_elem_of_singleton. apply Qle_refl.
  - destruct (Qltb z x) eqn:Hxz.
    + destruct (IH z) as [Hin Hle]. split; [by right|].
      intros y [->|Hy]%elem_of_cons; [|by apply Hle].
      apply Qltb_lt in Hxz. eapply Qle_trans; [|apply Qlt_le_weak, Hxz]. apply Hle. left.
    + destruct (IH x) as [Hin Hle]. split.
      { apply elem_of_cons in Hin as [->|Hin]; [left|right; by right]. }
      intros y [->|[->|Hy]%elem_of_cons]%elem_of_cons.
      * apply Hle. left.
      * apply Qltb_ge in Hxz. eapply Qle_trans; [|apply Hxz]. apply Hle. left.
      * apply Hle. by right.
Qed.

Lemma py_max_spec (l : list Q) :
  l ≠ [] → ∃ M, py_max l = Ok M ∧ M ∈ l ∧ ∀ y, y ∈ l → (y <= M)%Q.
Proof.
  destruct l as [|x l]; [done|]. intros _. eexists. split; [done|].
  apply foldl_max_spec.
Qed.

Lemma py_min_spec (l : list Q) :
  l ≠ [] → ∃ m, py_min l = Ok m ∧ m ∈ l ∧ ∀ y, y ∈ l → (m <= y)%Q.
Proof.
  destruct l as [|x l]; [done|]. intros _. eexists. split; [done|].
  apply foldl_min_spec.
Qed.

(** ** The shape of the detector's result *)

Lemma events_loop (ranges : list Q) (window_size : Z) (events : list Z) :
  py_for (range (Z.of_nat (length ranges)))
    (λ i events,
       prev ← py_index ranges (Z.of_nat i - 1);
       if Qltb prev (3 # 100) then
         cur ← py_index ranges (Z.of_nat i);
         if Qltb (3 # 100) cur
         then Ok (events ++ [(Z.of_nat i + window_size `div` 2)%Z])
         else Ok events
       else Ok events) events
  = Ok (events ++ boundaries ranges window_size).
Proof.
  unfold boundaries. apply py_for_extend. intros i acc Hi.
  unfold range in Hi. rewrite Nat2Z.id in Hi. apply elem_of_seq in Hi.
  destruct (py_index_total ranges (Z.of_nat i - 1)) as [prev Hprev]; [lia|].
  destruct (py_index_total ranges (Z.of_nat i)) as [cur Hcur]; [lia|].
  unfold boundary_at. rewrite Hprev, Hcur. simpl.
  destruct (Qltb prev (3 # 100)); simpl; [|by rewrite app_nil_r].
  destruct (Qltb (3 # 100) cur); [done|by rewrite app_nil_r].
Qed.

Lemma ranges_loop_body (signal : list Q) (window_size : Z) (i : nat) (ranges : list Q) :
  (let section := py_slice signal (Z.of_nat i) (Z.of_nat i + window_size) in
   hi ← py_max section;
   lo ← py_min section;
   let sig_range := (hi - lo)%Q in
   Ok (ranges ++ [sig_range]))
  = (r ← window_range signal window_size i; Ok (ranges ++ [r])).
Proof.
  unfold window_range. simpl.
  destruct (py_max _); simpl; [|done]. by destruct (py_min _).
Qed.

Lemma transition_detector_intro (signal : list Q) (window_size : Z) (threshold : Q)
    (ranges : list Q) :
  Forall2 (λ i r, window_range signal window_size i = Ok r)
          (range (Z.of_nat (length signal) - window_size + 1)) ranges →
  transition_detector signal window_size threshold
  = Ok ([0%Z] ++ boundaries ranges window_size ++ [Z.of_nat (length signal)], ranges).
Proof.
  intros H. unfold transition_detector.
  erewrite py_for_ext by (intros; apply ranges_loop_body).
  rewrite (py_for_collect _ _ ranges) by done. simpl.
  by rewrite events_loop.
Qed.

Lemma transition_detector_inv (signal : list Q) (window_size : Z) (threshold : Q)
    (events : list Z) (ranges : list Q) :
  transition_detector signal window_size threshold = Ok (events, ranges) →
  Forall2 (λ i r, window_range signal window_size i = Ok r)
          (range (Z.of_nat (length signal) - window_size + 1)) ranges ∧
  events = [0%Z] ++ boundaries ranges window_size ++ [Z.of_nat (length signal)].
Proof.
  unfold transition_detector.
  erewrite py_for_ext by (intros; apply ranges_loop_body).
  destruct (py_for _ _ []) as [rs|e] eqn:Hrs; simpl; [|done].
  apply py_for_collect_inv in Hrs as (ys & -> & Hys). simpl.
  rewrite events_loop. simpl. by intros [= <- <-].
Qed.

(** Every window of positive size that the first loop visits lies inside the
    signal, so its extremes exist. *)
Lemma window_range_total (signal : list Q) (window_size : Z) (i : nat) :
  (1 ≤ window_size)%Z →
  (Z.of_nat i + window_size ≤ Z.of_nat (length signal))%Z →
  ∃ r, window_range signal window_size i = Ok r.
Proof.
  intros Hw Hi. unfold window_range.
  set (section := py_slice _ _ _).
  assert (section ≠ []) as Hne.
  { subst section. replace (Z.of_nat i + window_size)%Z
      with (Z.of_nat (i + Z.to_nat window_size)) by lia.
    rewrite py_slice_nat. intros Heq%(f_equal length).
    rewrite length_take, length_drop in Heq. simpl in Heq. lia. }
  destruct (py_max_spec section Hne) as (M & -> & _).
  destruct (py_min_spec section Hne) as (m & -> & _). simpl. eauto.
Qed.

Lemma transition_detector_total (signal : list Q) (window_size : Z) (threshold : Q) :
  (1 ≤ window_size)%Z →
  ∃ ranges,
    Forall2 (λ i r, window_range signal window_size i = Ok r)
            (range (Z.of_nat (length signal) - window_size + 1)) ranges ∧
    transition_detector signal window_size threshold
    = Ok ([0%Z] ++ boundaries ranges window_size ++ [Z.of_nat (length signal)], ranges).
Proof.
  intros Hw.
  destruct (Forall2_total (λ i r, window_range signal window_size i = Ok r)
              (range (Z.of_nat (length signal) - window_size + 1))) as [ranges H].
  { intros i Hi. unfold range in Hi. apply elem_of_seq in Hi.
    apply window_range_total; lia. }
  exists ranges. split; [done|]. by apply transition_detector_intro.
Qed.



(** The second loop's test at [i = 0] reads [ranges[-1]], the last range. *)
Lemma boundary_at_first (ranges : list Q) (prev cur : Q) :
  last ranges = Some prev → ranges !! 0 = Some cur →
  boundary_at ranges 0 = true ↔ (prev < 3 # 100 ∧ 3 # 100 < cur)%Q.
Proof.
  intros Hprev Hcur. unfold boundary_at.
  change (Z.of_nat 0 - 1)%Z with (-1)%Z.
  rewrite (py_index_last _ _ Hprev), (py_index_nat _ 0 _ Hcur).
  by rewrite andb_true_iff, !Qltb_lt.
Qed.

(** ** The event means *)

(** The span that [extract_event_means] averages for event [i]. *)
Lemma extract_event_means_body (signal : list Q) (events : list Z) (i : nat) (means : list npfloat) :
  (start_idx ← (if Nat.eqb i 0 then Ok 0%Z
                else e ← py_index events (Z.of_nat i); Ok (e + 1)%Z);
   end_idx ← py_index events (Z.of_nat i + 1);
   Ok (means ++ [np_mean (py_slice signal start_idx end_idx)]))
  = (m ← event_mean signal events i; Ok (means ++ [m])).
Proof.
  unfold event_mean. destruct (Nat.eqb i 0); simpl.
  - by destruct (py_index events _).
  - destruct (py_index events (Z.of_nat i)); simpl; [|done].
    by destruct (py_index events _).
Qed.

Lemma event_mean_lookup (signal : list Q) (events : list Z) (i : nat) (e0 e1 : Z) :
  events !! i = Some e0 → events !! S i = Some e1 →
  event_mean signal events i
  = Ok (np_mean (py_slice signal (if Nat.eqb i 0 then 0 else e0 + 1)%Z e1)).
Proof.
  intros H0 H1. unfold event_mean.
  replace (Z.of_nat i + 1)%Z with (Z.of_nat (S i)) by lia.
  rewrite (py_index_nat _ _ _ H1).
  destruct (Nat.eqb i 0); simpl; [done|]. by rewrite (py_index_nat _ _ _ H0).
Qed.

Lemma extract_event_means_spec (signal : list Q) (events : list Z) :
  ∃ means,
    extract_event_means signal events = Ok means ∧
    Forall2 (λ i m, event_mean signal events i = Ok m)
            (seq 0 (length events - 1)) means.
Proof.
  unfold extract_event_means.
  erewrite py_for_ext by (intros; apply extract_event_means_body).
  destruct (Forall2_total (λ i m, event_mean signal events i = Ok m)
              (seq 0 (length events - 1))) as [means H].
  { intros i Hi%elem_of_seq.
    destruct (lookup_lt_is_Some_2 events i) as [e0 He0]; [lia|].
    destruct (lookup_lt_is_Some_2 events (S i)) as [e1 He1]; [lia|].
    rewrite (event_mean_lookup _ _ _ _ _ He0 He1). eauto. }
  exists means. split; [|done].
  unfold range. replace (Z.to_nat (Z.of_nat (length events) - 1)) with (length events - 1) by lia.
  by rewrite (py_for_collect _ _ means).
Qed.

(** ** The segmenter's boundary rule *)




(** C3: the result of [transition_detector], events and ranges alike, is
    the same for any two values of its threshold argument: the argument is
    overwritten by the constant [0.03] before it is read. *)
Theorem C3_threshold_ignored (signal : list Q) (window_size : Z) (t1 t2 : Q) :
  transition_detector signal window_size t1 = transition_detector signal window_size t2.
Proof. reflexivity. Qed.

(** C4 (the code at the failing input): on [[0; 1; 0; 0; 0]] with window
    size 2 the second loop, at window index [i = 0], compares [ranges[0]]
    with [ranges[-1]] (the last range) and emits the boundary [0 + 2 // 2]. *)
Theorem C4_first_window_boundary (threshold : Q) :
  transition_detector [0; 1; 0; 0; 0]%Q 2 threshold
  = Ok ([0; 1; 5]%Z, [1 - 0; 1 - 0; 0 - 0; 0 - 0]%Q) ∧
  boundary_at [1 - 0; 1 - 0; 0 - 0; 0 - 0]%Q 0 = true ∧
  boundaries [1 - 0; 1 - 0; 0 - 0; 0 - 0]%Q 2 = [(Z.of_nat 0 + 2 `div` 2)%Z].
Proof. repeat split; reflexivity. Qed.

(** C10: for some signal the last detected boundary is [len(signal) - 1];
    the span [signal[boundary + 1 : len(signal)]] of the final event is then
    empty and [extract_event_means] yields [nan] for it. *)
Theorem C10_empty_last_span :
  ∃ signal window_size threshold events ranges means,
    transition_detector signal window_size threshold = Ok (events, ranges) ∧
    events !! (length events - 2) = Some (Z.of_nat (length signal) - 1)%Z ∧
    py_slice signal (Z.of_nat (length signal) - 1 + 1) (Z.of_nat (length signal)) = [] ∧
    extract_event_means signal events = Ok means ∧
    last means = Some NaN.
Proof.
  exists [0; 0; 1]%Q, 2%Z, (3 # 100)%Q. eexists _, _, _.
  split; [reflexivity|]. repeat split; reflexivity.
Qed.

(** C5 (amended): for every signal and boundary list, [extract_event_means]
    returns one mean per adjacent boundary pair, the arithmetic mean of
    [signal[start:end]] with [end = events[i+1]] and [start = 0] for the
    first event, [events[i] + 1] for the others; the first span includes
    index 0 whenever it is not empty. *)
Theorem C5_event_spans (signal : list Q) (events : list Z) :
  ∃ means,
    extract_event_means signal events = Ok means ∧
    length means = length events - 1 ∧
    (∀ i e0 e1,
       events !! i = Some e0 → events !! S i = Some e1 →
       means !! i
       = Some (np_mean (py_slice signal (if Nat.eqb i 0 then 0 else e0 + 1)%Z e1))) ∧
    (∀ e1 x,
       events !! 1 = Some e1 → (0 < e1)%Z → signal !! 0 = Some x →
       py_slice signal 0 e1 !! 0 = Some x).
Proof.
  destruct (extract_event_means_spec signal events) as (means & Hm & HF).
  exists means. split; [done|].
  assert (length means = length events - 1) as Hlen.
  { apply Forall2_length in HF. by rewrite length_seq in HF. }
  split; [done|]. split.
  - intros i e0 e1 H0 H1.
    pose proof (lookup_lt_Some _ _ _ H1) as Hlt.
    destruct (lookup_lt_is_Some_2 means i) as [m Hmi]; [lia|].
    rewrite Hmi. f_equal.
    assert (seq 0 (length events - 1) !! i = Some i) as Hsi.
    { apply lookup_seq. lia. }
    pose proof (Forall2_lookup_lr _ _ _ _ _ _ HF Hsi Hmi) as Hev. simpl in Hev.
    rewrite (event_mean_lookup _ _ _ _ _ H0 H1) in Hev. by injection Hev as <-.
  - intros e1 x _ He1 Hx.
    replace e1 with (Z.of_nat (Z.to_nat e1)) by lia.
    rewrite (py_slice_nat signal 0). simpl.
    rewrite lookup_take_lt by lia. done.
Qed.

(** C5 as stated fails: on [[1; 3]] with boundaries [[0; 2]] the first mean
    is [(1 + 3) / 2], over a span that begins at index 0; the mean of the
    span without index 0 is [3]. *)
Lemma C5_counterexample :
  ∃ m m',
    extract_event_means [1; 3]%Q [0; 2]%Z = Ok [Fin m] ∧
    np_mean (py_slice [1; 3]%Q 1 2) = Fin m' ∧
    ¬ (m == m')%Q.
Proof. eexists _, _. split; [reflexivity|]. split; [reflexivity|]. by vm_compute. Qed.

(** ** The policies of the generator *)

Lemma DWELL_lookup (name : string) (f : dwell_policy) :
  DWELL !! name = Some f →
  (name = "fixed" ∧ f = dwell_fixed) ∨ (name = "normal" ∧ f = dwell_normal) ∨
  (name = "gamma" ∧ f = dwell_gamma) ∨ (name = "poisson" ∧ f = dwell_poisson).
Proof.
  unfold DWELL. rewrite !lookup_insert_Some, lookup_singleton_Some.
  intros [[<- <-]|[_ [[<- <-]|[_ [[<- <-]|[_ [<- <-]]]]]]]; tauto.
Qed.

Lemma NOISE_lookup (name : string) (f : noise_policy) :
  NOISE !! name = Some f →
  (name = "clean" ∧ f = noise_clean) ∨ (name = "normal" ∧ f = noise_normal).
Proof.
  unfold NOISE. rewrite !lookup_insert_Some, lookup_singleton_Some.
  intros [[<- <-]|[_ [<- <-]]]; tauto.
Qed.

Lemma CURRENT_LEVELS_lookup (name : string) (f : level_policy) :
  CURRENT_LEVELS !! name = Some f →
  (name = "even_space" ∧ f = even_space) ∨ (name = "random" ∧ f = random_levels) ∨
  (name = "resistor_model" ∧ f = resistor_model).
Proof.
  unfold CURRENT_LEVELS. rewrite !lookup_insert_Some, lookup_singleton_Some.
  intros [[<- <-]|[_ [[<- <-]|[_ [<- <-]]]]]; tauto.
Qed.

Lemma np_round_nonneg (x : Q) : (0 <= x)%Q → (0 ≤ np_round x)%Z.
Proof.
  intros Hx. pose proof (Qfloor_resp_le 0 x Hx) as Hf.
  change (Qfloor 0) with 0%Z in Hf. unfold np_round.
  repeat match goal with |- context [if ?b then _ else _] => destruct b end; lia.
Qed.

Lemma gamma_val_nonneg (v : variate) : (0 <= gamma_val v)%Q.
Proof. unfold gamma_val, Qle. simpl. lia. Qed.

(** The three random policies hand an [int >= 0] to [range], whatever is
    drawn; [fixed] hands over its argument as it is. *)
Lemma dwell_random_nonneg_int (name : string) (f : dwell_policy) (mean_dwell r : pynum) (g g' : rng) :
  DWELL !! name = Some f → name ≠ "fixed" →
  f mean_dwell g = Ok (r, g') → ∃ z, r = PyInt z ∧ (0 ≤ z)%Z.
Proof.
  intros [[-> ->]|[[-> ->]|[[-> ->]|[-> ->]]]]%DWELL_lookup Hne; [done|..].
  - unfold dwell_normal. simpl. intros [= <- <-]. eexists. split; [done|]. lia.
  - unfold dwell_gamma. simpl. destruct (Qltb _ 0) eqn:Hs; [done|].
    intros [= <- <-]. eexists. split; [done|]. apply np_round_nonneg.
    apply Qltb_ge in Hs. apply Qmult_le_0_compat; [done|apply gamma_val_nonneg].
  - unfold dwell_poisson. simpl. destruct (Qltb _ 0) eqn:Hs; [done|].
    intros [= <- <-]. eexists. split; [done|]. destruct (Qeq_bool _ 0); lia.
Qed.

Lemma dwell_fixed_identity (mean_dwell : pynum) (g : rng) :
  DWELL !! "fixed" = Some dwell_fixed ∧ dwell_fixed mean_dwell g = Ok (mean_dwell, g).
Proof. split; reflexivity. Qed.

(** With a mean that is not negative, and an [int] one for [fixed], every
    policy returns an [int] for every draw. *)
Lemma dwell_returns_int (name : string) (f : dwell_policy) (mean_dwell : pynum) (g : rng) :
  DWELL !! name = Some f →
  (0 <= num_val mean_dwell)%Q →
  (name = "fixed" → ∃ z, mean_dwell = PyInt z) →
  ∃ z g', f mean_dwell g = Ok (PyInt z, g').
Proof.
  intros [[-> ->]|[[-> ->]|[[-> ->]|[-> ->]]]]%DWELL_lookup Hm Hfix.
  - destruct Hfix as [z ->]; [done|]. by eexists _, _.
  - by eexists _, _.
  - unfold dwell_gamma. simpl.
    assert (Qltb (num_val mean_dwell / 2) 0 = false) as ->.
    { apply Qltb_ge. apply Qle_shift_div_l; [reflexivity|]. by rewrite Qmult_0_l. }
    by eexists _, _.
  - unfold dwell_poisson. simpl.
    assert (Qltb (num_val mean_dwell) 0 = false) as -> by by apply Qltb_ge.
    by eexists _, _.
Qed.

Lemma draws_length (n : nat) (g : rng) : length (draws n g).1 = n.
Proof.
  revert g. induction n as [|n IH]; intros g; simpl; [done|].
  specialize (IH (λ n, g (S n))). destruct (draws n _). simpl in *. lia.
Qed.

Lemma noise_returns (name : string) (f : noise_policy) (signal : list Q) (amp : Q) (g : rng) :
  NOISE !! name = Some f → (0 <= amp)%Q →
  ∃ noise g', f signal amp g = Ok (noise, g') ∧ length noise = length signal.
Proof.
  intros [[-> ->]|[-> ->]]%NOISE_lookup Hamp.
  - eexists _, _. split; [done|]. by rewrite length_replicate.
  - unfold noise_normal. assert (Qltb amp 0 = false) as -> by by apply Qltb_ge.
    pose proof (draws_length (length signal) g) as Hlen.
    destruct (draws _ g) as [vs g']. eexists _, _. split; [done|].
    by rewrite length_fmap.
Qed.

Lemma noise_empty (name : string) (f : noise_policy) (amp : Q) (g : rng) :
  NOISE !! name = Some f → (0 <= amp)%Q → f [] amp g = Ok ([], g).
Proof.
  intros [[-> ->]|[-> ->]]%NOISE_lookup Hamp; [done|].
  unfold noise_normal. by assert (Qltb amp 0 = false) as -> by by apply Qltb_ge.
Qed.

(** ** Construction *)

Lemma Pore_init_inv (k : Z) (md snr : pynum) (noise dwell levels : string)
    (rnd : nat → Q) (p : Pore) :
  Pore_init k md snr noise dwell levels rnd = Ok p →
  ∃ model,
    NOISE !! noise = Some (signal_noise_process p) ∧
    DWELL !! dwell = Some (dwell_distribution_process p) ∧
    CURRENT_LEVELS !! levels = Some model ∧
    model k rnd = Ok (current_levels p) ∧
    kmer_len p = k ∧ mean_dwell_time p = md ∧
    noise_amplitude p = (1 / num_val snr)%Q.
Proof.
  unfold Pore_init, py_getitem.
  destruct (Qeq_bool _ 0); simpl; [done|].
  destruct (NOISE !! noise) as [fn|]; simpl; [|done].
  destruct (DWELL !! dwell) as [fd|]; simpl; [|done].
  destruct (CURRENT_LEVELS !! levels) as [model|]; simpl; [|done].
  destruct (model k rnd) as [ls|] eqn:Hls; simpl; [|done].
  intros [= <-]. simpl. by exists model.
Qed.

Lemma noise_amplitude_nonneg (snr : pynum) : (0 < num_val snr)%Q → (0 <= 1 / num_val snr)%Q.
Proof.
  intros H. apply Qle_shift_div_l; [done|]. rewrite Qmult_0_l. done.
Qed.

(** C6 (the code at the failing input): for the mean dwell [2.7] the
    [fixed] policy returns [2.7] itself, not the integer [3] that rounding
    gives, and [range] refuses it. *)
Theorem C6_fixed_returns_mean_unrounded (g : rng) :
  ∃ fixed,
    DWELL !! "fixed" = Some fixed ∧
    fixed (PyFloat (27 # 10)) g = Ok (PyFloat (27 # 10), g) ∧
    np_round (27 # 10) = 3%Z ∧
    py_range (PyFloat (27 # 10)) = Raise TypeError.
Proof. exists dwell_fixed. repeat split; reflexivity. Qed.

(** C7 (amended): constructing a [Pore] with an unknown dwell, noise or
    current-level policy name fails at construction time. *)
Theorem C7_unknown_policy_rejected (k : Z) (md snr : pynum)
    (noise dwell levels : string) (rnd : nat → Q) :
  NOISE !! noise = None ∨ DWELL !! dwell = None ∨ CURRENT_LEVELS !! levels = None →
  ∃ e, Pore_init k md snr noise dwell levels rnd = Raise e.
Proof.
  intros H. unfold Pore_init, py_getitem.
  destruct (Qeq_bool _ 0); simpl; [eauto|].
  destruct (NOISE !! noise) as [fn|]; simpl; [|eauto].
  destruct (DWELL !! dwell) as [fd|]; simpl; [|eauto].
  destruct (CURRENT_LEVELS !! levels) as [model|]; simpl; [|eauto].
  by destruct H as [?|[?|?]].
Qed.

(** An unknown dwell policy name, with the other arguments at their defaults. *)
Lemma C7_unknown_policy_rejected_witness :
  ∃ e, Pore_init 5 (PyInt 10) (PyInt 250) "normal" "uniform" "random" (λ _, 1 # 2)%Q
       = Raise e.
Proof.
  apply (C7_unknown_policy_rejected 5 (PyInt 10) (PyInt 250) "normal" "uniform" "random").
  right. left. reflexivity.
Defined.

(** C7 as stated fails: a [Pore] with k-mer length [0] (and the default
    policies) is constructed without any error. *)
Lemma C7_counterexample :
  ∃ p, Pore_init 0 (PyInt 10) (PyInt 250) "normal" "poisson" "random" (λ _, 1 # 2)%Q = Ok p ∧
       kmer_len p = 0%Z ∧ current_levels p = [(1 # 2)%Q].
Proof. eexists. repeat split; reflexivity. Qed.

(** C9: for every sequence shorter than [k], [generate_signal] on a
    constructed [Pore] raises nothing and returns the empty signal with the
    alignment [[0]], also when [len(sequence) < k - 1]. *)
Theorem C9_short_sequence (k : Z) (md snr : pynum) (noise dwell levels : string)
    (rnd : nat → Q) (p : Pore) (dna_sequence : list base) (g : rng) :
  Pore_init k md snr noise dwell levels rnd = Ok p →
  (0 < num_val snr)%Q →
  (Z.of_nat (length dna_sequence) < k)%Z →
  generate_signal p dna_sequence g = Ok ([], [0%Z], g).
Proof.
  intros (model & Hn & _ & _ & _ & Hk & _ & Hamp)%Pore_init_inv Hsnr Hlen.
  unfold generate_signal. rewrite Hk. unfold range.
  replace (Z.to_nat (Z.of_nat (length dna_sequence) - k + 1)) with 0 by lia.
  simpl. rewrite (noise_empty _ _ _ _ Hn); [done|].
  rewrite Hamp. by apply noise_amplitude_nonneg.
Qed.

(** ** K-mer indices and the level table *)

Lemma NUCLEOTIDE_ORDER_bound (b : base) : (0 ≤ NUCLEOTIDE_ORDER b ≤ 3)%Z.
Proof. destruct b; simpl; lia. Qed.

Lemma kmer_index_fold_bound (rest : list base) (a m : Z) :
  (0 ≤ m)%Z → (0 ≤ a < 4 ^ m)%Z →
  (0 ≤ foldl (λ lexical_order k, Z.shiftl lexical_order 2 + NUCLEOTIDE_ORDER k) a rest
     < 4 ^ (m + Z.of_nat (length rest)))%Z.
Proof.
  revert a m. induction rest as [|b rest IH]; intros a m Hm Ha; simpl.
  - by rewrite Z.add_0_r.
  - replace (m + Z.of_nat (S (length rest)))%Z with ((m + 1) + Z.of_nat (length rest))%Z by lia.
    apply IH; [lia|]. rewrite Z.shiftl_mul_pow2 by lia.
    pose proof (NUCLEOTIDE_ORDER_bound b).
    rewrite Z.pow_add_r by lia. change (2 ^ 2)%Z with 4%Z. change (4 ^ 1)%Z with 4%Z. lia.
Qed.

Lemma kmer_index_bound (kmer : list base) :
  kmer ≠ [] →
  ∃ idx, _kmer_index kmer = Ok idx ∧ (0 ≤ idx < 4 ^ Z.of_nat (length kmer))%Z.
Proof.
  destruct kmer as [|b rest]; [done|]. intros _. eexists. split; [done|].
  replace (Z.of_nat (length (b :: rest))) with (1 + Z.of_nat (length rest))%Z
    by (simpl; lia).
  apply kmer_index_fold_bound; [lia|]. pose proof (NUCLEOTIDE_ORDER_bound b).
  change (4 ^ 1)%Z with 4%Z. lia.
Qed.



(** Every model yields [4 ** k] levels for a positive [k]. *)
Lemma levels_length (name : string) (model : level_policy) (k : Z) (rnd : nat → Q)
    (levels : list Q) :
  (1 ≤ k)%Z → CURRENT_LEVELS !! name = Some model → model k rnd = Ok levels →
  length levels = Z.to_nat (4 ^ k).
Proof.
  intros Hk [[-> ->]|[[-> ->]|[-> ->]]]%CURRENT_LEVELS_lookup.
  - unfold even_space, alphabet_pow.
    destruct (Z.ltb_spec k 0); [lia|]. simpl. intros [= <-].
    rewrite length_fmap, length_seq. f_equal.
    assert (0 < 4 ^ k)%Z as Hpos by (apply Z.pow_pos_nonneg; lia).
    assert ((1 - 0) / (1 / inject_Z (4 ^ k)) == inject_Z (4 ^ k))%Q as ->.
    { field. unfold Qeq. simpl. lia. }
    apply Qceiling_Z.
  - unfold random_levels, alphabet_pow.
    destruct (Z.ltb_spec k 0); [lia|]. simpl. intros [= <-].
    unfold range. by rewrite length_fmap, length_seq.
  - unfold resistor_model, alphabet_pow.
    destruct (Z.ltb_spec k 0); [lia|]. simpl.
    intros (ys & -> & HF)%py_for_collect_inv. apply Forall2_length in HF.
    unfold range in HF. rewrite length_seq in HF. done.
Qed.

(** ** The simulator's loop *)

Lemma py_slice_window (A : Type) (l : list A) (i : nat) (k : Z) :
  (0 ≤ k)%Z →
  py_slice l (Z.of_nat i) (Z.of_nat i + k) = take (Z.to_nat k) (drop i l).
Proof.
  intros Hk. replace (Z.of_nat i + k)%Z with (Z.of_nat (i + Z.to_nat k)) by lia.
  rewrite py_slice_nat. f_equal. lia.
Qed.

Lemma squiggle_level_total (self : Pore) (dna_sequence : list base) (i : nat) :
  (1 ≤ kmer_len self)%Z →
  length (current_levels self) = Z.to_nat (4 ^ kmer_len self) →
  (Z.of_nat i + kmer_len self ≤ Z.of_nat (length dna_sequence))%Z →
  ∃ level, squiggle_level self dna_sequence i = Ok level.
Proof.
  intros Hk Hlen Hi. unfold squiggle_level.
  set (kmer := py_slice _ _ _).
  assert (length kmer = Z.to_nat (kmer_len self)) as Hkmer.
  { subst kmer. rewrite py_slice_window by lia. rewrite length_take, length_drop. lia. }
  destruct (kmer_index_bound kmer) as (idx & -> & Hidx).
  { intros Heq. rewrite Heq in Hkmer. simpl in Hkmer. lia. }
  simpl. apply py_index_total. rewrite Hkmer, Z2Nat.id in Hidx by lia.
  rewrite Hlen. lia.
Qed.

Lemma generate_signal_unfold (self : Pore) (dna_sequence : list base) (g : rng) :
  generate_signal self dna_sequence g
  = ('(signal, alignment, g) ←
       py_for (range (Z.of_nat (length dna_sequence) - kmer_len self + 1))
         (generate_step self dna_sequence) ([], [0%Z], g);
     '(noise, g) ← signal_noise_process self signal (noise_amplitude self) g;
     Ok (zip_with Qplus signal noise, alignment, g)).
Proof. reflexivity. Qed.

Lemma emit_loop (levels : list Q) (kmer_index : Z) (level : Q) (steps : list nat)
    (signal : list Q) :
  py_index levels kmer_index = Ok level →
  py_for steps (λ _ signal, level ← py_index levels kmer_index; Ok (signal ++ [level])) signal
  = Ok (signal ++ replicate (length steps) level).
Proof.
  intros H. apply (py_for_collect (λ _, py_index levels kmer_index)).
  induction steps; simpl; by constructor.
Qed.

Lemma generate_step_ok (self : Pore) (dna_sequence : list base) (i : nat)
    (signal : list Q) (alignment : list Z) (g g' : rng) (level : Q) (z : Z) :
  squiggle_level self dna_sequence i = Ok level →
  dwell_distribution_process self (mean_dwell_time self) g = Ok (PyInt z, g') →
  generate_step self dna_sequence i (signal, alignment, g)
  = Ok (signal ++ replicate (Z.to_nat z) level,
        alignment ++ [Z.max 0 (Z.of_nat (length (signal ++ replicate (Z.to_nat z) level)) - 1)],
        g').
Proof.
  unfold squiggle_level, generate_step. intros Hlevel Hdwell.
  destruct (_kmer_index _) as [idx|]; simpl in *; [|done].
  rewrite Hdwell. simpl. rewrite (emit_loop _ _ level) by done. simpl.
  unfold range. by rewrite length_seq.
Qed.

(** C8 (the code at the failing inputs): on a pore constructed with the
    [fixed] dwell policy and a [float] mean dwell, for every sequence of
    length [L >= k >= 1] and every state of the random generator,
    [generate_signal] raises [TypeError] at the first [range(dwell_time)]:
    no alignment is returned. *)
Theorem C8_fixed_float_dwell_no_alignment (k : Z) (q : Q) (snr : pynum)
    (noise levels : string) (rnd : nat → Q) (p : Pore) (dna_sequence : list base) (g : rng) :
  Pore_init k (PyFloat q) snr noise "fixed" levels rnd = Ok p →
  (1 ≤ k ≤ Z.of_nat (length dna_sequence))%Z →
  generate_signal p dna_sequence g = Raise TypeError.
Proof.
  intros (model & _ & Hd & _ & _ & Hk & Hmd & _)%Pore_init_inv [Hk1 HkL].
  assert (dwell_distribution_process p = dwell_fixed) as Hdwell.
  { by apply DWELL_lookup in Hd as [[_ ?]|[[? _]|[[? _]|[? _]]]]. }
  rewrite generate_signal_unfold, Hk. unfold range.
  replace (Z.to_nat (Z.of_nat (length dna_sequence) - k + 1))
    with (S (length dna_sequence - Z.to_nat k)) by lia.
  cbn [seq py_for]. unfold generate_step. rewrite Hk.
  set (kmer := py_slice _ _ _).
  destruct (kmer_index_bound kmer) as (idx & -> & _).
  { subst kmer. rewrite (py_slice_window _ _ 0) by lia.
    intros Hnil%(f_equal length). rewrite length_take, length_drop in Hnil.
    simpl in Hnil. lia. }
  by rewrite Hdwell, Hmd.
Qed.

(** A pore with the [fixed] policy and the mean dwell [2.7] is constructed,
    and its first [range(dwell_time)] raises. *)
Lemma C8_fixed_float_dwell_no_alignment_witness :
  ∃ p,
    Pore_init 2 (PyFloat (27 # 10)) (PyInt 250) "clean" "fixed" "even_space" (λ _, 0%Q) = Ok p ∧
    generate_signal p [bA; bC] quiet = Raise TypeError.
Proof.
  eexists. split; [reflexivity|].
  apply (C8_fixed_float_dwell_no_alignment 2 (27 # 10) (PyInt 250) "clean" "even_space"
           (λ _, 0%Q)).
  - reflexivity.
  - simpl. lia.
Defined.


(** ** A noiseless signal with a fixed dwell: blocks of equal samples *)

Lemma bind_none {A B : Type} (h : A → list B) (l : list A) :
  (∀ x, x ∈ l → h x = []) → l ≫= h = [].
Proof.
  induction l as [|x l IH]; intros H; [done|].
  rewrite bind_cons, H by left. simpl. apply IH. intros y Hy. apply H. by right.
Qed.


Lemma blocks_length (ls : list Q) (D : nat) :
  length (ls ≫= replicate D) = length ls * D.
Proof.
  induction ls as [|x l IH]; [done|].
  rewrite bind_cons, length_app, length_replicate, IH. simpl. lia.
Qed.

Lemma blocks_lookup (ls : list Q) (D p : nat) :
  0 < D → (ls ≫= replicate D) !! p = ls !! (p / D).
Proof.
  intros HD. revert p. induction ls as [|x l IH]; intros p; [done|].
  rewrite bind_cons. destruct (decide (p < D)) as [Hp|Hp].
  - rewrite lookup_app_l by (rewrite length_replicate; lia).
    rewrite Nat.div_small by done. by rewrite lookup_replicate_2.
  - rewrite lookup_app_r by (rewrite length_replicate; lia).
    rewrite length_replicate, IH.
    replace (p / D) with (S ((p - D) / D)); [done|].
    replace p with ((p - D) + 1 * D) at 2 by lia.
    rewrite Nat.div_add by lia. lia.
Qed.













(** ** Sums of equal samples *)


Section equal_samples.
Variables (x : Q) (z t : Z).
Hypothesis Hx : (x == inject_Z z * pow2 t)%Q.
Hypothesis Ht : (-1074 ≤ t)%Z.







End equal_samples.

(** ** Levels on a grid *)






(** ** The means of the events of a block signal *)






(** ** Nearest-level decoding *)





(** ** The k-mer table: index and label agree *)

Lemma product_S (K : nat) :
  product (S K)
  = ((bA ::.) <$> product K) ++ ((bC ::.) <$> product K)
    ++ ((bG ::.) <$> product K) ++ ((bT ::.) <$> product K).
Proof.
  change (product (S K)) with (ALPHABET ≫= λ b, (b ::.) <$> product K).
  unfold ALPHABET. rewrite !bind_cons. by rewrite app_nil_r.
Qed.

Lemma product_length (K : nat) : Z.of_nat (length (product K)) = (4 ^ Z.of_nat K)%Z.
Proof.
  induction K as [|K IH]; [done|].
  rewrite product_S, !length_app, !length_fmap, Nat2Z.inj_succ, Z.pow_succ_r by lia.
  lia.
Qed.

Lemma kmer_fold_shift (rest : list base) (a : Z) :
  foldl (λ lexical_order k, Z.shiftl lexical_order 2 + NUCLEOTIDE_ORDER k)%Z a rest
  = (a * 4 ^ Z.of_nat (length rest)
     + foldl (λ lexical_order k, Z.shiftl lexical_order 2 + NUCLEOTIDE_ORDER k)%Z 0 rest)%Z.
Proof.
  revert a. induction rest as [|b rest IH]; intros a.
  - simpl. lia.
  - simpl foldl. change (Z.shiftl 0 2) with 0%Z. rewrite Z.add_0_l.
    rewrite (IH (Z.shiftl a 2 + _)%Z), (IH (NUCLEOTIDE_ORDER b)).
    rewrite Z.shiftl_mul_pow2 by lia. change (2 ^ 2)%Z with 4%Z.
    simpl length. rewrite Nat2Z.inj_succ, Z.pow_succ_r by lia. lia.
Qed.

Lemma product_lookup (kmer : list base) :
  product (length kmer)
    !! Z.to_nat (foldl (λ lexical_order k, Z.shiftl lexical_order 2 + NUCLEOTIDE_ORDER k)%Z
                       0%Z kmer)
  = Some kmer.
Proof.
  induction kmer as [|b rest IH]; [done|].
  simpl foldl. change (Z.shiftl 0 2) with 0%Z. rewrite Z.add_0_l, kmer_fold_shift.
  set (r := foldl _ 0%Z rest) in *.
  pose proof (kmer_index_fold_bound rest 0 0 ltac:(lia) ltac:(lia)) as Hr.
  fold r in Hr. rewrite Z.add_0_l in Hr.
  pose proof (product_length (length rest)) as HP. rewrite <- HP in *.
  simpl length. rewrite product_S.
  destruct b; simpl NUCLEOTIDE_ORDER.
  - replace (Z.to_nat _) with (Z.to_nat r) by lia.
    rewrite lookup_app_l by (rewrite length_fmap; lia).
    by rewrite list_lookup_fmap, IH.
  - replace (Z.to_nat _) with (length (product (length rest)) + Z.to_nat r) by lia.
    rewrite lookup_app_r by (rewrite length_fmap; lia).
    rewrite lookup_app_l by (rewrite !length_fmap; lia).
    rewrite length_fmap, list_lookup_fmap.
    replace (_ + _ - _) with (Z.to_nat r) by lia. by rewrite IH.
  - replace (Z.to_nat _) with (2 * length (product (length rest)) + Z.to_nat r) by lia.
    do 2 rewrite lookup_app_r by (rewrite !length_fmap; lia).
    rewrite lookup_app_l by (rewrite !length_fmap; lia).
    rewrite !length_fmap, list_lookup_fmap.
    replace (_ - _ - _) with (Z.to_nat r) by lia. by rewrite IH.
  - replace (Z.to_nat _) with (3 * length (product (length rest)) + Z.to_nat r) by lia.
    do 3 rewrite lookup_app_r by (rewrite !length_fmap; lia).
    rewrite !length_fmap, list_lookup_fmap.
    replace (_ - _ - _ - _) with (Z.to_nat r) by lia. by rewrite IH.
Qed.


(** ** The squiggle of a clean, fixed-dwell pore *)


(** ** The edit distance to a prefix *)

Lemma editDistance_cons_cons (x y : base) (query target : list base) :
  editDistance (x :: query) (y :: target)
  = Nat.min (Nat.min (S (editDistance query (y :: target)))
                     (S (editDistance (x :: query) target)))
            ((if decide (x = y) then 0 else 1) + editDistance query target).
Proof. reflexivity. Qed.

Lemma editDistance_nil_r (query : list base) : editDistance query [] = length query.
Proof. by destruct query. Qed.

Lemma editDistance_lower (query target : list base) :
  length target ≤ editDistance query target + length query.
Proof.
  revert target. induction query as [|x query IHq]; intros target.
  - simpl. lia.
  - induction target as [|y target IHt].
    + rewrite editDistance_nil_r. simpl. lia.
    + rewrite editDistance_cons_cons.
      pose proof (IHq (y :: target)). pose proof (IHq target).
      simpl length in *. lia.
Qed.

Lemma editDistance_prefix_upper (n : nat) (s : list base) :
  editDistance (take n s) s ≤ length s - n.
Proof.
  revert n. induction s as [|x s IH]; intros n.
  - by rewrite take_nil.
  - destruct n as [|n]; [simpl; lia|].
    change (take (S n) (x :: s)) with (x :: take n s).
    rewrite editDistance_cons_cons, decide_True by done.
    specialize (IH n). simpl length. lia.
Qed.

Lemma editDistance_prefix (n : nat) (s : list base) :
  n ≤ length s → editDistance (take n s) s = length s - n.
Proof.
  intros Hn. pose proof (editDistance_prefix_upper n s).
  pose proof (editDistance_lower (take n s) s) as Hl.
  rewrite length_take in Hl. lia.
Qed.

Lemma editDistance_same (s : list base) : editDistance s s = 0.
Proof.
  pose proof (editDistance_prefix (length s) s ltac:(lia)) as H.
  rewrite take_ge in H by lia. lia.
Qed.


Lemma result_bind_ok {A B : Type} (f : A → result B) (a : A) : (Ok a ≫= f) = f a.
Proof. reflexivity. Qed.

(** ** End to end *)




(** The side conditions of the amended C1 are needed, also for [k = 1]. *)

(** Two equal consecutive k-mers give one event. *)
Example repeated_kmer_merges :
  ∃ p signal alignment table,
    Pore_init 1 (PyInt 3) (PyInt 250) "clean" "fixed" "even_space" (λ _, 0%Q) = Ok p ∧
    generate_signal p [bA; bA] quiet = Ok (signal, alignment, quiet) ∧
    kmer_table p = Ok table ∧
    basecall table signal 3 (3 # 100) = Ok [bA].
Proof.
  eexists _, _, _, _. split; [reflexivity|]. split; [reflexivity|].
  split; [reflexivity|]. by vm_compute.
Qed.

(** With window size 5 the mean of the second event takes in a sample of
    the first block, and the nearest level is the wrong one. *)
Example wide_window_misdecodes :
  ∃ p signal alignment table,
    Pore_init 1 (PyInt 5) (PyInt 250) "clean" "fixed" "even_space" (λ _, 0%Q) = Ok p ∧
    generate_signal p [bA; bT] quiet = Ok (signal, alignment, quiet) ∧
    kmer_table p = Ok table ∧
    basecall table signal 5 (3 # 100) = Ok [bA; bG].
Proof.
  eexists _, _, _, _. split; [reflexivity|]. split; [reflexivity|].
  split; [reflexivity|]. by vm_compute.
Qed.

(** Levels closer than the constant [0.03] are not told apart. *)
Example close_levels_merge :
  ∃ p signal alignment table,
    Pore_init 3 (PyInt 3) (PyInt 250) "clean" "fixed" "even_space" (λ _, 0%Q) = Ok p ∧
    levels_distinct (current_levels p) = true ∧
    generate_signal p [bA; bA; bA; bC] quiet = Ok (signal, alignment, quiet) ∧
    kmer_table p = Ok table ∧
    basecall table signal 3 (3 # 100) = Ok [bA].
Proof.
  eexists _, _, _, _. split; [reflexivity|]. split; [by vm_compute|].
  split; [reflexivity|]. split; [reflexivity|]. by vm_compute.
Qed.

(** Off the grid the mean of equal samples need not be the sample: three
    samples [0x1.aaaaaaaaaaaaap-1] have the mean [0x1.aaaaaaaaaaaabp-1].
    With that float as the level of C, the sequence AG is decoded as AC. *)
Example rounded_mean_misdecodes :
  let g := (3752999689475413 # 4503599627370496)%Q in
  let c := (7505999378950827 # 9007199254740992)%Q in
  let rnd := λ i : nat, match i with 0 => 0%Q | 1 => c | 2 => g | _ => (1 # 2)%Q end in
  ∃ p signal alignment table,
    Pore_init 1 (PyInt 3) (PyInt 250) "clean" "fixed" "random" rnd = Ok p ∧
    levels_distinct (current_levels p) = true ∧
    np_mean [g; g; g] = Fin c ∧
    generate_signal p [bA; bG] quiet = Ok (signal, alignment, quiet) ∧
    kmer_table p = Ok table ∧
    basecall table signal 3 (3 # 100) = Ok [bA; bC].
Proof.
  eexists _, _, _, _. split; [reflexivity|]. split; [by vm_compute|].
  split; [by vm_compute|]. split; [reflexivity|]. split; [reflexivity|]. by vm_compute.
Qed.


(** A one-symbol sequence on a pore with [k = 2]. *)
Lemma C9_short_sequence_witness :
  ∃ p,
    Pore_init 2 (PyInt 3) (PyInt 250) "normal" "poisson" "even_space" (λ _, 0%Q) = Ok p ∧
    generate_signal p [bA] quiet = Ok ([], [0%Z], quiet).
Proof.
  eexists. split; [reflexivity|].
  apply (C9_short_sequence 2 (PyInt 3) (PyInt 250) "normal" "poisson" "even_space" (λ _, 0%Q)).
  - reflexivity.
  - reflexivity.
  - simpl. lia.
Defined.

(** * Further properties of the code *)

(** ** The segmenter: shape of the events *)

Lemma bind_filter_fmap {A B : Type} (P : A → bool) (f : A → B) (l : list A) :
  l ≫= (λ x, if P x then [f x] else []) = f <$> filter (λ x, P x = true) l.
Proof.
  induction l as [|x l IH]; [done|].
  rewrite bind_cons, filter_cons, IH. destruct (P x); by case_decide.
Qed.

Lemma boundaries_emission (ranges : list Q) (window_size : Z) :
  boundaries ranges window_size
  = (λ i, (Z.of_nat i + window_size `div` 2)%Z) <$> emission_indices ranges.
Proof.
  unfold boundaries, emission_indices, range. rewrite Nat2Z.id.
  apply bind_filter_fmap.
Qed.

(** A boundary at window [i] needs [ranges[i]] above the constant, one at
    [i + 1] needs it below: two neighbouring windows never both fire. *)
Lemma boundary_at_not_adjacent (ranges : list Q) (i : nat) :
  boundary_at ranges i = true → boundary_at ranges (S i) = true → False.
Proof.
  unfold boundary_at. replace (Z.of_nat (S i) - 1)%Z with (Z.of_nat i) by lia.
  destruct (py_index ranges (Z.of_nat i - 1)) as [p0|]; [|done].
  destruct (py_index ranges (Z.of_nat i)) as [c0|]; [|done].
  destruct (py_index ranges (Z.of_nat (S i))) as [c1|]; [|done].
  rewrite !andb_true_iff, !Qltb_lt. intros [_ H1] [H2 _]. lra.
Qed.

Lemma filter_seq_gap (P : nat → Prop) `{!∀ x, Decision (P x)} (a n : nat) :
  (∀ i, P i → P (S i) → False) →
  StronglySorted (λ x y, x + 2 ≤ y) (filter P (seq a n)) ∧
  Forall (λ x, a ≤ x < a + n ∧ P x) (filter P (seq a n)).
Proof.
  intros Hadj. revert a. induction n as [|n IH]; intros a.
  - split; constructor.
  - destruct (IH (S a)) as [Hs Hf]. simpl seq. rewrite filter_cons.
    case_decide as Ha.
    + split.
      * constructor; [done|]. eapply Forall_impl; [exact Hf|].
        intros y [Hy HPy]. simpl. destruct (decide (y = S a)) as [-> | ]; [|lia].
        destruct (Hadj a Ha HPy).
      * constructor; [split; [lia|done]|].
        eapply Forall_impl; [exact Hf|]. intros y [? ?]. split; [lia|done].
    + split; [done|]. eapply Forall_impl; [exact Hf|]. intros y [? ?]. split; [lia|done].
Qed.

Lemma emission_indices_spec (ranges : list Q) :
  StronglySorted (λ x y, x + 2 ≤ y) (emission_indices ranges) ∧
  Forall (λ i, i < length ranges ∧ boundary_at ranges i = true) (emission_indices ranges).
Proof.
  destruct (filter_seq_gap (λ i, boundary_at ranges i = true) 0 (length ranges)
              (boundary_at_not_adjacent ranges)) as [Hs Hf].
  split; [done|]. eapply Forall_impl; [exact Hf|]. intros i [? ?]. split; [lia|done].
Qed.

Lemma StronglySorted_lookup {A : Type} (R : relation A) (l : list A) (i j : nat) (x y : A) :
  StronglySorted R l → i < j → l !! i = Some x → l !! j = Some y → R x y.
Proof.
  intros Hs. revert i j. induction Hs as [|a l Hs IH Hall]; intros i j Hij Hi Hj; [done|].
  destruct j as [|j]; [lia|]. destruct i as [|i].
  - injection Hi as ->. rewrite Forall_forall in Hall.
    apply Hall. by eapply list_elem_of_lookup_2.
  - apply (IH i j); [lia|done..].
Qed.

Lemma StronglySorted_weaken {A : Type} (R R' : relation A) (l : list A) :
  StronglySorted R l → (∀ x y, R x y → R' x y) → StronglySorted R' l.
Proof.
  intros Hs Himp. induction Hs as [|a l Hs IH Hall]; constructor; [done|].
  eapply Forall_impl; [exact Hall|]. apply Himp.
Qed.

(** The events of any signal, for a positive window size. *)
Lemma detector_structure (signal : list Q) (window_size : Z) (threshold : Q) :
  (1 ≤ window_size)%Z →
  ∃ ranges bs,
    transition_detector signal window_size threshold
    = Ok ([0%Z] ++ bs ++ [Z.of_nat (length signal)], ranges) ∧
    Forall2 (λ i r, window_range signal window_size i = Ok r)
            (range (Z.of_nat (length signal) - window_size + 1)) ranges ∧
    bs = boundaries ranges window_size ∧
    StronglySorted (λ x y, (x + 2 ≤ y)%Z) bs ∧
    Forall (λ b, (window_size `div` 2 ≤ b
                  ≤ Z.of_nat (length signal) - window_size + window_size `div` 2)%Z) bs.
Proof.
  intros Hw.
  destruct (transition_detector_total signal window_size threshold Hw) as (ranges & HF & ->).
  exists ranges, (boundaries ranges window_size). split; [done|]. split; [done|].
  split; [done|].
  assert (length ranges = Z.to_nat (Z.of_nat (length signal) - window_size + 1)) as Hlen.
  { apply Forall2_length in HF. unfold range in HF. by rewrite length_seq in HF. }
  destruct (emission_indices_spec ranges) as [Hs Hf].
  rewrite boundaries_emission. split.
  - eapply StronglySorted_fmap; [|exact Hs]. intros x y Hxy. simpl in Hxy. lia.
  - apply Forall_fmap. eapply Forall_impl; [exact Hf|]. intros i [Hi _]. simpl. lia.
Qed.

Lemma half_window (w : Z) : (2 ≤ w)%Z → (1 ≤ w `div` 2 ∧ w `div` 2 < w)%Z.
Proof. intros Hw. split; [apply Z.div_le_lower_bound; lia|apply Z.div_lt; lia]. Qed.

(** X1: for every non-empty signal and window size [w >= 2], the events
    returned by [transition_detector] are strictly increasing, begin with 0
    and end with [len(signal)]. *)
Theorem detector_events_increasing (signal : list Q) (window_size : Z) (threshold : Q) :
  (2 ≤ window_size)%Z → signal ≠ [] →
  ∃ events ranges,
    transition_detector signal window_size threshold = Ok (events, ranges) ∧
    StronglySorted Z.lt events ∧
    head events = Some 0%Z ∧
    last events = Some (Z.of_nat (length signal)).
Proof.
  intros Hw Hne.
  destruct (detector_structure signal window_size threshold) as (ranges & bs & -> & _ & _ & Hs & Hb);
    [lia|].
  destruct (half_window window_size Hw) as [Hh1 Hh2].
  assert (0 < length signal) by (destruct signal; [done|simpl; lia]).
  eexists _, _. split; [done|]. split; [|split; [done|]].
  - apply StronglySorted_app_2; [|repeat constructor|apply StronglySorted_app_2].
    + intros x y ->%list_elem_of_singleton [Hy | ->%list_elem_of_singleton]%elem_of_app; [|lia].
      rewrite Forall_forall in Hb. specialize (Hb y Hy). clear - Hb Hh1. lia.
    + intros x y Hx ->%list_elem_of_singleton.
      rewrite Forall_forall in Hb. specialize (Hb x Hx). clear - Hb Hh2. lia.
    + eapply StronglySorted_weaken; [exact Hs|]. intros x y Hxy. simpl in Hxy. lia.
    + repeat constructor.
  - by rewrite app_assoc, last_snoc.
Qed.

Lemma detector_events_increasing_witness :
  ∃ events ranges,
    transition_detector [0; 0; 0; 1; 1; 1]%Q 3 0 = Ok (events, ranges) ∧
    StronglySorted Z.lt events ∧
    head events = Some 0%Z ∧
    last events = Some (Z.of_nat (length [0; 0; 0; 1; 1; 1]%Q)).
Proof. apply (detector_events_increasing [0; 0; 0; 1; 1; 1]%Q 3 0); [lia|done]. Defined.

(** ** The segmenter and the summariser together: where [nan] can arise *)









(** ** The segmenter: ranges and edge cases *)

Lemma py_slice_subseteq {A : Type} (l : list A) (lo hi : Z) : py_slice l lo hi ⊆ l.
Proof.
  unfold py_slice. etrans; [apply subseteq_take|apply subseteq_drop].
Qed.

Lemma window_range_inv (signal : list Q) (window_size : Z) (i : nat) (r : Q) :
  window_range signal window_size i = Ok r →
  ∃ hi lo, hi ∈ signal ∧ lo ∈ signal ∧ r = (hi - lo)%Q ∧ (lo <= hi)%Q.
Proof.
  unfold window_range. set (section := py_slice _ _ _).
  destruct (decide (section = [])) as [Heq|Hne]; [by rewrite Heq|].
  destruct (py_max_spec section Hne) as (M & -> & HM & _).
  destruct (py_min_spec section Hne) as (m & -> & Hm & Hle).
  simpl. intros [= <-]. exists M, m.
  split; [eapply py_slice_subseteq; exact HM|].
  split; [eapply py_slice_subseteq; exact Hm|]. split; [done|by apply Hle].
Qed.

Lemma window_range_raises (signal : list Q) (window_size : Z) (i : nat) (e : exn) :
  window_range signal window_size i = Raise e → e = ValueError.
Proof.
  unfold window_range. set (section := py_slice _ _ _).
  destruct section as [|x l]; simpl; [by intros [= <-]|done].
Qed.

Lemma py_for_collect_raises {I B : Type} (f : I → result B) (e : exn) (xs : list I)
    (x : I) (acc : list B) :
  x ∈ xs → f x = Raise e → (∀ y e', f y = Raise e' → e' = e) →
  py_for xs (λ x acc, y ← f x; Ok (acc ++ [y])) acc = Raise e.
Proof.
  intros Hx Hfx Hall. revert acc. induction xs as [|z xs IH]; intros acc.
  - by apply elem_of_nil in Hx.
  - simpl. destruct (f z) as [y|e'] eqn:Hfz; simpl.
    + apply IH. apply elem_of_cons in Hx as [->|Hx]; [congruence|done].
    + f_equal. by apply (Hall z).
Qed.

(** X4: a window size [w <= 0] makes [transition_detector] raise
    [ValueError] ([max] of an empty section), whatever the signal. *)
Theorem detector_nonpositive_window_raises (signal : list Q) (window_size : Z) (threshold : Q) :
  (window_size ≤ 0)%Z →
  transition_detector signal window_size threshold = Raise ValueError.
Proof.
  intros Hw. unfold transition_detector.
  erewrite py_for_ext by (intros; apply ranges_loop_body).
  rewrite (py_for_collect_raises _ ValueError _ (Z.to_nat (- window_size))); [done| | |].
  - unfold range. apply elem_of_seq. lia.
  - unfold window_range, py_slice, py_clip.
    destruct (Z.ltb_spec (Z.of_nat (Z.to_nat (- window_size))) 0); [lia|].
    destruct (Z.ltb_spec (Z.of_nat (Z.to_nat (- window_size)) + window_size) 0); [lia|].
    replace (Z.to_nat _) with 0 by lia. by rewrite take_0.
  - intros i e'. apply window_range_raises.
Qed.

Lemma detector_nonpositive_window_raises_witness :
  transition_detector [0; 1; 0]%Q (-2) 0 = Raise ValueError.
Proof. apply (detector_nonpositive_window_raises [0; 1; 0]%Q (-2) 0). lia. Defined.

(** X5: for a window size [w >= 1] the detector returns
    [max(0, len(signal) - w + 1)] ranges, none of them negative; a window
    longer than the signal gives no range and the two brackets alone. *)
Theorem detector_ranges_shape (signal : list Q) (window_size : Z) (threshold : Q) :
  (1 ≤ window_size)%Z →
  ∃ events ranges,
    transition_detector signal window_size threshold = Ok (events, ranges) ∧
    length ranges = Z.to_nat (Z.of_nat (length signal) - window_size + 1) ∧
    Forall (λ r, (0 <= r)%Q) ranges ∧
    ((Z.of_nat (length signal) < window_size)%Z →
     events = [0%Z; Z.of_nat (length signal)] ∧ ranges = []).
Proof.
  intros Hw.
  destruct (detector_structure signal window_size threshold Hw)
    as (ranges & bs & Hdet & HF & -> & _ & _).
  assert (length ranges = Z.to_nat (Z.of_nat (length signal) - window_size + 1)) as Hlen.
  { apply Forall2_length in HF. unfold range in HF. by rewrite length_seq in HF. }
  eexists _, ranges. split; [done|]. split; [done|]. split.
  - apply Forall_lookup. intros i r Hr.
    destruct (Forall2_lookup_r _ _ _ _ _ HF Hr) as (j & _ & Hwr).
    apply window_range_inv in Hwr as (hi & lo & _ & _ & -> & Hle). lra.
  - intros Hshort. assert (ranges = []) as -> by (apply nil_length_inv; lia). done.
Qed.

Lemma detector_ranges_shape_witness :
  ∃ events ranges,
    transition_detector [0; 1]%Q 3 0 = Ok (events, ranges) ∧
    length ranges = Z.to_nat (Z.of_nat (length [0; 1]%Q) - 3 + 1) ∧
    Forall (λ r, (0 <= r)%Q) ranges ∧
    ((Z.of_nat (length [0; 1]%Q) < 3)%Z →
     events = [0%Z; Z.of_nat (length [0; 1]%Q)] ∧ ranges = []).
Proof. apply (detector_ranges_shape [0; 1]%Q 3 0). lia. Defined.

(** X6: when no two samples of the signal differ by more than [0.03], in
    particular on a flat signal, the detector finds no boundary: the events
    are the two brackets [[0, len(signal)]]. *)
Theorem detector_quiet_signal (signal : list Q) (window_size : Z) (threshold : Q) :
  (1 ≤ window_size)%Z →
  (∀ x y, x ∈ signal → y ∈ signal → (x - y <= 3 # 100)%Q) →
  ∃ ranges,
    transition_detector signal window_size threshold
    = Ok ([0%Z; Z.of_nat (length signal)], ranges).
Proof.
  intros Hw Hband.
  destruct (detector_structure signal window_size threshold Hw)
    as (ranges & bs & Hdet & HF & -> & _ & _).
  exists ranges. rewrite Hdet. do 2 f_equal.
  rewrite boundaries_emission.
  destruct (emission_indices ranges) as [|i E] eqn:HE; [done|].
  destruct (emission_indices_spec ranges) as [_ Hf]. rewrite HE in Hf.
  apply Forall_cons in Hf as [[Hi Hb] _]. exfalso.
  destruct (lookup_lt_is_Some_2 ranges i Hi) as [cur Hcur].
  unfold boundary_at in Hb. rewrite (py_index_nat _ _ _ Hcur) in Hb.
  destruct (py_index ranges (Z.of_nat i - 1)) as [prev|]; [|done].
  apply andb_true_iff in Hb as [_ Hb]. apply Qltb_lt in Hb.
  destruct (Forall2_lookup_r _ _ _ _ _ HF Hcur) as (j & _ & Hwr).
  apply window_range_inv in Hwr as (hi & lo & Hhi & Hlo & -> & _).
  pose proof (Hband hi lo Hhi Hlo). lra.
Qed.

Lemma detector_quiet_signal_witness :
  ∃ ranges,
    transition_detector [1 # 2; 1 # 2; 1 # 2; 1 # 2]%Q 3 0
    = Ok ([0%Z; Z.of_nat (length [1 # 2; 1 # 2; 1 # 2; 1 # 2]%Q)], ranges).
Proof.
  apply (detector_quiet_signal [1 # 2; 1 # 2; 1 # 2; 1 # 2]%Q 3 0); [lia|].
  intros x y Hx Hy.
  assert (∀ z, z ∈ [1 # 2; 1 # 2; 1 # 2; 1 # 2]%Q → z = (1 # 2)%Q) as Hall.
  { intros z Hz. repeat (apply elem_of_cons in Hz as [->|Hz]; [done|]).
    by apply elem_of_nil in Hz. }
  rewrite (Hall x Hx), (Hall y Hy). done.
Defined.

(** ** The decoder: nearest level, lowest index on a tie *)

Lemma argmin_from_spec (ds : list Q) (best i0 : nat) (least : Q) :
  (argmin_from best least i0 (Fin <$> ds) = best ∧ ∀ d, d ∈ ds → (least <= d)%Q) ∨
  (∃ j d, argmin_from best least i0 (Fin <$> ds) = i0 + j ∧ ds !! j = Some d ∧
          (d < least)%Q ∧
          (∀ j' d', ds !! j' = Some d' → (d <= d')%Q) ∧
          (∀ j' d', j' < j → ds !! j' = Some d' → (d < d')%Q)).
Proof.
  revert best i0 least. induction ds as [|d0 ds IH]; intros best i0 least.
  - left. split; [done|]. intros d Hd. by apply elem_of_nil in Hd.
  - rewrite fmap_cons. simpl. destruct (Qltb d0 least) eqn:Hlt.
    + apply Qltb_lt in Hlt. right.
      destruct (IH i0 (S i0) d0) as [[-> Hall]|(j & d & -> & Hj & Hd & Hmin & Hfirst)].
      * exists 0, d0. split; [lia|]. split; [done|]. split; [done|]. split.
        -- intros [|j'] d' Hj'; simpl in Hj'.
           ++ injection Hj' as <-. lra.
           ++ apply Hall. by eapply list_elem_of_lookup_2.
        -- intros j' d' Hj'. lia.
      * exists (S j), d. split; [lia|]. split; [done|]. split; [lra|]. split.
        -- intros [|j'] d' Hj'; simpl in Hj'.
           ++ injection Hj' as <-. lra.
           ++ by apply (Hmin j').
        -- intros [|j'] d' Hlt' Hj'; simpl in Hj'.
           ++ by injection Hj' as <-.
           ++ apply (Hfirst j'); [lia|done].
    + apply Qltb_ge in Hlt.
      destruct (IH best (S i0) least) as [[-> Hall]|(j & d & -> & Hj & Hd & Hmin & Hfirst)].
      * left. split; [done|]. intros d [->|Hd]%elem_of_cons; [done|by apply Hall].
      * right. exists (S j), d. split; [lia|]. split; [done|]. split; [done|]. split.
        -- intros [|j'] d' Hj'; simpl in Hj'.
           ++ injection Hj' as <-. lra.
           ++ by apply (Hmin j').
        -- intros [|j'] d' Hlt' Hj'; simpl in Hj'.
           ++ injection Hj' as <-. lra.
           ++ apply (Hfirst j'); [lia|done].
Qed.

Lemma np_argmin_spec (ds : list Q) :
  ds ≠ [] →
  ∃ c d, np_argmin (Fin <$> ds) = Ok c ∧ ds !! c = Some d ∧
         (∀ c' d', ds !! c' = Some d' → (d <= d')%Q) ∧
         (∀ c' d', c' < c → ds !! c' = Some d' → (d < d')%Q).
Proof.
  destruct ds as [|d0 ds]; [done|]. intros _. rewrite fmap_cons.
  change (np_argmin (Fin d0 :: (Fin <$> ds))) with (Ok (argmin_from 0 d0 1 (Fin <$> ds))).
  destruct (argmin_from_spec ds 0 1 d0) as [[-> Hall]|(j & d & -> & Hj & Hd & Hmin & Hfirst)].
  - exists 0, d0. split; [done|]. split; [done|]. split.
    + intros [|c'] d' Hc'; simpl in Hc'.
      * injection Hc' as <-. lra.
      * apply Hall. by eapply list_elem_of_lookup_2.
    + intros c' d' Hlt. lia.
  - exists (S j), d. split; [done|]. split; [done|]. split.
    + intros [|c'] d' Hc'; simpl in Hc'.
      * injection Hc' as <-. lra.
      * by apply (Hmin c').
    + intros [|c'] d' Hlt Hc'; simpl in Hc'.
      * by injection Hc' as <-.
      * apply (Hfirst c'); [lia|done].
Qed.

Lemma b64_abs (a : Q) : (Qabs (b64 a) == b64 (Qabs a))%Q.
Proof.
  destruct (Qlt_le_dec a 0) as [Hneg|Hpos].
  - assert (Qabs a == - a)%Q as Ha by (apply Qabs_neg; lra).
    rewrite (b64_proper _ _ Ha), b64_opp.
    assert (b64 a <= 0)%Q as Hle.
    { assert (a <= 0)%Q as H0 by lra. apply b64_mono in H0.
      by rewrite (b64_zero 0) in H0. }
    by apply Qabs_neg.
  - rewrite (b64_proper _ _ (Qabs_pos a Hpos)). apply Qabs_pos. by apply b64_nonneg.
Qed.

Lemma Qabs_square (a : Q) : (Qabs a * Qabs a == a * a)%Q.
Proof. apply Qabs_case; intros; ring. Qed.

(** The computed distance grows with the exact one. *)
Lemma float_distance_mono (q x x' : Q) :
  (Qabs (q - x') <= Qabs (q - x))%Q → (float_distance q x' <= float_distance q x)%Q.
Proof.
  intros Hle. unfold float_distance. cbv zeta.
  apply b64_sqrt_mono.
  assert (∀ a, Qabs (b64 (b64 a * b64 a)) == b64 (Qabs (b64 a) * Qabs (b64 a)))%Q as Habs.
  { intros a. rewrite (b64_proper _ _ (Qabs_square (b64 a))).
    apply Qabs_pos, b64_nonneg. rewrite <- Qabs_square.
    pose proof (Qabs_nonneg (b64 a)). nra. }
  rewrite !Habs. apply b64_mono.
  pose proof (b64_mono _ _ Hle) as Hd. rewrite <- !b64_abs in Hd.
  pose proof (Qabs_nonneg (b64 (q - x'))). pose proof (Qabs_nonneg (b64 (q - x))).
  nra.
Qed.

(** What the decoder does with one mean. *)
Lemma decode_one (table : list (list base * Q)) (mean : npfloat) :
  table ≠ [] → (∀ kmer x, (kmer, x) ∈ table → kmer ≠ []) →
  ∃ c kmer x b,
    np_argmin (euclidian_distance mean <$> table.*2) = Ok c ∧
    table !! c = Some (kmer, x) ∧ kmer !! 0 = Some b ∧
    match mean with
    | NaN => c = 0
    | Fin q =>
        ∀ c' kmer' x', table !! c' = Some (kmer', x') →
          (float_distance q x <= float_distance q x')%Q ∧
          (c' < c → (float_distance q x < float_distance q x')%Q) ∧
          ((Qabs (q - x') < Qabs (q - x))%Q →
           (float_distance q x' == float_distance q x)%Q ∧ c < c')
    end.
Proof.
  intros Hne Hlab.
  assert (∀ c kx, table !! c = Some kx → ∃ b, kx.1 !! 0 = Some b) as Hfirst.
  { intros c [kmer x] Hc. simpl. specialize (Hlab kmer x (list_elem_of_lookup_2 _ _ _ Hc)).
    destruct kmer as [|b ?]; [done|by exists b]. }
  destruct mean as [q|].
  - set (ds := float_distance q <$> table.*2).
    assert (euclidian_distance (Fin q) <$> table.*2 = Fin <$> ds) as ->.
    { subst ds. by rewrite <- (list_fmap_compose (float_distance q) Fin). }
    destruct (np_argmin_spec ds) as (c & d & -> & Hc & Hmin & Hlow).
    { subst ds. destruct table; [done|]. done. }
    subst ds. rewrite !list_lookup_fmap in Hc.
    destruct (table !! c) as [[kmer x]|] eqn:Htc; [|done]. simpl in Hc. injection Hc as <-.
    destruct (Hfirst c _ Htc) as [b Hb]. exists c, kmer, x, b.
    split; [done|]. split; [done|]. split; [done|].
    intros c' kmer' x' Hc'.
    assert ((float_distance q <$> table.*2) !! c' = Some (float_distance q x')) as Hd'.
    { by rewrite !list_lookup_fmap, Hc'. }
    pose proof (Hmin c' _ Hd') as Hle.
    split; [done|]. split; [intros Hlt; by apply (Hlow c')|].
    intros Hnear.
    assert (float_distance q x' <= float_distance q x)%Q as Hge
      by (apply float_distance_mono; lra).
    split; [lra|].
    destruct (Nat.lt_total c c') as [Hlt|[->|Hgt]]; [done| |].
    + rewrite Htc in Hc'. injection Hc' as _ <-. lra.
    + pose proof (Hlow c' _ Hgt Hd'). lra.
  - destruct table as [|[kmer x] table'] eqn:Ht; [done|].
    destruct (Hfirst 0 (kmer, x) eq_refl) as [b Hb].
    by exists 0, kmer, x, b.
Qed.

Lemma final_sequence_decode (table : list (list base * Q)) (means : list npfloat) :
  table ≠ [] → (∀ kmer x, (kmer, x) ∈ table → kmer ≠ []) →
  ∃ out,
    final_sequence table means = Ok out ∧
    Forall2 (λ mean b, ∃ c kmer x,
               np_argmin (euclidian_distance mean <$> table.*2) = Ok c ∧
               table !! c = Some (kmer, x) ∧ kmer !! 0 = Some b)
            means out.
Proof.
  intros Hne Hlab.
  assert (∃ cs kmers out,
    Forall2 (λ m c, np_argmin (euclidian_distance m <$> table.*2) = Ok c) means cs ∧
    Forall2 (λ c kmer, py_index table.*1 (Z.of_nat c) = Ok kmer) cs kmers ∧
    Forall2 (λ (kmer : list base) b, py_index kmer 0 = Ok b) kmers out ∧
    Forall2 (λ mean b, ∃ c kmer x,
               np_argmin (euclidian_distance mean <$> table.*2) = Ok c ∧
               table !! c = Some (kmer, x) ∧ kmer !! 0 = Some b)
            means out)
    as (cs & kmers & out & H1 & H2 & H3 & H4).
  { induction means as [|m means (cs & kmers & out & H1 & H2 & H3 & H4)].
    - exists [], [], []. repeat split; constructor.
    - destruct (decode_one table m Hne Hlab) as (c & kmer & x & b & Hc & Htc & Hb & _).
      exists (c :: cs), (kmer :: kmers), (b :: out). repeat split; constructor; try done.
      + apply py_index_nat. by rewrite list_lookup_fmap, Htc.
      + by apply (py_index_nat _ 0).
      + by exists c, kmer, x. }
  exists out. split; [|done].
  unfold final_sequence. cbv zeta.
  assert (Nat.eqb (length table.*1) 0 = false) as ->.
  { rewrite length_fmap. by destruct table. }
  rewrite (py_for_collect (λ mean, np_argmin (euclidian_distance mean <$> table.*2)) means cs [])
    by done. simpl.
  rewrite (py_for_collect (λ m, py_index table.*1 (Z.of_nat m)) cs kmers []) by done. simpl.
  by rewrite (py_for_collect (λ kmer : list base, py_index kmer 0) kmers out []).
Qed.

(** X7: with a non-empty table whose labels are non-empty, and levels and
    means of magnitude at most [2 ** 500] (so that no square overflows), the
    decoder returns one symbol per event mean; the symbol of a numeric mean is
    the first symbol of a k-mer whose computed distance
    [np.abs((mean - level)**2)**0.5] to the mean is least, the one of lowest
    table index among those; a k-mer whose level is strictly nearer to the
    mean than the chosen one has the same computed distance and a higher
    index; the symbol of a [nan] mean is the first symbol of the first k-mer
    of the table. *)
Theorem final_sequence_nearest_first (table : list (list base * Q)) (means : list npfloat) :
  table ≠ [] → (∀ kmer x, (kmer, x) ∈ table → kmer ≠ []) →
  (∀ kmer x, (kmer, x) ∈ table → (Qabs x <= pow2 500)%Q) →
  (∀ q, Fin q ∈ means → (Qabs q <= pow2 500)%Q) →
  ∃ out,
    final_sequence table means = Ok out ∧
    length out = length means ∧
    ∀ i mean b, means !! i = Some mean → out !! i = Some b →
      ∃ c kmer x,
        table !! c = Some (kmer, x) ∧ kmer !! 0 = Some b ∧
        match mean with
        | NaN => c = 0
        | Fin q =>
            ∀ c' kmer' x', table !! c' = Some (kmer', x') →
              (float_distance q x <= float_distance q x')%Q ∧
              (c' < c → (float_distance q x < float_distance q x')%Q) ∧
              ((Qabs (q - x') < Qabs (q - x))%Q →
               (float_distance q x' == float_distance q x)%Q ∧ c < c')
        end.
Proof.
  intros Hne Hlab _ _.
  destruct (final_sequence_decode table means Hne Hlab) as (out & Hout & HF).
  exists out. split; [done|]. split; [symmetry; by eapply Forall2_length|].
  intros i mean b Hm Hb.
  destruct (Forall2_lookup_lr _ _ _ _ _ _ HF Hm Hb) as (c & kmer & x & Hc & Htc & Hk).
  destruct (decode_one table mean Hne Hlab) as (c' & kmer' & x' & b' & Hc' & Htc' & Hb' & Hspec).
  rewrite Hc in Hc'. injection Hc' as <-. rewrite Htc in Htc'. injection Htc' as <- <-.
  by exists c, kmer, x.
Qed.

Lemma final_sequence_nearest_first_witness :
  ∃ out,
    final_sequence [([bA], 0%Q); ([bC], 1 # 4); ([bG], 1 # 2); ([bT], 3 # 4)]
                   [Fin (5 # 8); NaN] = Ok out ∧
    length out = length [Fin (5 # 8); NaN] ∧
    ∀ i mean b, [Fin (5 # 8); NaN] !! i = Some mean → out !! i = Some b →
      ∃ c kmer x,
        [([bA], 0%Q); ([bC], 1 # 4); ([bG], 1 # 2); ([bT], 3 # 4)] !! c = Some (kmer, x) ∧
        kmer !! 0 = Some b ∧
        match mean with
        | NaN => c = 0
        | Fin q =>
            ∀ c' kmer' x',
              [([bA], 0%Q); ([bC], 1 # 4); ([bG], 1 # 2); ([bT], 3 # 4)] !! c'
              = Some (kmer', x') →
              (float_distance q x <= float_distance q x')%Q ∧
              (c' < c → (float_distance q x < float_distance q x')%Q) ∧
              ((Qabs (q - x') < Qabs (q - x))%Q →
               (float_distance q x' == float_distance q x)%Q ∧ c < c')
        end.
Proof.
  apply (final_sequence_nearest_first
           [([bA], 0%Q); ([bC], 1 # 4); ([bG], 1 # 2); ([bT], 3 # 4)] [Fin (5 # 8); NaN]).
  - done.
  - intros kmer x Hin.
    repeat (apply elem_of_cons in Hin as [[= -> _]|Hin]; [done|]).
    by apply elem_of_nil in Hin.
  - intros kmer x Hin.
    repeat (apply elem_of_cons in Hin as [[= _ ->]|Hin]; [by vm_compute|]).
    by apply elem_of_nil in Hin.
  - intros q Hin.
    repeat (apply elem_of_cons in Hin as [[= ->]|Hin]; [by vm_compute|]).
    apply elem_of_cons in Hin as [[=]|Hin].
    by apply elem_of_nil in Hin.
Defined.

(** Two levels that the float distance cannot tell apart: the mean [0.75]
    is nearer to the level [2 ** -60] than to the level 0, both computed
    distances are [0.75], and the decoder returns the first k-mer. *)
Example nearest_level_tie :
  final_sequence [([bA], 0%Q); ([bC], pow2 (-60))] [Fin (3 # 4)] = Ok [bA] ∧
  (Qabs ((3 # 4) - pow2 (-60)) < Qabs ((3 # 4) - 0))%Q ∧
  (float_distance (3 # 4) (pow2 (-60)) == float_distance (3 # 4) 0)%Q.
Proof. by vm_compute. Qed.

(** ** K-mer indices and labels *)

Lemma product_member_length (K : nat) (kmer : list base) :
  kmer ∈ product K → length kmer = K.
Proof.
  revert kmer. induction K as [|K IH]; intros kmer.
  - by intros ->%list_elem_of_singleton.
  - rewrite product_S, !elem_of_app, !list_elem_of_fmap.
    intros [(y & -> & Hy)|[(y & -> & Hy)|[(y & -> & Hy)|(y & -> & Hy)]]];
      simpl; f_equal; by apply IH.
Qed.

Lemma product_NoDup (K : nat) : NoDup (product K).
Proof.
  induction K as [|K IH]; [repeat constructor; by intros ?%elem_of_nil|].
  rewrite product_S.
  assert (∀ b : base, Inj (=) (=) (b ::.)) as Hinj by (intros b x y [= ->]; done).
  assert (∀ (b b' : base) x, b ≠ b' → x ∈ (b ::.) <$> product K →
                             x ∉ (b' ::.) <$> product K) as Hdis.
  { intros b b' x Hne (y & -> & _)%list_elem_of_fmap (y' & [= ? _] & _)%list_elem_of_fmap.
    done. }
  repeat (apply NoDup_app; split; [by apply NoDup_fmap_2|split]);
    try by apply NoDup_fmap_2.
  - intros x Hx. rewrite !elem_of_app.
    intros [H|[H|H]]; refine (Hdis bA _ x _ Hx H); done.
  - intros x Hx. rewrite !elem_of_app.
    intros [H|H]; refine (Hdis bC _ x _ Hx H); done.
  - intros x Hx H. refine (Hdis bG _ x _ Hx H); done.
Qed.

(** X8: the index of a non-empty k-mer lies in [[0, 4^k)] and the label at
    that position of [itertools.product('ACGT', repeat=k)] is the k-mer
    itself. *)
Theorem kmer_index_roundtrip (kmer : list base) :
  kmer ≠ [] →
  ∃ idx,
    _kmer_index kmer = Ok idx ∧
    (0 ≤ idx < 4 ^ Z.of_nat (length kmer))%Z ∧
    product (length kmer) !! Z.to_nat idx = Some kmer.
Proof.
  intros Hne. destruct (kmer_index_bound kmer Hne) as (idx & Hidx & Hb).
  exists idx. split; [done|]. split; [done|].
  destruct kmer as [|b rest]; [done|]. injection Hidx as <-.
  exact (product_lookup (b :: rest)).
Qed.

Lemma kmer_index_roundtrip_witness :
  ∃ idx,
    _kmer_index [bG; bA; bT] = Ok idx ∧
    (0 ≤ idx < 4 ^ Z.of_nat (length [bG; bA; bT]))%Z ∧
    product (length [bG; bA; bT]) !! Z.to_nat idx = Some [bG; bA; bT].
Proof. apply (kmer_index_roundtrip [bG; bA; bT]). done. Defined.

Lemma kmer_index_product (kmer : list base) (idx : Z) :
  _kmer_index kmer = Ok idx → product (length kmer) !! Z.to_nat idx = Some kmer.
Proof.
  destruct kmer as [|b rest]; [done|]. intros [= <-].
  exact (product_lookup (b :: rest)).
Qed.

(** X9: two k-mers of the same length with the same index are the same
    k-mer. *)
Theorem kmer_index_injective (kmer1 kmer2 : list base) (idx : Z) :
  length kmer1 = length kmer2 →
  _kmer_index kmer1 = Ok idx → _kmer_index kmer2 = Ok idx → kmer1 = kmer2.
Proof.
  intros Hlen H1%kmer_index_product H2%kmer_index_product.
  rewrite Hlen, H2 in H1. by injection H1.
Qed.

Lemma kmer_index_injective_witness : [bC; bA] = [bC; bA].
Proof. apply (kmer_index_injective [bC; bA] [bC; bA] 4); reflexivity. Defined.

(** X10: the table of a pore constructed with [k >= 1] has [4^k] entries;
    its labels are the k-mers in product order, pairwise distinct and of
    length [k], and its levels are the pore's levels in the same order. *)
Theorem kmer_table_shape (k : Z) (md snr : pynum) (noise dwell levels : string)
    (rnd : nat → Q) (p : Pore) :
  Pore_init k md snr noise dwell levels rnd = Ok p → (1 ≤ k)%Z →
  ∃ table,
    kmer_table p = Ok table ∧
    Z.of_nat (length table) = (4 ^ k)%Z ∧
    table.*1 = product (Z.to_nat k) ∧
    table.*2 = current_levels p ∧
    NoDup table.*1 ∧
    Forall (λ kmer, Z.of_nat (length kmer) = k) table.*1.
Proof.
  intros (model & _ & _ & Hc & Hm & Hk & _)%Pore_init_inv Hk1.
  pose proof (levels_length _ _ _ _ _ Hk1 Hc Hm) as Hlen.
  pose proof (product_length (Z.to_nat k)) as Hpl. rewrite Z2Nat.id in Hpl by lia.
  assert (0 < 4 ^ k)%Z by (apply Z.pow_pos_nonneg; lia).
  exists (zip (product (Z.to_nat k)) (current_levels p)).
  unfold kmer_table. rewrite Hk. destruct (Z.ltb_spec k 0); [lia|].
  split; [done|]. rewrite fst_zip, snd_zip by lia.
  split; [rewrite length_zip_with; lia|]. split; [done|]. split; [done|].
  split; [apply product_NoDup|].
  apply Forall_forall. intros kmer Hin%product_member_length. lia.
Qed.

Lemma kmer_table_shape_witness :
  ∃ p,
    Pore_init 2 (PyInt 10) (PyInt 250) "normal" "poisson" "even_space" (λ _, 0%Q) = Ok p ∧
    ∃ table,
      kmer_table p = Ok table ∧
      Z.of_nat (length table) = (4 ^ 2)%Z ∧
      table.*1 = product (Z.to_nat 2) ∧
      table.*2 = current_levels p ∧
      NoDup table.*1 ∧
      Forall (λ kmer, Z.of_nat (length kmer) = 2%Z) table.*1.
Proof.
  eexists. split; [reflexivity|].
  apply (kmer_table_shape 2 (PyInt 10) (PyInt 250) "normal" "poisson" "even_space" (λ _, 0%Q));
    [reflexivity|lia].
Defined.

(** X11: for a pore constructed with [k >= 1] and every k-mer of length
    [k], the level that [generate_signal] reads for the k-mer is the level
    stored next to that k-mer's label in [kmer_table]. *)
Theorem kmer_table_matches_index (k : Z) (md snr : pynum) (noise dwell levels : string)
    (rnd : nat → Q) (p : Pore) (kmer : list base) :
  Pore_init k md snr noise dwell levels rnd = Ok p → (1 ≤ k)%Z →
  Z.of_nat (length kmer) = k →
  ∃ idx level table,
    _kmer_index kmer = Ok idx ∧
    py_index (current_levels p) idx = Ok level ∧
    kmer_table p = Ok table ∧
    table !! Z.to_nat idx = Some (kmer, level).
Proof.
  intros (model & _ & _ & Hc & Hm & Hk & _)%Pore_init_inv Hk1 Hkl.
  pose proof (levels_length _ _ _ _ _ Hk1 Hc Hm) as Hlen.
  assert (0 < 4 ^ k)%Z by (apply Z.pow_pos_nonneg; lia).
  destruct (kmer_index_bound kmer) as (idx & Hidx & Hb).
  { intros ->. simpl in Hkl. lia. }
  rewrite Hkl in Hb.
  destruct (lookup_lt_is_Some_2 (current_levels p) (Z.to_nat idx)) as [level Hl]; [lia|].
  exists idx, level, (zip (product (Z.to_nat k)) (current_levels p)).
  split; [done|]. split.
  { replace idx with (Z.of_nat (Z.to_nat idx)) by lia. by apply py_index_nat. }
  split.
  { unfold kmer_table. rewrite Hk. by destruct (Z.ltb_spec k 0); [lia|]. }
  pose proof (kmer_index_product kmer idx Hidx) as Hp.
  replace (length kmer) with (Z.to_nat k) in Hp by lia.
  by rewrite list.lookup_zip_with, Hp, Hl.
Qed.

Lemma kmer_table_matches_index_witness :
  ∃ p,
    Pore_init 2 (PyInt 10) (PyInt 250) "normal" "poisson" "even_space" (λ _, 0%Q) = Ok p ∧
    ∃ idx level table,
      _kmer_index [bG; bT] = Ok idx ∧
      py_index (current_levels p) idx = Ok level ∧
      kmer_table p = Ok table ∧
      table !! Z.to_nat idx = Some ([bG; bT], level).
Proof.
  eexists. split; [reflexivity|].
  apply (kmer_table_matches_index 2 (PyInt 10) (PyInt 250) "normal" "poisson" "even_space"
           (λ _, 0%Q)); [reflexivity|lia|reflexivity].
Defined.

(** ** Construction: which configurations succeed *)









(** One step further down the power is 0.0 and the construction raises;
    from [-537] to [-512] the step overflows and the table is empty; from
    [-511] on the table is [[0.0]]. *)
Example even_space_negative_kmer_len :
  even_space (-538) (λ _, 0%Q) = Raise ZeroDivisionError ∧
  even_space (-537) (λ _, 0%Q) = Ok [] ∧
  even_space (-512) (λ _, 0%Q) = Ok [] ∧
  (∃ x, even_space (-511) (λ _, 0%Q) = Ok [x] ∧ (x == 0)%Q) ∧
  (∃ x, even_space (-1) (λ _, 0%Q) = Ok [x] ∧ (x == 0)%Q).
Proof.
  split; [by vm_compute|]. split; [by vm_compute|]. split; [by vm_compute|].
  split; eexists; split; by vm_compute.
Qed.

(** ** The random dwell policies *)

(** X13: for a mean between 0 and [2 ** 62] (numpy's Poisson sampler
    refuses a [lam] from about [9.2e18] on), the policies [normal], [gamma]
    and [poisson] return an [int >= 0] for every state of the generator. *)
Theorem dwell_random_total (name : string) (f : dwell_policy) (mean_dwell : pynum) (g : rng) :
  DWELL !! name = Some f → name ≠ "fixed" →
  (0 <= num_val mean_dwell)%Q → (num_val mean_dwell <= pow2 62)%Q →
  ∃ z g', f mean_dwell g = Ok (PyInt z, g') ∧ (0 ≤ z)%Z.
Proof.
  intros Hf Hne Hm _.
  destruct (dwell_returns_int name f mean_dwell g Hf Hm) as (z & g' & Hz); [done|].
  exists z, g'. split; [done|].
  destruct (dwell_random_nonneg_int name f mean_dwell _ g g' Hf Hne Hz) as (z' & [= <-] & ?).
  done.
Qed.

Lemma dwell_random_total_witness :
  ∃ z g', dwell_gamma (PyFloat (5 # 2)) quiet = Ok (PyInt z, g') ∧ (0 ≤ z)%Z.
Proof.
  apply (dwell_random_total "gamma" dwell_gamma (PyFloat (5 # 2)) quiet);
    [reflexivity|discriminate|discriminate|by vm_compute].
Defined.



(** ** The evenly spaced levels *)



(** ** The serial resistor model *)

Lemma digit_sum_snoc (kmer : list base) (b : base) :
  digit_sum (kmer ++ [b]) = (digit_sum kmer + NUCLEOTIDE_ORDER b)%Z.
Proof.
  unfold digit_sum. induction kmer as [|a kmer IH]; simpl; [lia|].
  rewrite IH. lia.
Qed.

Lemma digit_sum_bounds (kmer : list base) :
  (0 ≤ digit_sum kmer ≤ 3 * Z.of_nat (length kmer))%Z.
Proof.
  induction kmer as [|b kmer IH]; [simpl; lia|].
  pose proof (NUCLEOTIDE_ORDER_bound b).
  change (digit_sum (b :: kmer)) with (NUCLEOTIDE_ORDER b + digit_sum kmer)%Z.
  simpl length. lia.
Qed.

Lemma digit_sum_Permutation (kmer1 kmer2 : list base) :
  kmer1 ≡ₚ kmer2 → digit_sum kmer1 = digit_sum kmer2.
Proof.
  induction 1 as [|b l1 l2 _ IH|a b l|l1 l2 l3 _ IH1 _ IH2].
  - done.
  - change (NUCLEOTIDE_ORDER b + digit_sum l1 = NUCLEOTIDE_ORDER b + digit_sum l2)%Z.
    by rewrite IH.
  - change (NUCLEOTIDE_ORDER b + (NUCLEOTIDE_ORDER a + digit_sum l)
            = NUCLEOTIDE_ORDER a + (NUCLEOTIDE_ORDER b + digit_sum l))%Z. lia.
  - by rewrite IH1.
Qed.

(** The loop of [serial_resistor_model] peels the codes off the low end of
    the index and leaves the high part: the last symbol is added first. *)
Lemma resistor_loop (kmer : list base) (a : nat) (c0 : Q) (hi : Z) :
  py_for (seq a (length kmer))
    (λ (_ : nat) '(conductance, kmer),
       Ok (b64 (conductance + b64 (inject_Z (Z.land kmer 3) / inject_Z (4 - 1))),
           Z.shiftr kmer 2))
    (c0, (hi * 4 ^ Z.of_nat (length kmer)
          + foldl (λ lexical_order k, Z.shiftl lexical_order 2 + NUCLEOTIDE_ORDER k)
                  0 kmer)%Z)
  = Ok (foldr (λ b conductance,
                 b64 (conductance + b64 (inject_Z (NUCLEOTIDE_ORDER b) / inject_Z (4 - 1))))
              c0 kmer, hi).
Proof.
  revert a c0. induction kmer as [|b rest IH] using rev_ind; intros a c0.
  - simpl. do 2 f_equal. lia.
  - rewrite length_app, Nat.add_1_r, foldl_app, foldr_app. simpl seq. simpl foldl.
    set (r := foldl _ 0%Z rest).
    pose proof (NUCLEOTIDE_ORDER_bound b) as Hb.
    assert ((hi * 4 ^ Z.of_nat (S (length rest)) + (Z.shiftl r 2 + NUCLEOTIDE_ORDER b))%Z
            = (4 * (hi * 4 ^ Z.of_nat (length rest) + r) + NUCLEOTIDE_ORDER b)%Z) as ->.
    { rewrite Z.shiftl_mul_pow2, Nat2Z.inj_succ, Z.pow_succ_r by lia.
      change (2 ^ 2)%Z with 4%Z. lia. }
    set (x := (hi * 4 ^ Z.of_nat (length rest) + r)%Z).
    cbn [py_for]. rewrite result_bind_ok.
    assert (Z.land (4 * x + NUCLEOTIDE_ORDER b) 3 = NUCLEOTIDE_ORDER b) as ->.
    { change 3%Z with (Z.ones 2). rewrite Z.land_ones by lia.
      change (2 ^ 2)%Z with 4%Z. symmetry. apply (Z.mod_unique_pos _ _ x); lia. }
    assert (Z.shiftr (4 * x + NUCLEOTIDE_ORDER b) 2 = x) as ->.
    { rewrite Z.shiftr_div_pow2 by lia. change (2 ^ 2)%Z with 4%Z.
      symmetry. apply (Z.div_unique_pos _ _ x (NUCLEOTIDE_ORDER b)); lia. }
    apply IH.
Qed.

(** The float that one symbol adds: within [2 ** -53] of a third of its
    code. *)
Lemma resistor_term (b : base) :
  let t := b64 (inject_Z (NUCLEOTIDE_ORDER b) / inject_Z (4 - 1)) in
  (0 <= t)%Q ∧ (t <= 1)%Q ∧
  (Qabs (t - inject_Z (NUCLEOTIDE_ORDER b) / 3) <= pow2 (-53))%Q.
Proof. destruct b; by vm_compute. Qed.

Lemma b64_nat (n : nat) : (Z.of_nat n ≤ 2 ^ 53)%Z → (b64 (inject_Z (Z.of_nat n)) == inject_Z (Z.of_nat n))%Q.
Proof. intros Hn. apply b64_exact_Z. lia. Qed.

(** The conductance after the loop: between 0 and [k], and near a third of
    the sum of the codes. *)
Lemma conductance_bounds (kmer : list base) (e : Z) :
  (0 ≤ e ≤ 53)%Z → (Z.of_nat (length kmer) ≤ 2 ^ e)%Z →
  let c := foldr (λ b conductance,
                    b64 (conductance + b64 (inject_Z (NUCLEOTIDE_ORDER b) / inject_Z (4 - 1))))
                 0%Q kmer in
  (0 <= c)%Q ∧ (c <= inject_Z (Z.of_nat (length kmer)))%Q ∧
  (Qabs (c - inject_Z (digit_sum kmer) / 3)
   <= inject_Z (Z.of_nat (length kmer)) * (pow2 (-53) + pow2 (e - 53)))%Q.
Proof.
  intros He. induction kmer as [|b kmer IH]; intros Hlen; cbv zeta.
  - change (inject_Z (Z.of_nat (length (@nil base)))) with 0%Q. rewrite Qmult_0_l.
    cbn [foldr]. split; [lra|]. split; [lra|]. by vm_compute.
  - simpl length in *. rewrite Nat2Z.inj_succ in *. unfold Z.succ in *.
    destruct IH as (H0 & H1 & Herr); [lia|].
    change (digit_sum (b :: kmer)) with (NUCLEOTIDE_ORDER b + digit_sum kmer)%Z.
    cbn [foldr]. set (c := foldr _ 0%Q kmer) in *.
    destruct (resistor_term b) as (Ht0 & Ht1 & Hterr).
    set (t := b64 (inject_Z (NUCLEOTIDE_ORDER b) / inject_Z (4 - 1))) in *.
    rewrite !inject_Z_plus. change (inject_Z 1) with 1%Q.
    set (n := inject_Z (Z.of_nat (length kmer))) in *.
    assert (n + 1 <= pow2 e)%Q as Hn.
    { rewrite pow2_Z by lia. subst n. change 1%Q with (inject_Z 1).
      rewrite <- inject_Z_plus, <- Zle_Qle. lia. }
    assert (b64 (n + 1) == n + 1)%Q as Hex.
    { subst n. change 1%Q with (inject_Z 1). rewrite <- inject_Z_plus.
      apply b64_exact_Z. assert (2 ^ e ≤ 2 ^ 53)%Z by (apply Z.pow_le_mono_r; lia). lia. }
    assert (0 <= b64 (c + t))%Q by (apply b64_nonneg; lra).
    assert (b64 (c + t) <= n + 1)%Q.
    { rewrite <- Hex. apply b64_mono. lra. }
    pose proof (b64_error (c + t) e ltac:(lia)) as Hadd.
    rewrite Qabs_pos in Hadd by lra. specialize (Hadd ltac:(lra)).
    split; [done|]. split; [done|].
    revert Herr Hterr Hadd. generalize (b64 (c + t)). intros c'.
    generalize (pow2 (-53)), (pow2 (e - 53)). intros u1 u2 Herr Hterr Hadd.
    apply Qabs_Qle_condition in Herr, Hterr, Hadd. apply Qabs_Qle_condition.
    assert (∀ x y, (x + y) / 3 == x / 3 + y / 3)%Q as -> by (intros; field).
    lra.
Qed.

Lemma conductance_all_A (kmer : list base) :
  Forall (λ b, b = bA) kmer →
  (foldr (λ b conductance,
            b64 (conductance + b64 (inject_Z (NUCLEOTIDE_ORDER b) / inject_Z (4 - 1))))
         0%Q kmer == 0)%Q.
Proof.
  induction 1 as [|b kmer -> _ IH]; [done|]. cbn [foldr].
  rewrite b64_zero; [done|]. rewrite IH. by vm_compute.
Qed.

Lemma conductance_all_T (kmer : list base) :
  Forall (λ b, b = bT) kmer → (Z.of_nat (length kmer) ≤ 2 ^ 53)%Z →
  (foldr (λ b conductance,
            b64 (conductance + b64 (inject_Z (NUCLEOTIDE_ORDER b) / inject_Z (4 - 1))))
         0%Q kmer == inject_Z (Z.of_nat (length kmer)))%Q.
Proof.
  induction 1 as [|b kmer -> _ IH]; intros Hlen; [done|]. cbn [foldr].
  simpl length in *. specialize (IH ltac:(lia)).
  assert (∀ c, c + b64 (inject_Z (NUCLEOTIDE_ORDER bT) / inject_Z (4 - 1)) == c + 1)%Q as Ht.
  { intros c. apply Qplus_inj_l. by vm_compute. }
  assert (foldr (λ b conductance,
            b64 (conductance + b64 (inject_Z (NUCLEOTIDE_ORDER b) / inject_Z (4 - 1))))
            0%Q kmer + b64 (inject_Z (NUCLEOTIDE_ORDER bT) / inject_Z (4 - 1))
          == inject_Z (Z.of_nat (S (length kmer))))%Q as Hs.
  { rewrite Ht, IH, Nat2Z.inj_succ. unfold Z.succ. by rewrite inject_Z_plus. }
  rewrite (b64_proper _ _ Hs). by apply b64_nat.
Qed.

(** The level of a k-mer of length [k <= 2 ** e]. *)
Lemma resistor_level (kmer : list base) (e : Z) :
  kmer ≠ [] → (0 ≤ e ≤ 53)%Z → (Z.of_nat (length kmer) ≤ 2 ^ e)%Z →
  ∃ idx v,
    _kmer_index kmer = Ok idx ∧
    serial_resistor_model idx (Z.of_nat (length kmer)) = Ok v ∧
    (Qabs (v - inject_Z (digit_sum kmer) / inject_Z (3 * Z.of_nat (length kmer)))
     <= pow2 (e - 51))%Q ∧
    (0 <= v)%Q ∧ (v <= 1)%Q ∧
    (Forall (λ b, b = bA) kmer → (v == 0)%Q) ∧
    (Forall (λ b, b = bT) kmer → (v == 1)%Q).
Proof.
  intros Hne He Hlen. destruct kmer as [|b rest]; [done|].
  set (kmer := b :: rest) in *.
  exists (foldl (λ lexical_order k, Z.shiftl lexical_order 2 + NUCLEOTIDE_ORDER k)%Z
                0%Z kmer).
  pose proof (resistor_loop kmer 0 0 0) as Hc.
  rewrite Z.mul_0_l, Z.add_0_l in Hc.
  eexists. split; [reflexivity|]. unfold serial_resistor_model, range.
  rewrite Nat2Z.id, Hc, result_bind_ok. cbv beta iota.
  destruct (Z.eqb_spec (Z.of_nat (length kmer)) 0) as [Hz|Hnz]; [done|].
  split; [reflexivity|].
  destruct (conductance_bounds kmer e He Hlen) as (H0 & H1 & Herr).
  set (c := foldr _ 0%Q kmer) in *.
  assert (2 ^ e ≤ 2 ^ 53)%Z as He53 by (apply Z.pow_le_mono_r; lia).
  pose proof (b64_nat (length kmer) ltac:(lia)) as Hk.
  set (n := inject_Z (Z.of_nat (length kmer))) in *.
  assert (1 <= n)%Q as Hn1.
  { subst n. change 1%Q with (inject_Z 1). rewrite <- Zle_Qle.
    subst kmer. simpl length. lia. }
  assert (c / b64 n == c / n)%Q as Hq by (by rewrite Hk).
  rewrite (b64_proper _ _ Hq).
  assert (0 <= c / n)%Q as Hq0 by (apply Qle_shift_div_l; lra).
  assert (c / n <= 1)%Q as Hq1 by (apply Qle_shift_div_r; lra).
  assert (b64 1 == 1)%Q as Hb1 by apply (b64_exact_Z 1 ltac:(done)).
  pose proof (b64_nonneg _ Hq0) as Hv0.
  pose proof (b64_mono _ _ Hq1) as Hv1. rewrite Hb1 in Hv1.
  pose proof (b64_error (c / n) 0 ltac:(lia)) as Hdiv.
  rewrite Qabs_pos, pow2_0 in Hdiv by done. specialize (Hdiv Hq1).
  split; [|split; [done|split; [done|split]]].
  - assert (inject_Z (digit_sum kmer) / inject_Z (3 * Z.of_nat (length kmer))
            == inject_Z (digit_sum kmer) / 3 / n)%Q as ->.
    { rewrite inject_Z_mult. fold n. field. lra. }
    assert (Qabs (c / n - inject_Z (digit_sum kmer) / 3 / n)
            <= pow2 (-53) + pow2 (e - 53))%Q as Hscaled.
    { assert (c / n - inject_Z (digit_sum kmer) / 3 / n
              == (c - inject_Z (digit_sum kmer) / 3) / n)%Q as -> by (field; lra).
      unfold Qdiv at 1. rewrite Qabs_Qmult, (Qabs_pos (/ n)).
      - apply Qle_shift_div_r; [lra|]. by rewrite Qmult_comm.
      - apply Qlt_le_weak, Qinv_lt_0_compat. lra. }
    assert (pow2 (-53) <= pow2 (e - 53))%Q as Hp1 by (apply pow2_le; lia).
    assert (pow2 (e - 51) == 4 * pow2 (e - 53))%Q as ->.
    { replace (e - 51)%Z with (e - 53 + 1 + 1)%Z by lia. rewrite !pow2_succ. ring. }
    change (0 - 53)%Z with (-53)%Z in Hdiv.
    pose proof (pow2_pos (-53)).
    revert Hscaled Hdiv Hp1. generalize (b64 (c / n)). intros v.
    generalize (inject_Z (digit_sum kmer) / 3 / n)%Q. intros s.
    generalize (pow2 (-53)) (pow2 (e - 53)) (c / n)%Q. intros u1 u2 q Hscaled Hdiv Hp1.
    apply Qabs_Qle_condition in Hscaled, Hdiv. apply Qabs_Qle_condition. lra.
  - intros HA. pose proof (conductance_all_A kmer HA) as HcA. fold c in HcA.
    rewrite b64_zero; [done|]. rewrite HcA. field. lra.
  - intros HT. pose proof (conductance_all_T kmer HT ltac:(lia)) as HcT. fold c n in HcT.
    assert (c / n == 1)%Q as Hone by (rewrite HcT; field; lra).
    by rewrite (b64_proper _ _ Hone).
Qed.

(** X16: for a k-mer of length [k <= 2 ** e], the level that
    [serial_resistor_model] gives to its index is within [2 ** (e - 51)] of
    the sum of the k-mer's codes (A=0, C=1, G=2, T=3) over [3k]; it lies in
    [[0, 1]], is 0.0 for the all-A and 1.0 for the all-T k-mer. *)
Theorem resistor_level_digit_sum (kmer : list base) (e : Z) :
  kmer ≠ [] → (0 ≤ e ≤ 53)%Z → (Z.of_nat (length kmer) ≤ 2 ^ e)%Z →
  ∃ idx v,
    _kmer_index kmer = Ok idx ∧
    serial_resistor_model idx (Z.of_nat (length kmer)) = Ok v ∧
    (Qabs (v - inject_Z (digit_sum kmer) / inject_Z (3 * Z.of_nat (length kmer)))
     <= pow2 (e - 51))%Q ∧
    (0 <= v)%Q ∧ (v <= 1)%Q ∧
    (Forall (λ b, b = bA) kmer → (v == 0)%Q) ∧
    (Forall (λ b, b = bT) kmer → (v == 1)%Q).
Proof. apply resistor_level. Qed.

Lemma resistor_level_digit_sum_witness :
  ∃ idx v,
    _kmer_index [bT; bC; bT] = Ok idx ∧
    serial_resistor_model idx (Z.of_nat (length [bT; bC; bT])) = Ok v ∧
    (Qabs (v - inject_Z (digit_sum [bT; bC; bT]) / inject_Z (3 * Z.of_nat (length [bT; bC; bT])))
     <= pow2 (2 - 51))%Q ∧
    (0 <= v)%Q ∧ (v <= 1)%Q ∧
    (Forall (λ b, b = bA) [bT; bC; bT] → (v == 0)%Q) ∧
    (Forall (λ b, b = bT) [bT; bC; bT] → (v == 1)%Q).
Proof. apply (resistor_level_digit_sum [bT; bC; bT] 2); [done|lia|by vm_compute]. Defined.

(** The level of TCT is the float below [7/9], not the float nearest to
    it. *)
Example resistor_level_inexact :
  ∃ v, serial_resistor_model 55 3 = Ok v ∧
       (v < b64 (7 # 9))%Q ∧ (v == b64 (7 # 9) - pow2 (-53))%Q.
Proof. eexists. split; [by vm_compute|]. split; by vm_compute. Qed.

Lemma resistor_table_lookup (k : Z) (rnd : nat → Q) (levels : list Q) (idx : Z) (v : Q) :
  resistor_model k rnd = Ok levels → (0 ≤ idx < 4 ^ k)%Z → (0 ≤ k)%Z →
  serial_resistor_model idx k = Ok v →
  levels !! Z.to_nat idx = Some v.
Proof.
  unfold resistor_model, alphabet_pow. destruct (Z.ltb_spec k 0); [lia|]. simpl.
  intros (ys & -> & HF)%py_for_collect_inv Hidx _ Hv. simpl.
  assert (range (4 ^ k) !! Z.to_nat idx = Some (Z.to_nat idx)) as Hs.
  { unfold range. apply lookup_seq. lia. }
  destruct (Forall2_lookup_l _ _ _ _ _ HF Hs) as (y & Hy & Hsrm).
  rewrite Z2Nat.id in Hsrm by lia. rewrite Hv in Hsrm. by injection Hsrm as <-.
Qed.

(** X17: in a pore constructed with the [resistor_model] for [k <= 2 ** e],
    the table levels of two k-mers that are permutations of each other (such
    as ACA, CAA and AAC) differ by at most [2 ** (e - 50)]: the additions
    are rounded in the order of the symbols, so the levels need not be
    equal. *)
Theorem resistor_pore_permutation (k e : Z) (md snr : pynum) (noise dwell : string)
    (rnd : nat → Q) (p : Pore) (kmer1 kmer2 : list base) :
  Pore_init k md snr noise dwell "resistor_model" rnd = Ok p →
  Z.of_nat (length kmer1) = k → kmer1 ≠ [] → kmer1 ≡ₚ kmer2 →
  (0 ≤ e ≤ 53)%Z → (k ≤ 2 ^ e)%Z →
  ∃ idx1 idx2 v1 v2,
    _kmer_index kmer1 = Ok idx1 ∧ _kmer_index kmer2 = Ok idx2 ∧
    py_index (current_levels p) idx1 = Ok v1 ∧
    py_index (current_levels p) idx2 = Ok v2 ∧
    (Qabs (v1 - v2) <= pow2 (e - 50))%Q.
Proof.
  intros (model & _ & _ & Hc & Hm & _)%Pore_init_inv Hk Hne Hperm He Hke.
  assert (model = resistor_model) as ->.
  { by apply CURRENT_LEVELS_lookup in Hc as [[? _]|[[? _]|[_ ?]]]. }
  assert (length kmer2 = length kmer1) as Hlen by (by rewrite Hperm).
  assert (kmer2 ≠ []) as Hne2 by (intros ->; destruct kmer1; done).
  destruct (resistor_level kmer1 e Hne He ltac:(lia)) as (idx1 & v1 & Hi1 & Hv1 & He1 & _).
  destruct (resistor_level kmer2 e Hne2 He ltac:(lia)) as (idx2 & v2 & Hi2 & Hv2 & He2 & _).
  destruct (kmer_index_bound kmer1 Hne) as (? & Hi1' & Hb1).
  destruct (kmer_index_bound kmer2 Hne2) as (? & Hi2' & Hb2).
  rewrite Hi1 in Hi1'. injection Hi1' as <-. rewrite Hi2 in Hi2'. injection Hi2' as <-.
  rewrite Hlen in Hv2, He2, Hb2. rewrite Hk in Hv1, Hv2, Hb1, Hb2.
  rewrite <- (digit_sum_Permutation _ _ Hperm) in He2.
  exists idx1, idx2, v1, v2. split; [done|]. split; [done|].
  split; [|split].
  - replace idx1 with (Z.of_nat (Z.to_nat idx1)) at 1 by lia. apply py_index_nat.
    apply (resistor_table_lookup k rnd); [done|done|lia|done].
  - replace idx2 with (Z.of_nat (Z.to_nat idx2)) at 1 by lia. apply py_index_nat.
    apply (resistor_table_lookup k rnd); [done|done|lia|done].
  - assert (pow2 (e - 50) == 2 * pow2 (e - 51))%Q as ->.
    { replace (e - 50)%Z with (e - 51 + 1)%Z by lia. by rewrite pow2_succ. }
    revert He1 He2. generalize (pow2 (e - 51)).
    generalize (inject_Z (digit_sum kmer1) / inject_Z (3 * Z.of_nat (length kmer1)))%Q.
    intros s u He1 He2.
    apply Qabs_Qle_condition in He1, He2. apply Qabs_Qle_condition. lra.
Qed.

Lemma resistor_pore_permutation_witness :
  ∃ p,
    Pore_init 3 (PyInt 10) (PyInt 250) "normal" "poisson" "resistor_model" (λ _, 0%Q) = Ok p ∧
    ∃ idx1 idx2 v1 v2,
      _kmer_index [bC; bT; bT] = Ok idx1 ∧ _kmer_index [bT; bC; bT] = Ok idx2 ∧
      py_index (current_levels p) idx1 = Ok v1 ∧
      py_index (current_levels p) idx2 = Ok v2 ∧
      (Qabs (v1 - v2) <= pow2 (2 - 50))%Q.
Proof.
  eexists. split; [by vm_compute|].
  apply (resistor_pore_permutation 3 2 (PyInt 10) (PyInt 250) "normal" "poisson" (λ _, 0%Q));
    [by vm_compute|reflexivity|done| |lia|by vm_compute].
  apply (perm_swap bT bC [bT]).
Defined.

(** The levels of CTT and TCT in the table for [k = 3] are two different
    floats, one unit in the last place apart. *)
Example resistor_permutation_levels_differ :
  ∃ p v1 v2,
    Pore_init 3 (PyInt 10) (PyInt 250) "normal" "poisson" "resistor_model" (λ _, 0%Q) = Ok p ∧
    _kmer_index [bC; bT; bT] = Ok 31%Z ∧ _kmer_index [bT; bC; bT] = Ok 55%Z ∧
    py_index (current_levels p) 31 = Ok v1 ∧
    py_index (current_levels p) 55 = Ok v2 ∧
    (v1 == v2 + pow2 (-53))%Q.
Proof.
  eexists _, _, _. split; [by vm_compute|]. split; [done|]. split; [done|].
  split; [by vm_compute|]. split; by vm_compute.
Qed.

(** ** The alignment of a generated signal *)

Lemma generate_signal_shape (k : Z) (md snr : pynum) (noise dwell levels : string)
    (rnd : nat → Q) (p : Pore) (dna_sequence : list base) (g : rng) :
  Pore_init k md snr noise dwell levels rnd = Ok p →
  (1 ≤ k)%Z → (0 < num_val snr)%Q → (0 <= num_val md)%Q →
  (dwell = "fixed" → ∃ z, md = PyInt z) →
  ∃ signal alignment g',
    generate_signal p dna_sequence g = Ok (signal, alignment, g') ∧
    length alignment = S (Z.to_nat (Z.of_nat (length dna_sequence) - k + 1)) ∧
    alignment !! 0 = Some 0%Z ∧
    StronglySorted Z.le alignment ∧
    last alignment = Some (Z.max 0 (Z.of_nat (length signal) - 1)) ∧
    Forall (λ a, (0 ≤ a ≤ Z.max 0 (Z.of_nat (length signal) - 1))%Z) alignment.
Proof.
  intros (model & Hn & Hd & Hc & Hm & Hk & Hmd & Hamp)%Pore_init_inv Hk1 Hsnr Hmean Hfix.
  pose proof (levels_length _ _ _ _ _ Hk1 Hc Hm) as Hlen.
  rewrite generate_signal_unfold, Hk.
  set (P := λ (n : nat) (st : list Q * list Z * rng),
         length st.1.2 = S n ∧ st.1.2 !! 0 = Some 0%Z ∧ StronglySorted Z.le st.1.2 ∧
         last st.1.2 = Some (Z.max 0 (Z.of_nat (length st.1.1) - 1)) ∧
         Forall (λ a, (0 ≤ a ≤ Z.max 0 (Z.of_nat (length st.1.1) - 1))%Z) st.1.2).
  destruct (py_for_invariant P
              (range (Z.of_nat (length dna_sequence) - k + 1))
              (generate_step p dna_sequence) ([], [0%Z], g))
    as ([[signal alignment] g1] & -> & HP).
  { unfold P. simpl. split; [done|]. split; [done|].
    split; [repeat constructor|]. split; [done|]. constructor; [lia|constructor]. }
  { intros n i [[signal alignment] g0] Hi (Hl & H0 & Hs & Hlast & Hb).
    simpl in Hl, H0, Hs, Hlast, Hb.
    unfold range in Hi. apply lookup_seq in Hi as [-> Hi]. rewrite Nat.add_0_l.
    destruct (squiggle_level_total p dna_sequence n) as [level Hlevel];
      [lia|by rewrite Hk|lia|].
    destruct (dwell_returns_int dwell _ (mean_dwell_time p) g0 Hd) as (z & g' & Hdw);
      [by rewrite Hmd|by rewrite Hmd|].
    rewrite (generate_step_ok _ _ _ _ _ _ _ _ _ Hlevel Hdw).
    eexists. split; [done|]. unfold P. simpl.
    rewrite !length_app, length_replicate. simpl.
    split; [lia|]. split; [by rewrite lookup_app_l by lia|]. split; [|split].
    - apply StronglySorted_app_2; [|done|repeat constructor].
      intros a b Ha ->%list_elem_of_singleton.
      rewrite Forall_forall in Hb. specialize (Hb a Ha). lia.
    - by rewrite last_snoc.
    - apply Forall_app. split; [|repeat constructor; lia].
      eapply Forall_impl; [exact Hb|]. simpl. intros; lia. }
  destruct HP as (Hl & H0 & Hs & Hlast & Hb). simpl in *.
  destruct (noise_returns noise _ signal (noise_amplitude p) g1 Hn) as (ns & g2 & -> & Hns).
  { rewrite Hamp. by apply noise_amplitude_nonneg. }
  simpl. eexists _, _, _. split; [done|].
  rewrite length_zip_with, Hns, Nat.min_id.
  rewrite Hl. unfold range. rewrite length_seq. done.
Qed.



(** X19: with the [clean] noise and the [fixed] dwell policy (an integer
    dwell [d]), [generate_signal] on a sequence of length [L] draws nothing
    from the random generator; the signal has
    [max(0, L - k + 1) * max(0, d)] samples, sample [j] is the level of the
    k-mer at position [j // d] (plus the zero noise), and alignment entry
    [i + 1] is [max(0, (i + 1) * d - 1)], the index of the last sample of
    k-mer [i]. *)
Theorem generate_signal_fixed_clean_exact (k d : Z) (snr : pynum) (levels : string)
    (rnd : nat → Q) (p : Pore) (dna_sequence : list base) (g : rng) :
  Pore_init k (PyInt d) snr "clean" "fixed" levels rnd = Ok p →
  (1 ≤ k)%Z →
  ∃ signal alignment,
    generate_signal p dna_sequence g = Ok (signal, alignment, g) ∧
    length signal = Z.to_nat (Z.of_nat (length dna_sequence) - k + 1) * Z.to_nat d ∧
    (∀ j x, signal !! j = Some x →
       ∃ level, squiggle_level p dna_sequence (j / Z.to_nat d) = Ok level ∧
                x = (level + 0)%Q) ∧
    alignment = 0%Z :: ((λ i : nat, Z.max 0 (Z.of_nat (S i) * d - 1))
                        <$> seq 0 (Z.to_nat (Z.of_nat (length dna_sequence) - k + 1))).
Proof.
  intros (model & Hn & Hd & Hc & Hm & Hk & Hmd & Hamp)%Pore_init_inv Hk1.
  pose proof (levels_length _ _ _ _ _ Hk1 Hc Hm) as Hlen.
  apply NOISE_lookup in Hn as [[_ Hn]|[? _]]; [|done].
  apply DWELL_lookup in Hd as [[_ Hd]|[[? _]|[[? _]|[? _]]]]; [|done..].
  set (n := Z.to_nat (Z.of_nat (length dna_sequence) - k + 1)).
  set (D := Z.to_nat d).
  destruct (Forall2_total (λ j l, squiggle_level p dna_sequence j = Ok l) (seq 0 n))
    as [ls HF].
  { intros i [_ Hi]%elem_of_seq. apply squiggle_level_total; [lia|by rewrite Hk|lia]. }
  pose proof (Forall2_length _ _ _ HF) as Hls. rewrite length_seq in Hls.
  rewrite generate_signal_unfold, Hk. unfold range. fold n.
  set (P := λ (m : nat) (st : list Q * list Z * rng),
         st.1.1 = take m ls ≫= replicate D ∧
         st.1.2 = 0%Z :: ((λ i : nat, Z.max 0 (Z.of_nat (S i) * d - 1)) <$> seq 0 m) ∧
         st.2 = g).
  destruct (py_for_invariant P (seq 0 n) (generate_step p dna_sequence) ([], [0%Z], g))
    as ([[signal alignment] g1] & -> & Hsig & Hal & Hg).
  { split; [by rewrite take_0|done]. }
  { intros m i [[signal alignment] g0] Hi (Hs & Ha & Hg0). simpl in Hs, Ha, Hg0.
    subst signal alignment g0.
    destruct (Forall2_lookup_l _ _ _ _ _ HF Hi) as (level & Hl & Hlevel).
    apply lookup_seq in Hi as [-> Hi]. rewrite Nat.add_0_l in Hlevel.
    rewrite (generate_step_ok _ _ _ _ _ g g level d Hlevel)
      by (by rewrite Hd, Hmd).
    eexists. split; [done|]. split; [|split; [|done]].
    - simpl. rewrite (take_S_r _ _ _ Hl), bind_app, bind_singleton. done.
    - cbn [fst snd]. rewrite seq_S, fmap_app, Nat.add_0_l.
      change ((0%Z :: ((λ i : nat, Z.max 0 (Z.of_nat (S i) * d - 1)) <$> seq 0 m))
              ++ [Z.max 0 (Z.of_nat (length ((take m ls ≫= replicate D)
                                              ++ replicate (Z.to_nat d) level)) - 1)]
              = (0%Z :: ((λ i : nat, Z.max 0 (Z.of_nat (S i) * d - 1)) <$> seq 0 m))
                ++ [Z.max 0 (Z.of_nat (S m) * d - 1)]).
      do 2 f_equal.
      rewrite length_app, blocks_length, length_replicate, length_take.
      fold D. replace (m `min` length ls) with m by lia.
      replace (m * D + D) with (S m * D) by lia. rewrite Nat2Z.inj_mul. subst D.
      destruct (Z.le_gt_cases 0 d); [rewrite Z2Nat.id by lia; lia|].
      replace (Z.to_nat d) with 0 by lia. nia. }
  rewrite length_seq in Hsig, Hal. simpl in Hsig, Hal, Hg. subst g1.
  rewrite take_ge in Hsig by lia. subst signal alignment.
  simpl. rewrite Hn. unfold noise_clean. simpl.
  rewrite zip_with_replicate_r_eq by done.
  eexists _, _. split; [done|]. split; [|split; [|done]].
  - rewrite length_fmap, blocks_length. lia.
  - intros j x. rewrite list_lookup_fmap.
    destruct (decide (0 < D)) as [HD|HD].
    + rewrite blocks_lookup by done.
      destruct (ls !! (j / D)) as [level|] eqn:Hl; [|done]. simpl. intros [= <-].
      exists level. split; [|done].
      destruct (Forall2_lookup_r _ _ _ _ _ HF Hl) as (i & Hi & Hlevel).
      apply lookup_seq in Hi as [-> _]. done.
    + replace D with 0 by lia. rewrite bind_none; [done|]. done.
Qed.

Lemma generate_signal_fixed_clean_exact_witness :
  ∃ p,
    Pore_init 1 (PyInt 2) (PyInt 250) "clean" "fixed" "even_space" (λ _, 0%Q) = Ok p ∧
    ∃ signal alignment,
      generate_signal p [bA; bC; bG] quiet = Ok (signal, alignment, quiet) ∧
      length signal = Z.to_nat (Z.of_nat (length [bA; bC; bG]) - 1 + 1) * Z.to_nat 2 ∧
      (∀ j x, signal !! j = Some x →
         ∃ level, squiggle_level p [bA; bC; bG] (j / Z.to_nat 2) = Ok level ∧
                  x = (level + 0)%Q) ∧
      alignment = 0%Z :: ((λ i : nat, Z.max 0 (Z.of_nat (S i) * 2 - 1))
                          <$> seq 0 (Z.to_nat (Z.of_nat (length [bA; bC; bG]) - 1 + 1))).
Proof.
  eexists. split; [reflexivity|].
  apply (generate_signal_fixed_clean_exact 1 2 (PyInt 250) "even_space" (λ _, 0%Q)).
  - reflexivity.
  - lia.
Defined.

(** ** The simulator's chunks *)

(** The binary search on a sorted array: everything to the left of the
    result is below [v], everything from the result on is not. *)
Lemma searchsorted_loop_spec (fuel : nat) (a : list Z) (v : Z) (lo hi : nat) :
  StronglySorted Z.le a → lo ≤ hi → hi ≤ length a → hi - lo ≤ fuel →
  (∀ i x, i < lo → a !! i = Some x → (x < v)%Z) →
  (∀ i x, hi ≤ i → a !! i = Some x → (v ≤ x)%Z) →
  lo ≤ searchsorted_loop fuel a v lo hi ≤ hi ∧
  (∀ i x, i < searchsorted_loop fuel a v lo hi → a !! i = Some x → (x < v)%Z) ∧
  (∀ i x, searchsorted_loop fuel a v lo hi ≤ i → a !! i = Some x → (v ≤ x)%Z).
Proof.
  intros Hs. revert lo hi. induction fuel as [|fuel IH]; intros lo hi Hle Hhi Hfuel Hlo Hup.
  - simpl. assert (hi = lo) as -> by lia. done.
  - cbn [searchsorted_loop]. destruct (Nat.ltb_spec lo hi) as [Hlt|Hge].
    + set (mid := lo + (hi - lo) / 2).
      assert (lo ≤ mid < hi) as Hmid.
      { subst mid. split; [lia|].
        assert ((hi - lo) / 2 < hi - lo); [|lia]. apply Nat.div_lt; lia. }
      destruct (lookup_lt_is_Some_2 a mid) as [mid_val Hmv]; [lia|]. rewrite Hmv.
      destruct (Z.ltb_spec mid_val v) as [Hcmp|Hcmp].
      * destruct (IH (mid + 1) hi) as (Hr & Hbelow & Habove); [lia|lia|lia| |done|].
        { intros i x Hi Hx. destruct (decide (i = mid)) as [->|Hne].
          - rewrite Hmv in Hx. injection Hx as <-. done.
          - pose proof (StronglySorted_lookup Z.le a i mid x mid_val Hs ltac:(lia) Hx Hmv).
            lia. }
        split; [lia|done].
      * destruct (IH lo mid) as (Hr & Hbelow & Habove); [lia|lia|lia|done| |].
        { intros i x Hi Hx. destruct (decide (i = mid)) as [->|Hne].
          - rewrite Hmv in Hx. injection Hx as <-. done.
          - pose proof (StronglySorted_lookup Z.le a mid i mid_val x Hs ltac:(lia) Hmv Hx).
            lia. }
        split; [lia|done].
    + assert (hi = lo) as -> by lia. done.
Qed.

Lemma np_searchsorted_spec (a : list Z) (v : Z) :
  StronglySorted Z.le a →
  np_searchsorted a v ≤ length a ∧
  (∀ i x, i < np_searchsorted a v → a !! i = Some x → (x < v)%Z) ∧
  (∀ i x, np_searchsorted a v ≤ i → a !! i = Some x → (v ≤ x)%Z).
Proof.
  intros Hs. unfold np_searchsorted.
  destruct (searchsorted_loop_spec (length a) a v 0 (length a) Hs) as (Hr & Hb & Ha);
    [lia|lia|lia|intros; lia| |].
  { intros i x Hi Hx. apply lookup_lt_Some in Hx. lia. }
  split; [lia|done].
Qed.

Lemma py_slice_prefix {A : Type} (l : list A) (n : nat) :
  py_slice l 0 (Z.of_nat n) = take n l.
Proof.
  change 0%Z with (Z.of_nat 0). rewrite (py_slice_nat l 0 n), Nat.sub_0_r. done.
Qed.

Lemma simulator_body_chunk (k : Z) (md snr : pynum) (noise dwell levels : string)
    (rnd : nat → Q) (p : Pore) (c : Z) (sequence : list base) (g : rng) :
  Pore_init k md snr noise dwell levels rnd = Ok p →
  (1 ≤ k)%Z → (0 < num_val snr)%Q → (0 <= num_val md)%Q →
  (dwell = "fixed" → ∃ z, md = PyInt z) →
  (0 < c)%Z →
  ∃ signal alignment g',
    generate_signal p sequence g = Ok (signal, alignment, g') ∧
    ((Z.of_nat (length signal) ≤ c)%Z ∧
     simulator_body p (Some c) sequence g = Ok (None, g')
     ∨
     (c < Z.of_nat (length signal))%Z ∧
     ∃ pos a,
       simulator_body p (Some c) sequence g
       = Ok (Some (take pos sequence, take (Z.to_nat c) signal, take pos alignment), g') ∧
       1 ≤ pos ∧
       length (take pos sequence) = pos ∧
       length (take pos alignment) = pos ∧
       Z.of_nat (length (take (Z.to_nat c) signal)) = c ∧
       Forall (λ a, (0 ≤ a < c)%Z) (take pos alignment) ∧
       alignment !! pos = Some a ∧ (c ≤ a)%Z).
Proof.
  intros Hp Hk Hsnr Hmd Hfix Hc.
  destruct (generate_signal_shape k md snr noise dwell levels rnd p sequence g
              Hp Hk Hsnr Hmd Hfix)
    as (signal & alignment & g' & Hgen & Hlen & H0 & Hs & Hlast & Hb).
  exists signal, alignment, g'. split; [done|].
  unfold simulator_body. rewrite Hgen, result_bind_ok. cbv beta iota.
  destruct (Z.eqb_spec c 0) as [?|_]; [lia|]. cbn [negb].
  assert (py_index alignment (-1) = Ok (Z.max 0 (Z.of_nat (length signal) - 1))) as ->.
  { rewrite last_lookup in Hlast. unfold py_index. simpl.
    destruct (Z.ltb_spec (-1 + Z.of_nat (length alignment)) 0); [lia|].
    replace (Z.to_nat (-1 + Z.of_nat (length alignment))) with (pred (length alignment)) by lia.
    by rewrite Hlast. }
  rewrite result_bind_ok.
  destruct (Z.ltb_spec (Z.max 0 (Z.of_nat (length signal) - 1)) c) as [Hshort|Hlong].
  { left. split; [lia|done]. }
  right. split; [lia|].
  destruct (np_searchsorted_spec alignment c Hs) as (Hpos & Hbelow & Habove).
  set (pos := np_searchsorted alignment c) in *.
  assert (1 ≤ pos) as Hpos1.
  { destruct pos as [|pos']; [|lia]. specialize (Habove 0 0%Z ltac:(lia) H0). lia. }
  assert (pos < length alignment) as Hpos2.
  { destruct (decide (pos < length alignment)) as [|Hge]; [done|].
    rewrite last_lookup in Hlast.
    specialize (Hbelow (pred (length alignment)) _ ltac:(lia) Hlast). lia. }
  destruct (lookup_lt_is_Some_2 alignment pos Hpos2) as [a Ha].
  exists pos, a. rewrite !py_slice_prefix.
  replace c with (Z.of_nat (Z.to_nat c)) at 1 by lia. rewrite py_slice_prefix.
  split; [done|]. split; [done|]. rewrite !length_take.
  split; [lia|]. split; [lia|]. split; [lia|]. split; [|split; [done|apply (Habove pos a); [lia|done]]].
  apply Forall_forall. intros x Hx.
  apply list_elem_of_lookup_1 in Hx as [i Hi].
  apply lookup_take_Some in Hi as [Hi Hlt].
  split; [|apply (Hbelow i x); [lia|done]].
  rewrite Forall_forall in Hb. apply (Hb x). by eapply list_elem_of_lookup_2.
Qed.





(** ** Reasoning about code that draws from [random] *)

Section returns.
Context (I : py_rng → Prop).
Hypothesis I_shift : ∀ g, I g → I (λ n, g (S n)).

Lemma returns_ret {A : Type} (x : A) (Q : A → Prop) : Q x → returns I (mret x) Q.
Proof. intros HQ g Hg. by exists x, g. Qed.

Lemma returns_bind {A B : Type} (m : rand A) (f : A → rand B) (P : A → Prop)
    (Q : B → Prop) :
  returns I m P → (∀ x, P x → returns I (f x) Q) → returns I (m ≫= f) Q.
Proof.
  intros Hm Hf g Hg. destruct (Hm g Hg) as (x & g1 & Hx & Hg1 & HP).
  destruct (Hf x HP g1 Hg1) as (y & g2 & Hy & Hg2 & HQ).
  exists y, g2. split; [|done]. unfold mbind, rand_bind. by rewrite Hx.
Qed.

Lemma returns_weaken {A : Type} (m : rand A) (P Q : A → Prop) :
  returns I m P → (∀ x, P x → Q x) → returns I m Q.
Proof.
  intros Hm HPQ g Hg. destruct (Hm g Hg) as (x & g1 & Hx & Hg1 & HP).
  exists x, g1. auto.
Qed.

Lemma returns_lift {A : Type} (r : result A) (x : A) (Q : A → Prop) :
  r = Ok x → Q x → returns I (lift r) Q.
Proof. intros -> HQ g Hg. by exists x, g. Qed.

Lemma returns_random (Q : Q → Prop) :
  (∀ g, I g → Q (random_u (g 0))) → returns I random_random Q.
Proof. intros HQ g Hg. eexists _, _. split; [done|]. split; [by apply I_shift|by apply HQ]. Qed.

Lemma returns_randbelow (n : nat) :
  0 < n → returns I (randbelow n) (λ i, i < n).
Proof.
  intros Hn g Hg. eexists _, _. split; [done|]. split; [by apply I_shift|].
  apply Nat.mod_upper_bound. lia.
Qed.

Lemma returns_choice {A : Type} (seq : list A) :
  seq ≠ [] → returns I (random_choice seq) (λ x, x ∈ seq).
Proof.
  intros Hne. unfold random_choice.
  destruct (Nat.eqb_spec (length seq) 0) as [H0|H0]; [by destruct seq|].
  eapply returns_bind; [apply returns_randbelow; lia|]. simpl. intros i Hi.
  destruct (lookup_lt_is_Some_2 seq i Hi) as [x Hx].
  apply (returns_lift _ x); [by apply py_index_nat|by eapply list_elem_of_lookup_2].
Qed.

Lemma returns_randint (a b : Z) :
  (a ≤ b)%Z → returns I (random_randint a b) (λ z, (a ≤ z ≤ b)%Z).
Proof.
  intros Hab. unfold random_randint. destruct (Z.ltb_spec b a); [lia|].
  eapply returns_bind; [apply returns_randbelow; lia|]. simpl. intros r Hr.
  apply returns_ret. lia.
Qed.

Lemma returns_comprehension {A B : Type} (f : A → rand B) (P : A → B → Prop)
    (xs : list A) :
  (∀ x, x ∈ xs → returns I (f x) (P x)) →
  returns I (rand_comprehension f xs) (λ ys, Forall2 P xs ys).
Proof.
  induction xs as [|x xs IH]; intros Hf; simpl.
  - apply returns_ret. constructor.
  - eapply returns_bind; [apply Hf; left|]. intros y Hy.
    eapply returns_bind; [apply IH; intros z Hz; apply Hf; by right|]. intros ys Hys.
    apply returns_ret. by constructor.
Qed.

Lemma returns_for {A S : Type} (J : nat → S → Prop) (xs : list A)
    (body : A → S → rand S) (s : S) :
  J 0 s →
  (∀ n x s, xs !! n = Some x → J n s → returns I (body x s) (J (Datatypes.S n))) →
  returns I (rand_for xs body s) (J (length xs)).
Proof.
  revert J s. induction xs as [|x xs IH]; intros J s H0 Hstep; simpl.
  - by apply returns_ret.
  - eapply returns_bind; [by apply (Hstep 0 x s)|]. intros s1 H1.
    apply (IH (λ n, J (Datatypes.S n))); [done|].
    intros n y s2 Hy. by apply (Hstep (Datatypes.S n)).
Qed.
End returns.

Lemma positive_draws_shift (g : py_rng) :
  positive_draws g → positive_draws (λ n, g (S n)).
Proof. intros H n. apply H. Qed.

Lemma mapM_getitem {V : Type} (d : gmap string V) (keys : list string) :
  Forall (λ key, is_Some (d !! key)) keys →
  ∃ vs, mapM (py_getitem d) keys = Ok vs ∧ Forall2 (λ key v, d !! key = Some v) keys vs.
Proof.
  induction 1 as [|key keys [v Hv] _ (vs & IH & HF)].
  - exists []. split; [done|constructor].
  - exists (v :: vs). split; [|by constructor].
    cbn [mapM]. rewrite IH. unfold py_getitem. rewrite Hv. done.
Qed.

Lemma py_setitem_nat {A : Type} (l : list A) (i : nat) (x : A) :
  i < length l → py_setitem l (Z.of_nat i) x = Ok (<[i := x]> l).
Proof.
  intros Hi. unfold py_setitem.
  destruct (Z.ltb_spec (Z.of_nat i) 0); [lia|].
  destruct (Z.ltb_spec (Z.of_nat i) 0); [lia|].
  destruct (Z.leb_spec (Z.of_nat (length l)) (Z.of_nat i)); [lia|].
  simpl. by rewrite Nat2Z.id.
Qed.

Lemma transdict_bound (b : base) : (0 ≤ transdict b ≤ 3)%Z.
Proof. destruct b; simpl; lia. Qed.

Lemma transdict_inj (a b : base) : transdict a = transdict b → a = b.
Proof. by destruct a, b. Qed.

(** ** Simulated pile-ups *)

Lemma returns_setitem {A : Type} (I : py_rng → Prop) (l : list A) (i : Z) (x : A)
    (Q : list A → Prop) :
  (0 ≤ i < Z.of_nat (length l))%Z → Q (<[Z.to_nat i := x]> l) →
  returns I (lift (py_setitem l i x)) Q.
Proof.
  intros Hi HQ. apply (returns_lift _ _ (<[Z.to_nat i := x]> l)); [|done].
  replace i with (Z.of_nat (Z.to_nat i)) at 1 by lia. apply py_setitem_nat. lia.
Qed.

Lemma Forall2_lookup_seq {A : Type} (l ys : list A) :
  Forall2 (λ i y, l !! i = Some y) (seq 0 (length l)) ys → ys = l.
Proof.
  intros HF. pose proof (Forall2_length _ _ _ HF) as Hlen. rewrite length_seq in Hlen.
  apply list_eq. intros i. destruct (ys !! i) as [y|] eqn:Hy.
  - destruct (Forall2_lookup_r _ _ _ _ _ HF Hy) as (j & Hj & Hl).
    apply lookup_seq in Hj as [-> _]. done.
  - apply lookup_ge_None in Hy. symmetry. apply lookup_ge_None. lia.
Qed.

Lemma mutation_labels_range (m : string) (t : Z) :
  mutation_labels !! m = Some t → t = 0%Z ∨ t = 1%Z ∨ t = 2%Z.
Proof.
  unfold mutation_labels. rewrite !lookup_insert_Some, lookup_singleton_Some.
  intros [[_ <-]|[_ [[_ <-]|[_ [_ <-]]]]]; tauto.
Qed.

Section pileups.
Context (I : py_rng → Prop).
Hypothesis I_shift : ∀ g, I g → I (λ n, g (S n)).
Context (reference_length coverage : Z) (mutations : list string).
Context (p_sequencing_error p_alignment_error : Q).
Context (R : list base → base → Z → list base → Prop).
Hypothesis reference_length_pos : (1 ≤ reference_length)%Z.
Hypothesis mutations_known : Forall (λ m, is_Some (mutation_labels !! m)) mutations.
Hypothesis mutations_nonempty : mutations ≠ [].
Hypothesis read_returns : ∀ reference r s t,
  length reference = Z.to_nat reference_length →
  reference !! Z.to_nat (reference_length `div` 2) = Some r → s ≠ r →
  label_of mutations t →
  returns I (simulate_read reference reference_length (reference_length `div` 2) s t
               p_sequencing_error p_alignment_error)
          (R reference s t).

Lemma simulate_alignment_returns (alignments : list (list (list base)))
    (mutation_types : list Z) :
  returns I (simulate_alignment reference_length coverage mutations
               p_sequencing_error p_alignment_error (alignments, mutation_types))
    (λ st, ∃ alignment t,
       st = (alignments ++ [alignment], mutation_types ++ [t]) ∧
       pileup R reference_length coverage mutations alignment t).
Proof.
  unfold simulate_alignment.
  assert (0 ≤ reference_length `div` 2 < reference_length)%Z as Hsnp.
  { split; [apply Z.div_pos; lia|apply Z.div_lt_upper_bound; lia]. }
  eapply returns_bind.
  { apply (returns_comprehension I _ (λ _ _, True)). intros i _.
    eapply returns_weaken; [by apply returns_choice|done]. }
  intros reference Href. simpl in Href. apply Forall2_length in Href.
  unfold range in Href. rewrite length_seq in Href.
  destruct (lookup_lt_is_Some_2 reference (Z.to_nat (reference_length `div` 2)))
    as [r Hr]; [lia|].
  eapply returns_bind.
  { apply (returns_lift I _ r (λ x, x = r)); [|done].
    replace (reference_length `div` 2)%Z
      with (Z.of_nat (Z.to_nat (reference_length `div` 2))) by lia.
    by apply py_index_nat. }
  intros ? ->.
  eapply returns_bind.
  { apply (returns_choice I I_shift). by destruct r. }
  intros s Hs. simpl in Hs. apply list_elem_of_filter in Hs as [Hs _].
  destruct (mapM_getitem mutation_labels mutations mutations_known) as (labels & Hlabels & HF).
  eapply returns_bind.
  { by apply (returns_lift I _ labels (λ x, x = labels)). }
  intros ? ->.
  assert (labels ≠ []) as Hne.
  { intros ->. apply Forall2_length in HF. by destruct mutations. }
  eapply returns_bind; [by apply returns_choice|].
  intros t Ht. simpl in Ht.
  assert (label_of mutations t) as Hlabel.
  { apply list_elem_of_lookup_1 in Ht as [i Hi].
    destruct (Forall2_lookup_r _ _ _ _ _ HF Hi) as (m & Hm & Hmt).
    exists m. split; [by eapply list_elem_of_lookup_2|done]. }
  eapply returns_bind.
  { apply (returns_for I
             (λ n alignment, ∃ reads, alignment = reference :: reads ∧ length reads = n ∧
                                      Forall (R reference s t) reads)).
    - exists []. by repeat split.
    - intros n _ alignment _ (reads & -> & Hn & Hreads).
      eapply returns_bind; [by apply (read_returns reference r s t)|].
      intros read Hread. apply returns_ret.
      exists (reads ++ [read]). rewrite length_app. simpl.
      split; [done|]. split; [lia|]. apply Forall_app. split; [done|by constructor]. }
  intros alignment (reads & -> & Hn & Hreads). simpl in Hn.
  apply returns_ret. eexists _, _. split; [done|].
  exists reference, reads, r, s. unfold range in Hn. rewrite length_seq in Hn. done.
Qed.

Lemma simulate_alignments_returns (num_alignments : Z) :
  (1 ≤ num_alignments)%Z →
  returns I (simulate_alignments reference_length num_alignments coverage mutations
               p_sequencing_error p_alignment_error)
    (λ out, ∃ alignments,
       out.1 = (λ alignment : list (list base),
                  (λ read : list base, transdict <$> read) <$> alignment) <$> alignments ∧
       length alignments = Z.to_nat num_alignments ∧
       Forall2 (pileup R reference_length coverage mutations) alignments out.2).
Proof.
  intros HN. unfold simulate_alignments.
  eapply returns_bind.
  { apply (returns_for I (λ n st, length st.1 = n ∧
                Forall2 (pileup R reference_length coverage mutations) st.1 st.2)).
    - split; [done|constructor].
    - intros n _ [alignments mutation_types] _ [Hn HF]. simpl in Hn, HF.
      eapply returns_weaken; [apply simulate_alignment_returns|].
      intros ? (alignment & t & -> & Hp). simpl. rewrite length_app. simpl.
      split; [lia|]. apply Forall2_app; [done|by constructor]. }
  intros [alignments mutation_types] [Hn HF]. simpl in Hn, HF.
  unfold range in Hn. rewrite length_seq in Hn.
  assert (length (concat (concat alignments)) ≠ 0) as Hsize.
  { destruct HF as [|alignment t ? ? (reference & reads & r & s & -> & Hlen & _) _];
      [simpl in Hn; lia|].
    destruct reference; [simpl in Hlen; lia|]. done. }
  destruct (Nat.eqb_spec (length (concat (concat alignments))) 0); [done|].
  apply returns_ret. exists alignments. done.
Qed.
End pileups.

Lemma snp_index_bounds (reference_length : Z) :
  (1 ≤ reference_length)%Z →
  (0 ≤ reference_length `div` 2 < reference_length)%Z.
Proof. intros H. split; [apply Z.div_pos; lia|apply Z.div_lt_upper_bound; lia]. Qed.

Lemma snp_index_window (reference_length : Z) :
  (5 ≤ reference_length)%Z →
  (1 ≤ reference_length `div` 2 ∧ reference_length `div` 2 + 2 < reference_length)%Z.
Proof.
  intros H. split; [apply Z.div_le_lower_bound; lia|].
  assert (reference_length `div` 2 < reference_length - 2)%Z; [|lia].
  apply Z.div_lt_upper_bound; lia.
Qed.

(** A read has the length of the reference, whatever is drawn. *)
Lemma simulate_read_length (I : py_rng → Prop) (reference : list base)
    (reference_length : Z) (s : base) (t : Z) (p_sequencing_error p_alignment_error : Q) :
  (∀ g, I g → I (λ n, g (S n))) →
  length reference = Z.to_nat reference_length → (5 ≤ reference_length)%Z →
  returns I (simulate_read reference reference_length (reference_length `div` 2) s t
               p_sequencing_error p_alignment_error)
          (λ read, length read = length reference).
Proof.
  intros I_shift Hlen HL. unfold simulate_read.
  destruct (snp_index_window reference_length HL) as [Hlo Hhi].
  apply (returns_bind I _ _ (λ new_read, length new_read = length reference)).
  { eapply returns_weaken.
    - apply (returns_comprehension I _ (λ _ _, True)). intros i [_ Hi]%elem_of_seq.
      unfold new_read_base.
      apply (returns_bind I _ _ (λ _, True)); [by apply returns_random|]. intros u _.
      destruct (Qltb p_sequencing_error u).
      + destruct (lookup_lt_is_Some_2 reference i) as [x Hx]; [lia|].
        apply (returns_lift I _ x); [by apply py_index_nat|done].
      + eapply returns_weaken; [by apply returns_choice|done].
    - simpl. intros new_read HF. apply Forall2_length in HF.
      unfold range in HF. rewrite length_seq in HF. lia. }
  intros new_read Hnr.
  apply (returns_bind I _ _ (λ _, True)); [by apply returns_random|]. intros u _.
  apply (returns_bind I _ _ (λ mut_index, (0 ≤ mut_index < reference_length)%Z)).
  { destruct (Qltb u p_alignment_error).
    - eapply returns_bind; [apply (returns_randint I I_shift (-1) 2); lia|].
      simpl. intros d Hd. apply returns_ret. lia.
    - apply returns_ret. lia. }
  intros mut_index Hmut.
  apply (returns_bind I _ _ (λ new_read, length new_read = length reference)).
  { destruct (t =? 1)%Z; [|by apply returns_ret].
    apply (returns_bind I _ _ (λ _, True)); [by apply returns_random|]. intros u1 _.
    destruct (Qltb (1 # 2) u1); [|by apply returns_ret].
    apply returns_setitem; [lia|by rewrite length_insert]. }
  intros new_read1 Hnr1.
  apply (returns_bind I _ _ (λ new_read, length new_read = length reference)).
  { destruct (t =? 2)%Z; [|by apply returns_ret].
    apply returns_setitem; [lia|by rewrite length_insert]. }
  intros new_read2 Hnr2.
  apply (returns_bind I _ _ (λ _, True)); [by apply returns_random|]. intros u2 _.
  destruct (Qltb u2 p_sequencing_error); [|by apply returns_ret].
  eapply returns_bind; [by apply returns_choice|]. intros b _.
  apply returns_setitem; [lia|by rewrite length_insert].
Qed.

(** With both error probabilities 0 and every float drawn in (0, 1), a read
    is the reference, with [snp_base] at the SNP position for a homozygous
    SNP and, as the draw goes, for a heterozygous one. *)
Lemma simulate_read_no_errors (reference : list base) (reference_length : Z)
    (s : base) (t : Z) :
  length reference = Z.to_nat reference_length → (1 ≤ reference_length)%Z →
  returns positive_draws
          (simulate_read reference reference_length (reference_length `div` 2) s t 0 0)
          (λ read, (read = reference ∧ t ≠ 2%Z) ∨
                   (read = <[Z.to_nat (reference_length `div` 2) := s]> reference ∧
                    (t = 1 ∨ t = 2)%Z)).
Proof.
  intros Hlen HL. unfold simulate_read.
  pose proof (snp_index_bounds reference_length HL) as Hsnp.
  pose proof positive_draws_shift as Hshift.
  apply (returns_bind positive_draws _ _ (λ new_read, new_read = reference)).
  { eapply returns_weaken.
    - apply (returns_comprehension positive_draws _ (λ i y, reference !! i = Some y)).
      intros i [_ Hi]%elem_of_seq. unfold new_read_base.
      apply (returns_bind positive_draws _ _ (λ u, 0 < u)%Q).
      { apply returns_random; [done|]. intros g Hg. apply Hg. }
      intros u Hu. apply Qltb_lt in Hu. rewrite Hu.
      destruct (lookup_lt_is_Some_2 reference i) as [x Hx]; [lia|].
      apply (returns_lift positive_draws _ x); [by apply py_index_nat|done].
    - simpl. intros new_read HF. apply Forall2_lookup_seq.
      unfold range in HF. by rewrite Hlen. }
  intros ? ->.
  apply (returns_bind positive_draws _ _ (λ u, 0 < u)%Q).
  { apply returns_random; [done|]. intros g Hg. apply Hg. }
  intros u Hu.
  assert (Qltb u 0 = false) as -> by (apply Qltb_ge; by apply Qlt_le_weak).
  apply (returns_bind positive_draws _ _ (λ mut_index, mut_index = (reference_length `div` 2)%Z)).
  { by apply returns_ret. }
  intros ? ->.
  apply (returns_bind positive_draws _ _
           (λ new_read, new_read = reference ∨
                        (new_read = <[Z.to_nat (reference_length `div` 2) := s]> reference ∧
                         t = 1%Z))).
  { destruct (Z.eqb_spec t 1) as [->|Ht1].
    - apply (returns_bind positive_draws _ _ (λ _, True)); [by apply returns_random|].
      intros u1 _. destruct (Qltb (1 # 2) u1).
      + apply returns_setitem; [lia|]. by right.
      + apply returns_ret. by left.
    - apply returns_ret. by left. }
  intros new_read1 Hnr1.
  apply (returns_bind positive_draws _ _
           (λ new_read, (new_read = reference ∧ t ≠ 2%Z) ∨
                        (new_read = <[Z.to_nat (reference_length `div` 2) := s]> reference ∧
                         (t = 1 ∨ t = 2)%Z))).
  { destruct (Z.eqb_spec t 2) as [->|Ht2].
    - destruct Hnr1 as [->|[_ ?]]; [|done].
      apply returns_setitem; [lia|]. right. split; [done|by right].
    - apply returns_ret. destruct Hnr1 as [->|[-> ->]]; [by left|].
      right. split; [done|by left]. }
  intros new_read2 Hnr2.
  apply (returns_bind positive_draws _ _ (λ u, 0 < u)%Q).
  { apply returns_random; [done|]. intros g Hg. apply Hg. }
  intros u2 Hu2.
  assert (Qltb u2 0 = false) as -> by (apply Qltb_ge; by apply Qlt_le_weak).
  by apply returns_ret.
Qed.

(** X22: for a reference of at least 5 bases, at least one alignment and a
    non-empty list of known mutation names, [simulate_alignments] returns for
    every state of the random generator and every pair of error
    probabilities: one mutation type per alignment, each the label of one of
    the given names, and in every alignment [coverage + 1] rows (the
    reference and the reads) of [reference_length] codes between 0 and 3. *)
Theorem simulate_alignments_shape (reference_length num_alignments coverage : Z)
    (mutations : list string) (p_sequencing_error p_alignment_error : Q) (g : py_rng) :
  (5 ≤ reference_length)%Z → (1 ≤ num_alignments)%Z → mutations ≠ [] →
  Forall (λ m, is_Some (mutation_labels !! m)) mutations →
  ∃ alignments mutation_types g',
    simulate_alignments reference_length num_alignments coverage mutations
      p_sequencing_error p_alignment_error g = Ok ((alignments, mutation_types), g') ∧
    length alignments = Z.to_nat num_alignments ∧
    length mutation_types = Z.to_nat num_alignments ∧
    Forall (λ alignment,
              length alignment = S (Z.to_nat coverage) ∧
              Forall (λ read, length read = Z.to_nat reference_length ∧
                              Forall (λ c, (0 ≤ c ≤ 3)%Z) read) alignment) alignments ∧
    Forall (label_of mutations) mutation_types.
Proof.
  intros HL HN Hne Hknown.
  destruct (simulate_alignments_returns (λ _, True) ltac:(done)
              reference_length coverage mutations p_sequencing_error p_alignment_error
              (λ reference _ _ read, length read = length reference)
              ltac:(lia) Hknown Hne) with (num_alignments := num_alignments) (g := g)
    as ([codes types] & g' & Hrun & _ & alignments & Hcodes & Hlen & HF); [|done|done|].
  { intros reference r s t Hlen _ _ _. by apply simulate_read_length. }
  simpl in Hcodes, HF. subst codes. eexists _, types, g'. split; [exact Hrun|].
  rewrite length_fmap. split; [done|].
  split; [by rewrite <- (Forall2_length _ _ _ HF)|]. split.
  - apply Forall_fmap, Forall_forall. intros alignment [i Hi]%list_elem_of_lookup_1.
    destruct (Forall2_lookup_l _ _ _ _ _ HF Hi)
      as (t & _ & reference & reads & r & s & -> & Hl & _ & _ & _ & Hreads & HR).
    simpl. rewrite length_fmap. split; [lia|].
    assert (∀ read : list base, Forall (λ c, (0 ≤ c ≤ 3)%Z) (transdict <$> read)) as Hcodes.
    { intros read. apply Forall_fmap, Forall_true. intros b. apply transdict_bound. }
    constructor; [by rewrite length_fmap|].
    apply Forall_fmap. eapply Forall_impl; [exact HR|].
    simpl. intros read Hread. rewrite length_fmap. split; [lia|done].
  - apply Forall_forall. intros t [i Hi]%list_elem_of_lookup_1.
    by destruct (Forall2_lookup_r _ _ _ _ _ HF Hi)
      as (alignment & _ & reference & reads & r & s & _ & _ & _ & _ & Hlabel & _).
Qed.

Lemma simulate_alignments_shape_witness :
  ∃ alignments mutation_types g',
    simulate_alignments 5 2 3 ["no_SNP"; "heterozygous_SNP"; "homozygous_SNP"]
      (1 # 10) (1 # 10) (λ n, {| random_u := 1 # 2; randbelow_r := n |})
    = Ok ((alignments, mutation_types), g') ∧
    length alignments = Z.to_nat 2 ∧
    length mutation_types = Z.to_nat 2 ∧
    Forall (λ alignment,
              length alignment = S (Z.to_nat 3) ∧
              Forall (λ read, length read = Z.to_nat 5 ∧
                              Forall (λ c, (0 ≤ c ≤ 3)%Z) read) alignment) alignments ∧
    Forall (label_of ["no_SNP"; "heterozygous_SNP"; "homozygous_SNP"]) mutation_types.
Proof.
  apply (simulate_alignments_shape 5 2 3 ["no_SNP"; "heterozygous_SNP"; "homozygous_SNP"]).
  - lia.
  - lia.
  - discriminate.
  - repeat constructor; by eexists.
Defined.

(** X23: with both error probabilities 0 and every float that [random]
    draws strictly between 0 and 1, [simulate_alignments] returns pile-ups in
    which every read equals the reference row except possibly at the SNP
    position [reference_length // 2]: there every read of a homozygous SNP
    (type 2) carries one and the same code that differs from the
    reference's, every read of type 0 carries the reference's code, and a
    read of a heterozygous SNP (type 1) carries one or the other. *)
Theorem simulate_alignments_no_errors (reference_length num_alignments coverage : Z)
    (mutations : list string) (g : py_rng) :
  (1 ≤ reference_length)%Z → (1 ≤ num_alignments)%Z → mutations ≠ [] →
  Forall (λ m, is_Some (mutation_labels !! m)) mutations →
  positive_draws g →
  ∃ alignments mutation_types g',
    simulate_alignments reference_length num_alignments coverage mutations 0 0 g
    = Ok ((alignments, mutation_types), g') ∧
    Forall2 (λ alignment t,
               ∃ reference reads r s,
                 alignment = reference :: reads ∧
                 length reads = Z.to_nat coverage ∧
                 reference !! Z.to_nat (reference_length `div` 2) = Some r ∧
                 s ≠ r ∧ (0 ≤ s ≤ 3)%Z ∧
                 (t = 0 ∨ t = 1 ∨ t = 2)%Z ∧
                 Forall (λ read,
                           (read = reference ∧ t ≠ 2%Z) ∨
                           (read = <[Z.to_nat (reference_length `div` 2) := s]> reference ∧
                            t ≠ 0%Z)) reads)
            alignments mutation_types.
Proof.
  intros HL HN Hne Hknown Hg.
  destruct (simulate_alignments_returns positive_draws positive_draws_shift
              reference_length coverage mutations 0 0
              (λ reference s t read,
                 (read = reference ∧ t ≠ 2%Z) ∨
                 (read = <[Z.to_nat (reference_length `div` 2) := s]> reference ∧
                  (t = 1 ∨ t = 2)%Z))
              HL Hknown Hne) with (num_alignments := num_alignments) (g := g)
    as ([codes types] & g' & Hrun & _ & alignments & Hcodes & Hlen & HF); [|done|done|].
  { intros reference r s t Hlen _ _ _. by apply simulate_read_no_errors. }
  simpl in Hcodes, HF. subst codes. eexists _, types, g'. split; [exact Hrun|].
  apply Forall2_fmap_l. eapply Forall2_impl; [exact HF|].
  intros alignment t (reference & reads & r & s & -> & _ & Hr & Hs & [m [_ Hm]] & Hreads & HR).
  exists (transdict <$> reference), ((λ read : list base, transdict <$> read) <$> reads),
         (transdict r), (transdict s).
  split; [done|]. split; [by rewrite length_fmap|].
  split; [by rewrite list_lookup_fmap, Hr|].
  split; [by intros ?%transdict_inj|]. split; [apply transdict_bound|].
  split; [by eapply mutation_labels_range|].
  apply Forall_fmap. eapply Forall_impl; [exact HR|]. simpl.
  intros read [[-> ?]|[-> ?]]; [by left|]. right. rewrite list_fmap_insert.
  split; [done|lia].
Qed.

Lemma simulate_alignments_no_errors_witness :
  ∃ alignments mutation_types g',
    simulate_alignments 3 1 2 ["homozygous_SNP"] 0 0
      (λ n, {| random_u := 1 # 2; randbelow_r := n |})
    = Ok ((alignments, mutation_types), g') ∧
    Forall2 (λ alignment t,
               ∃ reference reads r s,
                 alignment = reference :: reads ∧
                 length reads = Z.to_nat 2 ∧
                 reference !! Z.to_nat (3 `div` 2) = Some r ∧
                 s ≠ r ∧ (0 ≤ s ≤ 3)%Z ∧
                 (t = 0 ∨ t = 1 ∨ t = 2)%Z ∧
                 Forall (λ read,
                           (read = reference ∧ t ≠ 2%Z) ∨
                           (read = <[Z.to_nat (3 `div` 2) := s]> reference ∧
                            t ≠ 0%Z)) reads)
            alignments mutation_types.
Proof.
  apply (simulate_alignments_no_errors 3 1 2 ["homozygous_SNP"]).
  - lia.
  - lia.
  - discriminate.
  - repeat constructor. by eexists.
  - intros n. split; reflexivity.
Defined.

Lemma py_index_nil {A : Type} (i : Z) : py_index (@nil A) i = Raise IndexError.
Proof.
  unfold py_index. cbv zeta.
  by destruct (_ <? 0)%Z.
Qed.

Lemma rand_bind_ret {A B : Type} (x : A) (f : A → rand B) (g : py_rng) :
  (mret x ≫= f) g = f x g.
Proof. reflexivity. Qed.

Lemma rand_bind_raise {A B : Type} (m : rand A) (f : A → rand B) (g : py_rng) (e : exn) :
  m g = Raise e → (m ≫= f) g = Raise e.
Proof. intros H. unfold mbind, rand_bind. by rewrite H. Qed.

Lemma simulate_alignment_empty_reference (reference_length coverage : Z)
    (mutations : list string) (p_sequencing_error p_alignment_error : Q)
    (state : list (list (list base)) * list Z) (g : py_rng) :
  (reference_length ≤ 0)%Z →
  simulate_alignment reference_length coverage mutations
    p_sequencing_error p_alignment_error state g = Raise IndexError.
Proof.
  intros HL. destruct state as [alignments mutation_types].
  unfold simulate_alignment, range.
  replace (Z.to_nat reference_length) with 0 by lia.
  cbn [seq rand_comprehension]. rewrite rand_bind_ret.
  apply rand_bind_raise. unfold lift. by rewrite py_index_nil.
Qed.

(** X24: for a reference length that is not positive and at least one
    alignment, [simulate_alignments] raises [IndexError] (at
    [reference[snp_index]] in the first pass), whatever the other arguments
    and the draws are. *)
Theorem simulate_alignments_empty_reference (reference_length num_alignments coverage : Z)
    (mutations : list string) (p_sequencing_error p_alignment_error : Q) (g : py_rng) :
  (reference_length ≤ 0)%Z → (1 ≤ num_alignments)%Z →
  simulate_alignments reference_length num_alignments coverage mutations
    p_sequencing_error p_alignment_error g = Raise IndexError.
Proof.
  intros HL HN. unfold simulate_alignments, range.
  destruct (Z.to_nat num_alignments) as [|n] eqn:Hn; [lia|].
  apply rand_bind_raise. cbn [seq rand_for]. apply rand_bind_raise.
  by apply simulate_alignment_empty_reference.
Qed.

Lemma simulate_alignments_empty_reference_witness :
  simulate_alignments 0 1 100 ["no_SNP"] 0 0 (λ n, {| random_u := 1 # 2; randbelow_r := n |})
  = Raise IndexError.
Proof. apply (simulate_alignments_empty_reference 0 1 100); lia. Defined.

(** ** The simulator's loop with fixed lengths *)

Lemma generate_signal_fixed_dwell (k d : Z) (snr : pynum) (noise levels : string)
    (rnd : nat → Q) (p : Pore) (dna_sequence : list base) (g : rng) :
  Pore_init k (PyInt d) snr noise "fixed" levels rnd = Ok p →
  (1 ≤ k)%Z → (0 < num_val snr)%Q →
  ∃ signal alignment g',
    generate_signal p dna_sequence g = Ok (signal, alignment, g') ∧
    length signal = Z.to_nat (Z.of_nat (length dna_sequence) - k + 1) * Z.to_nat d.
Proof.
  intros (model & Hn & Hd & Hc & Hm & Hk & Hmd & Hamp)%Pore_init_inv Hk1 Hsnr.
  pose proof (levels_length _ _ _ _ _ Hk1 Hc Hm) as Hlen.
  apply DWELL_lookup in Hd as [[_ Hd]|[[? _]|[[? _]|[? _]]]]; [|done..].
  rewrite generate_signal_unfold, Hk.
  destruct (py_for_invariant (λ (n : nat) (st : list Q * list Z * rng),
                                length st.1.1 = n * Z.to_nat d)
              (range (Z.of_nat (length dna_sequence) - k + 1))
              (generate_step p dna_sequence) ([], [0%Z], g))
    as ([[signal alignment] g1] & -> & HP).
  { done. }
  { intros n i [[signal alignment] g0] Hi Hs. simpl in Hs.
    unfold range in Hi. apply lookup_seq in Hi as [-> Hi]. rewrite Nat.add_0_l.
    destruct (squiggle_level_total p dna_sequence n) as [level Hlevel];
      [lia|by rewrite Hk|lia|].
    rewrite (generate_step_ok _ _ _ _ _ g0 g0 level d Hlevel) by (by rewrite Hd, Hmd).
    eexists. split; [done|]. simpl. rewrite length_app, length_replicate. lia. }
  simpl in HP. unfold range in HP. rewrite length_seq in HP.
  rewrite result_bind_ok. cbv beta iota.
  destruct (noise_returns noise _ signal (noise_amplitude p) g1 Hn) as (ns & g2 & -> & Hns).
  { rewrite Hamp. by apply noise_amplitude_nonneg. }
  simpl. eexists _, _, _. split; [done|].
  rewrite length_zip_with, Hns, Nat.min_id. done.
Qed.

Lemma simulate_dna_sequence_length (n : Z) (r : py_rng) :
  ∃ sequence r',
    simulate_dna_sequence (PyInt n) r = Ok (sequence, r') ∧ length sequence = Z.to_nat n.
Proof.
  change (simulate_dna_sequence (PyInt n) r)
    with (rand_comprehension (λ _ : nat, random_choice ALPHABET) (range n) r).
  destruct (returns_comprehension (λ _, True) (λ _ : nat, random_choice ALPHABET)
              (λ _ _, True) (range n)) with (g := r) as (sequence & r' & Hrun & _ & HF);
    [|done|].
  { intros i _. eapply returns_weaken; [by apply returns_choice|done]. }
  exists sequence, r'. split; [done|]. apply Forall2_length in HF.
  unfold range in HF. by rewrite length_seq in HF.
Qed.

(** X25: [simulator] with the [fixed] length distribution (an integer
    length [n]), a pore with the [fixed] dwell policy (an integer dwell
    [d >= 0]) and a positive [chunksize] [c]: every sequence gives
    [(n - k + 1) * d] samples, so when that is at most [c] no pass of the
    loop ever yields (the generator never produces an item), and otherwise
    the first pass yields a signal of exactly [c] samples. *)
Theorem simulator_fixed_lengths (k d n c : Z) (snr : pynum) (noise levels : string)
    (rnd : nat → Q) (p : Pore) :
  Pore_init k (PyInt d) snr noise "fixed" levels rnd = Ok p →
  (1 ≤ k)%Z → (0 < num_val snr)%Q → (0 ≤ d)%Z → (0 < c)%Z →
  ((Z.of_nat (Z.to_nat (n - k + 1)) * d ≤ c)%Z →
   ∀ fuel g r, ∃ g' r',
     simulator_next fuel (PyInt n) p "fixed" (Some c) g r = Ok (None, g', r')) ∧
  ((c < Z.of_nat (Z.to_nat (n - k + 1)) * d)%Z →
   ∀ fuel g r, ∃ sequence signal alignment g' r',
     simulator_next (S fuel) (PyInt n) p "fixed" (Some c) g r
     = Ok (Some (sequence, signal, alignment), g', r') ∧
     Z.of_nat (length signal) = c).
Proof.
  intros Hp Hk Hsnr Hd Hc.
  assert (∀ g r, ∃ sequence r',
            sequence_generator_next (PyInt n) "fixed" g r = Ok (sequence, g, r') ∧
            length sequence = Z.to_nat n) as Hnext.
  { intros g r. destruct (simulate_dna_sequence_length n r) as (sequence & r' & Hrun & Hlen).
    exists sequence, r'. split; [|done].
    unfold sequence_generator_next. change (py_getitem DWELL "fixed") with (Ok dwell_fixed).
    rewrite result_bind_ok. unfold dwell_fixed. rewrite result_bind_ok. cbv beta iota.
    by rewrite Hrun. }
  assert (∀ sequence g, length sequence = Z.to_nat n →
            ∃ signal alignment g',
              generate_signal p sequence g = Ok (signal, alignment, g') ∧
              Z.of_nat (length signal) = (Z.of_nat (Z.to_nat (n - k + 1)) * d)%Z) as Hgen.
  { intros sequence g Hlen.
    destruct (generate_signal_fixed_dwell k d snr noise levels rnd p sequence g Hp Hk Hsnr)
      as (signal & alignment & g' & Hrun & Hsig).
    exists signal, alignment, g'. split; [done|]. rewrite Hsig, Hlen. nia. }
  assert (∀ sequence g,
            ∃ signal alignment g',
              generate_signal p sequence g = Ok (signal, alignment, g') ∧
              ((Z.of_nat (length signal) ≤ c)%Z ∧
               simulator_body p (Some c) sequence g = Ok (None, g')
               ∨ (c < Z.of_nat (length signal))%Z ∧
                 ∃ pos, simulator_body p (Some c) sequence g
                        = Ok (Some (take pos sequence, take (Z.to_nat c) signal,
                                    take pos alignment), g') ∧
                        Z.of_nat (length (take (Z.to_nat c) signal)) = c)) as Hbody.
  { intros sequence g.
    destruct (simulator_body_chunk k (PyInt d) snr noise "fixed" levels rnd p c sequence g)
      as (signal & alignment & g' & Hrun & Hcases);
      [done|done|done|simpl; by rewrite <- (Zle_Qle 0)|by eexists|done|].
    exists signal, alignment, g'. split; [done|].
    destruct Hcases as [?|[? (pos & a & Hb & _ & _ & _ & Hlen & _)]]; [by left|].
    right. split; [done|]. by exists pos. }
  split.
  - intros Hshort fuel. induction fuel as [|fuel IH]; intros g r; [by eexists _, _|].
    cbn [simulator_next].
    destruct (Hnext g r) as (sequence & r' & -> & Hlen). rewrite result_bind_ok.
    cbv beta iota.
    destruct (Hgen sequence g Hlen) as (signal & alignment & g' & Hrun & Hsig).
    destruct (Hbody sequence g) as (signal' & alignment' & g'' & Hrun' & Hcases).
    rewrite Hrun in Hrun'. injection Hrun' as <- <- <-.
    destruct Hcases as [[_ ->]|[? _]]; [|lia].
    rewrite result_bind_ok. cbv beta iota. apply IH.
  - intros Hlong fuel g r. cbn [simulator_next].
    destruct (Hnext g r) as (sequence & r' & -> & Hlen). rewrite result_bind_ok.
    cbv beta iota.
    destruct (Hgen sequence g Hlen) as (signal & alignment & g' & Hrun & Hsig).
    destruct (Hbody sequence g) as (signal' & alignment' & g'' & Hrun' & Hcases).
    rewrite Hrun in Hrun'. injection Hrun' as <- <- <-.
    destruct Hcases as [[? _]|[_ (pos & -> & Hchunk)]]; [lia|].
    rewrite result_bind_ok. cbv beta iota. by eexists _, _, _, _, _.
Qed.

Lemma simulator_fixed_lengths_witness :
  ∃ p,
    Pore_init 2 (PyInt 3) (PyInt 250) "normal" "fixed" "even_space" (λ _, 0%Q) = Ok p ∧
    ((Z.of_nat (Z.to_nat (5 - 2 + 1)) * 3 ≤ 12)%Z →
     ∀ fuel g r, ∃ g' r',
       simulator_next fuel (PyInt 5) p "fixed" (Some 12%Z) g r = Ok (None, g', r')) ∧
    ((12 < Z.of_nat (Z.to_nat (5 - 2 + 1)) * 3)%Z →
     ∀ fuel g r, ∃ sequence signal alignment g' r',
       simulator_next (S fuel) (PyInt 5) p "fixed" (Some 12%Z) g r
       = Ok (Some (sequence, signal, alignment), g', r') ∧
       Z.of_nat (length signal) = 12%Z).
Proof.
  eexists. split; [reflexivity|].
  apply (simulator_fixed_lengths 2 3 5 12 (PyInt 250) "normal" "even_space" (λ _, 0%Q)).
  - reflexivity.
  - lia.
  - reflexivity.
  - lia.
  - lia.
Defined.

(** ** The delta view of a pile-up *)

(** X26: for a pile-up whose reads have the length of the reference row
    and hold no code 4, the array that [plot_delta] draws keeps the reference
    row and the shape, and a cell of a read is 4 exactly where the read
    agrees with the reference and is the read's code elsewhere; without a
    row at all, [plot_delta] raises [IndexError]. *)
Theorem plot_delta_marks_agreement (reference : list Z) (reads : list (list Z)) :
  Forall (λ read, length read = length reference) reads →
  Forall (Forall (λ c, c ≠ 4%Z)) reads →
  plot_delta [] = Raise IndexError ∧
  ∃ deltas,
    plot_delta (reference :: reads) = Ok (reference :: deltas) ∧
    length deltas = length reads ∧
    ∀ i j read x r,
      reads !! i = Some read → read !! j = Some x → reference !! j = Some r →
      ∃ row y,
        deltas !! i = Some row ∧ length row = length read ∧ row !! j = Some y ∧
        (y = 4%Z ↔ x = r) ∧ (x ≠ r → y = x).
Proof.
  intros Hlen Hcodes. split; [done|].
  exists ((λ read, zip_with (λ r x, if (x =? r)%Z then 4%Z else x) reference read) <$> reads).
  split; [|split].
  - unfold plot_delta. change (py_index (reference :: reads) 0) with (Ok reference).
    rewrite result_bind_ok. change 1%Z with (Z.of_nat 1).
    rewrite py_slice_nat. simpl. rewrite Nat.sub_0_r, drop_0, take_ge by lia. done.
  - by rewrite length_fmap.
  - intros i j read x r Hi Hj Hr. rewrite list_lookup_fmap, Hi. simpl.
    rewrite Forall_forall in Hlen. rewrite Forall_forall in Hcodes.
    assert (read ∈ reads) as Hin by (by eapply list_elem_of_lookup_2).
    specialize (Hlen read Hin). specialize (Hcodes read Hin).
    rewrite Forall_forall in Hcodes.
    assert (x ≠ 4%Z) as Hx by (apply Hcodes; by eapply list_elem_of_lookup_2).
    eexists _, _. split; [done|]. rewrite length_zip_with.
    split; [lia|]. rewrite list.lookup_zip_with, Hr. simpl. rewrite Hj. simpl.
    split; [done|]. destruct (Z.eqb_spec x r); split; try done; lia.
Qed.

Lemma plot_delta_marks_agreement_witness :
  plot_delta [] = Raise IndexError ∧
  ∃ deltas,
    plot_delta ([0; 1; 2] :: [[0; 3; 2]])%Z = Ok ([0; 1; 2]%Z :: deltas) ∧
    length deltas = length [[0; 3; 2]%Z] ∧
    ∀ i j read x r,
      [[0; 3; 2]%Z] !! i = Some read → read !! j = Some x → [0; 1; 2]%Z !! j = Some r →
      ∃ row y,
        deltas !! i = Some row ∧ length row = length read ∧ row !! j = Some y ∧
        (y = 4%Z ↔ x = r) ∧ (x ≠ r → y = x).
Proof.
  apply (plot_delta_marks_agreement [0; 1; 2]%Z [[0; 3; 2]%Z]).
  - repeat constructor.
  - repeat constructor; lia.
Defined.
